(** * flux_generator: a shallow embedding and its verified properties

    The development follows [src/flux_generator.py] function by function.
    Python values are modelled as the code has them: [int] as [Z], [float]
    as an IEEE binary64 ([PrimFloat.float]), [str] as [string], [dict] as a
    finite map ([gmap]), [None] as the [None] of an [option].  Code that can
    raise returns a [res]; code that touches files or prints threads a
    [world]; the poll loop, which need not terminate, runs on fuel; the
    downloads of one gather interleave at their awaits, in an order that
    is given from outside. *)

From Stdlib Require Import ZArith Ascii Uint63 Floats.PrimFloat.
From stdpp Require Import gmap strings list.

Set Warnings "-register-all,-clear-no-such-hyp".
Set Default Proof Using "Type".

Local Open Scope Z_scope.

(* ===================================================================== *)
(** * Part I: definitions                                                 *)
(* ===================================================================== *)

(** ** Python values *)

(** JSON-shaped values: what the service returns and what payloads hold. *)
Inductive json : Type :=
  | JNull
  | JBool (b : bool)
  | JInt (z : Z)
  | JFloat (f : PrimFloat.float)
  | JStr (s : string)
  | JArr (l : list json)
  | JObj (m : gmap string json).

(** A request payload / a result record: a [dict] with [str] keys. *)
Abbreviation dict := (gmap string json).

(** The exceptions the code can see.  All of them derive from Python's
    [Exception], which is what [except Exception] catches. *)
Inductive exn : Type :=
  | KeyError (key : string)
  | TypeError (msg : string)
  | AttributeError (msg : string)
  | ValueError (msg : string)
  | ClientError (msg : string)
  | OSError (msg : string).

(** The result of running a piece of code that terminates: a value or a
    raised exception. *)
Inductive res (A : Type) : Type :=
  | Ok (a : A)
  | Raise (e : exn).
Arguments Ok {A} a.
Arguments Raise {A} e.

Definition res_bind {A B} (f : A → res B) (m : res A) : res B :=
  match m with
  | Ok a => f a
  | Raise e => Raise e
  end.

#[global] Instance res_ret : MRet res := λ A a, Ok a.
#[global] Instance res_mbind : MBind res := λ A B f m, res_bind f m.

(** Truthiness of an optional text ([if s:]) and of an optional integer
    ([bool(n)]): [None], the empty text and [0] are false. *)
Definition truthy_str (o : option string) : bool :=
  match o with
  | Some s => negb (String.eqb s "")
  | None => false
  end.

Definition truthy_int (o : option Z) : bool :=
  match o with
  | Some n => negb (n =? 0)
  | None => false
  end.

(** ** Model parameters (module constants) *)

Definition MIN_GUIDANCE : Z := 1.
Definition MAX_GUIDANCE : Z := 20.
Definition MIN_STEPS : Z := 1.
Definition MAX_STEPS : Z := 50.
Definition MIN_DIM : Z := 256.
Definition MAX_DIM : Z := 14142.

Definition MODELS : list string := ["pro"; "ultra"].

Definition ENDPOINTS : gmap string string :=
  {[ "pro" := "fal-ai/flux-pro/new"; "ultra" := "fal-ai/flux-pro/v1.1-ultra" ]}.

Definition POLL_INTERVAL : Z := 2.

(** ** Argument builder *)

(** [build_base_args]: the two fixed keys, then one key per optional that
    passes its test ([if out_fmt:], [if safety:] are truthiness tests,
    [is not None] for the two flags). *)
Definition build_base_args (prompt : string)
    (out_fmt safety : option string) (safety_check sync : option bool) : dict :=
  let args : dict := {[ "prompt" := JStr prompt; "num_images" := JInt 1 ]} in
  let args :=
    match out_fmt with
    | Some s => if truthy_str out_fmt then <["output_format" := JStr s]> args else args
    | None => args
    end in
  let args :=
    match safety with
    | Some s => if truthy_str safety then <["safety_tolerance" := JStr s]> args else args
    | None => args
    end in
  let args :=
    match safety_check with
    | Some b => <["enable_safety_checker" := JBool b]> args
    | None => args
    end in
  let args :=
    match sync with
    | Some b => <["sync_mode" := JBool b]> args
    | None => args
    end in
  args.

(** [add_ultra_args]: [if ratio:] and [if raw:]. *)
Definition add_ultra_args (args : dict) (ratio : option string) (raw : bool) : dict :=
  let args :=
    match ratio with
    | Some r => if truthy_str ratio then <["aspect_ratio" := JStr r]> args else args
    | None => args
    end in
  let args := if raw then <["raw" := JBool raw]> args else args in
  args.

(** [add_pro_args]: explicit dimensions first, the preset in the [elif]. *)
Definition add_pro_args (args : dict) (size : option string) (w h : option Z)
    (guidance : option PrimFloat.float) (steps : option Z) : dict :=
  let args :=
    match w, h with
    | Some w', Some h' =>
        <["image_size" := JObj {[ "width" := JInt w'; "height" := JInt h' ]}]> args
    | _, _ =>
        match size with
        | Some s => if truthy_str size then <["image_size" := JStr s]> args else args
        | None => args
        end
    end in
  let args :=
    match guidance with
    | Some g => <["guidance_scale" := JFloat g]> args
    | None => args
    end in
  let args :=
    match steps with
    | Some n => <["num_inference_steps" := JInt n]> args
    | None => args
    end in
  args.

(** ** Option validator *)

(** The parsed command line ([argparse.Namespace]); a field that was not
    given on the command line is [None] unless the parser has a default. *)
Module Args.
Record t : Type := mk {
  prompt : option string;
  file : option string;
  model : string;
  n : Z;
  o : option string;
  s : option string;
  no_safety : bool;
  seed : option Z;
  sync : bool;
  od : option string;
  a : option string;
  raw : bool;
  size : option string;
  w : option Z;
  height : option Z;
  g : option PrimFloat.float;
  i : option Z;
  q : string;
  poll : Z
}.
End Args.

(** The messages of the four [ValueError]s of [validate_pro_args]. *)
Definition msg_guidance : string := "guidance must be between 1 and 20".
Definition msg_steps : string := "steps must be between 1 and 50".
Definition msg_pair : string := "Both -w and --height must be provided together".
Definition msg_dims : string := "dimensions must be between 256 and 14142".

(** A small non-negative [int] as a float (exact below 2^53). *)
Definition float_of_int (z : Z) : PrimFloat.float :=
  PrimFloat.of_uint63 (Uint63.of_Z z).

(** [MIN_GUIDANCE <= g <= MAX_GUIDANCE] on a float: both bounds are exact
    as floats, so the mixed comparison is the float comparison. *)
Definition guidance_in_range (g : PrimFloat.float) : bool :=
  PrimFloat.leb (float_of_int MIN_GUIDANCE) g && PrimFloat.leb g (float_of_int MAX_GUIDANCE).

Definition in_range (lo hi x : Z) : bool := (lo <=? x) && (x <=? hi).

Definition validate_pro_args (args : Args.t) : res unit :=
  (match Args.g args with
   | Some g => if negb (guidance_in_range g) then Raise (ValueError msg_guidance) else Ok tt
   | None => Ok tt
   end) ;;
  (match Args.i args with
   | Some n => if negb (in_range MIN_STEPS MAX_STEPS n) then Raise (ValueError msg_steps) else Ok tt
   | None => Ok tt
   end) ;;
  (if negb (eqb (truthy_int (Args.w args)) (truthy_int (Args.height args)))
   then Raise (ValueError msg_pair) else Ok tt) ;;
  (if truthy_int (Args.w args) && truthy_int (Args.height args) then
     match Args.w args, Args.height args with
     | Some w, Some h =>
         if negb (in_range MIN_DIM MAX_DIM w && in_range MIN_DIM MAX_DIM h)
         then Raise (ValueError msg_dims) else Ok tt
     | _, _ => Ok tt
     end
   else Ok tt).

(** The error kinds of the specification, read off the raised message. *)
Inductive error_kind : Type := OutOfRange | MissingPair.

Definition kind_of (e : exn) : option error_kind :=
  match e with
  | ValueError m =>
      if String.eqb m msg_guidance || String.eqb m msg_steps || String.eqb m msg_dims
      then Some OutOfRange
      else if String.eqb m msg_pair then Some MissingPair
      else None
  | _ => None
  end.

Definition fails_with {A} (k : error_kind) (r : res A) : Prop :=
  ∃ e, r = Raise e ∧ kind_of e = Some k.

(** A text option counts as absent when it is [None] or the empty text:
    the payload never holds a null or empty placeholder. *)
Definition absent_text (o : option string) : Prop := o = None ∨ o = Some "".

(** The four tests of [validate_pro_args] as booleans, in source order. *)
Definition guidance_bad (args : Args.t) : bool :=
  match Args.g args with Some g => negb (guidance_in_range g) | None => false end.

Definition steps_bad (args : Args.t) : bool :=
  match Args.i args with Some n => negb (in_range MIN_STEPS MAX_STEPS n) | None => false end.

Definition pair_bad (args : Args.t) : bool :=
  negb (eqb (truthy_int (Args.w args)) (truthy_int (Args.height args))).

Definition dims_bad (args : Args.t) : bool :=
  truthy_int (Args.w args) && truthy_int (Args.height args) &&
  match Args.w args, Args.height args with
  | Some w, Some h => negb (in_range MIN_DIM MAX_DIM w && in_range MIN_DIM MAX_DIM h)
  | _, _ => false
  end.

(** The conditions of the specification's validation rules, in its words. *)
Definition guidance_out (args : Args.t) : Prop :=
  ∃ g, Args.g args = Some g ∧ guidance_in_range g = false.

Definition steps_out (args : Args.t) : Prop :=
  ∃ n, Args.i args = Some n ∧ ¬ (1 ≤ n ≤ 50).

Definition dims_out (args : Args.t) : Prop :=
  ∃ w h, Args.w args = Some w ∧ Args.height args = Some h
         ∧ ¬ (256 ≤ w ≤ 14142 ∧ 256 ≤ h ≤ 14142).

Definition pair_missing (args : Args.t) : Prop :=
  (is_Some (Args.w args) ∧ Args.height args = None)
  ∨ (Args.w args = None ∧ is_Some (Args.height args)).

(** A standard-variant option set that gives only the four validated fields. *)
Definition pro_options (g : option PrimFloat.float) (i w height : option Z) : Args.t :=
  Args.mk (Some "a prompt") None "pro" 1 None None false None false None
          (Some "16:9") false (Some "landscape_16_9") w height g i "subscribe" POLL_INTERVAL.

(** The validation rule as the specification words it: each error kind
    has its own "exactly when", with no order between the rules. *)
Definition validation_as_stated (args : Args.t) : Prop :=
  (fails_with OutOfRange (validate_pro_args args)
     ↔ guidance_out args ∨ steps_out args ∨ dims_out args)
  ∧ (fails_with MissingPair (validate_pro_args args) ↔ pair_missing args)
  ∧ (¬ (guidance_out args ∨ steps_out args ∨ dims_out args) → ¬ pair_missing args →
     validate_pro_args args = Ok tt).

(** Whether any sizing input was given to the standard-variant extender. *)
Definition sizing_input (size : option string) (w h : option Z) : Prop :=
  ¬ absent_text size ∨ is_Some w ∨ is_Some h.

(** ** Text operations used by the file-name derivation *)

(** [s.split(sep)] for a one-character separator: never empty. *)
Fixpoint split (sep : ascii) (s : string) : list string :=
  match s with
  | EmptyString => [EmptyString]
  | String c s' =>
      if Ascii.eqb c sep then EmptyString :: split sep s'
      else match split sep s' with
           | piece :: rest => String c piece :: rest
           | [] => [String c EmptyString]
           end
  end.

(** [l[-1]] and [l[0]] on the pieces of a split. *)
Definition last_piece (l : list string) : string := List.last l EmptyString.
Definition first_piece (l : list string) : string := List.hd EmptyString l.

(** [s[:n]]. *)
Fixpoint slice_to (n : nat) (s : string) : string :=
  match n, s with
  | S n', String c s' => String c (slice_to n' s')
  | _, _ => EmptyString
  end.

(** [s.lower()] on ASCII text (URLs are ASCII). *)
Definition lower_ascii (c : ascii) : ascii :=
  let n := nat_of_ascii c in
  if ((65 <=? n) && (n <=? 90))%nat then ascii_of_nat (n + 32) else c.

Fixpoint lower (s : string) : string :=
  match s with
  | EmptyString => EmptyString
  | String c s' => String (lower_ascii c) (lower s')
  end.

Fixpoint contains (c : ascii) (s : string) : bool :=
  match s with
  | EmptyString => false
  | String a s' => Ascii.eqb a c || contains c s'
  end.

Definition starts_with (c : ascii) (s : string) : bool :=
  match s with
  | String a _ => Ascii.eqb a c
  | EmptyString => false
  end.

Fixpoint ends_with (c : ascii) (s : string) : bool :=
  match s with
  | EmptyString => false
  | String a EmptyString => Ascii.eqb a c
  | String _ s' => ends_with c s'
  end.

(** [os.path.join(a, b)] (POSIX): an absolute [b] wins; otherwise one
    separator stands between the parts. *)
Definition path_join (a b : string) : string :=
  if starts_with "/" b then b
  else if String.eqb a "" || ends_with "/" a then a +:+ b
  else a +:+ "/" +:+ b.

(** ** Media downloader: the file name of a media URL
    (lines 129-132 of [save_generated_images]). *)
Definition flux_id (url : string) : string :=
  slice_to 8 (first_piece (split "_" (last_piece (split "/" url)))).

Definition ext (url : string) : string :=
  lower (last_piece (split "." url)).

Definition fname (out_dir url : string) : string :=
  path_join out_dir (flux_id url +:+ "." +:+ ext url).

(** The same notions in the specification's words: the text before the
    first occurrence of a character, and the text after its last one
    (the whole text when the character does not occur). *)
Fixpoint before_first (c : ascii) (s : string) : string :=
  match s with
  | EmptyString => EmptyString
  | String a s' => if Ascii.eqb a c then EmptyString else String a (before_first c s')
  end.

Fixpoint after_last (c : ascii) (s : string) : string :=
  match s with
  | EmptyString => EmptyString
  | String a s' =>
      if contains c s' then after_last c s'
      else if Ascii.eqb a c then s' else s
  end.

(** The URL's final path segment, the identifier of the specification, and
    the URL's file extension: what follows the last dot of the final path
    segment (nothing when that segment has no dot). *)
Definition final_segment (url : string) : string := after_last "/" url.

Definition spec_id (url : string) : string :=
  slice_to 8 (before_first "_" (final_segment url)).

Definition file_extension (url : string) : string :=
  if contains "." (final_segment url) then after_last "." (final_segment url)
  else EmptyString.


(** ** The world: the file store and what the program did to it *)

Inductive event : Type :=
  | EvMakedirs (path : string)
  | EvGet (url : string)
  | EvWrite (path data : string)
  | EvRemove (path : string)
  | EvPrintRemoved (path : string)
  | EvPrintError (e : exn)
  | EvPrintFailed (failed : nat)
  | EvPrintCompleted (out_dir : string).

(** Regular files by path, and the trace of effects, oldest first.  The
    trace of a world with a past starts with that past: the directories
    that exist are those its [makedirs] have created. *)
Record world : Type := World {
  files : gmap string string;
  trace : list event
}.

(** Stateful code: it may raise, and it leaves a world behind either way. *)
Definition M (A : Type) : Type := world → res A * world.

#[global] Instance M_ret : MRet M := λ A a w, (Ok a, w).
#[global] Instance M_bind : MBind M := λ A B f m w,
  match m w with
  | (Ok a, w') => f a w'
  | (Raise e, w') => (Raise e, w')
  end.

Definition lift {A} (r : res A) : M A := λ w, (r, w).

Definition emit (e : event) : M unit :=
  λ w, (Ok tt, World (files w) (trace w ++ [e])).

(** [os.makedirs(path, exist_ok=True)]. *)
Definition makedirs (path : string) : M unit := emit (EvMakedirs path).

(** [f.write(data)] on a file opened for writing: one write that replaces
    the content.  The directory of the path is taken to be there; the open
    that checks it is [open_wb]. *)
Definition write_file (path data : string) : M unit :=
  λ w, (Ok tt, World (<[path := data]> (files w)) (trace w ++ [EvWrite path data])).

(** [os.path.getsize] and [os.remove]: both raise on a path that is no
    file of the store. *)
Definition getsize (path : string) : M nat :=
  λ w, match files w !! path with
       | Some data => (Ok (String.length data), w)
       | None => (Raise (OSError path), w)
       end.

Definition remove (path : string) : M unit :=
  λ w, match files w !! path with
       | Some _ => (Ok tt, World (delete path (files w)) (trace w ++ [EvRemove path]))
       | None => (Raise (OSError path), w)
       end.

(** ** Directories *)

(** The directories created in a trace, oldest first. *)
Definition made (t : list event) : list string :=
  omap (λ e, match e with EvMakedirs path => Some path | _ => None end) t.

(** [os.makedirs(m)] has created [d]: [d] is [m] or lies above it. *)
Definition covers (m d : string) : bool :=
  String.prefix (path_join d "") (path_join m "").

(** The directory part of a path: the text before its last separator
    (for a path right under the root the root itself, which exists as the
    working directory does, and is written the same here). *)
Fixpoint dirname (path : string) : string :=
  match path with
  | EmptyString => EmptyString
  | String c rest => if contains "/" rest then String c (dirname rest) else EmptyString
  end.

(** The directories that exist: the working directory, and those a
    [makedirs] of the trace has created (the trace of a world starts with
    the history of its store). *)
Definition dir_exists (w : world) (d : string) : bool :=
  String.eqb d "" || existsb (λ m, covers m d) (made (trace w)).

(** A path that names a directory, or nothing a file can be: its last
    component is empty, [.] or [..], or it is a directory that exists. *)
Definition names_dir (w : world) (path : string) : bool :=
  String.eqb (after_last "/" path) "" || String.eqb (after_last "/" path) "."
  || String.eqb (after_last "/" path) ".."
  || existsb (λ m, covers m path) (made (trace w)).

(** Whether [open(path, 'wb')] goes through: the directory of the path
    exists and the path is no directory itself. *)
Definition can_open (w : world) (path : string) : bool :=
  dir_exists w (dirname path) && negb (names_dir w path).

(** [open(path, 'wb')]: it creates the file, or empties the one that is
    there; it raises ([FileNotFoundError] or [IsADirectoryError], both an
    [OSError]) when the file cannot be opened. *)
Definition open_wb (path : string) : M unit :=
  λ w, if can_open w path
       then (Ok tt, World (<[path := ""]> (files w)) (trace w))
       else (Raise (OSError path), w).

(** ** Python's dynamic operations on JSON-shaped values *)

(** [for x in v]. *)
Definition py_iter (v : json) : res (list json) :=
  match v with
  | JArr l => Ok l
  | JStr s => Ok ((λ c, JStr (String c EmptyString)) <$> String.list_ascii_of_string s)
  | JObj m => Ok (JStr <$> (map_to_list m).*1)
  | _ => Raise (TypeError "object is not iterable")
  end.

(** [v[key]] for a text key. *)
Definition py_getitem (v : json) (key : string) : res json :=
  match v with
  | JObj m =>
      match m !! key with
      | Some x => Ok x
      | None => Raise (KeyError key)
      end
  | JArr _ => Raise (TypeError "list indices must be integers or slices, not str")
  | JStr _ => Raise (TypeError "string indices must be integers")
  | _ => Raise (TypeError "object is not subscriptable")
  end.

(** The receiver of [url.split(...)]: only a text has the method. *)
Definition py_text (v : json) : res string :=
  match v with
  | JStr s => Ok s
  | _ => Raise (AttributeError "object has no attribute 'split'")
  end.

(** ** Media downloader *)

(** The remote side of the downloads.  [respond url] is what a GET of
    [url] meets: a transport failure, or a status and what reading the
    body gives (the read can fail too).  [resume pairs] is the order in
    which the event loop resumes the downloads of one gather: each entry
    picks, among the downloads still pending, the one that runs up to its
    next await (read modulo their number). *)
Record http : Type := Http {
  respond : string → res (Z * res string);
  resume : list (string * string) → list nat
}.

(** [download_image]: the file is opened before the body is read. *)
Definition download_image (get : http) (url fname : string) : M (option string) :=
  emit (EvGet url) ;;
  '(status, body) ← lift (respond get url);
  if status =? 200 then
    open_wb fname ;;
    data ← lift body;
    write_file fname data ;;
    mret (Some fname)
  else mret None.

(** Where a download stands: [download_image] cut at its awaits. *)
Inductive download_state : Type :=
  | Requesting
  | Opening (body : res string)
  | Reading (body : res string)
  | Writing (data : string)
  | Downloaded (outcome : option string).

(** A download up to its next await. *)
Definition download_step (get : http) (url fname : string) (st : download_state)
    : M download_state :=
  match st with
  | Requesting =>
      emit (EvGet url) ;;
      '(status, body) ← lift (respond get url);
      mret (if status =? 200 then Opening body else Downloaded None)
  | Opening body => open_wb fname ;; mret (Reading body)
  | Reading body => data ← lift body; mret (Writing data)
  | Writing data => write_file fname data ;; mret (Downloaded (Some fname))
  | Downloaded outcome => mret (Downloaded outcome)
  end.

Abbreviation download := ((string * string) * download_state)%type.

Definition steps_left (st : download_state) : nat :=
  match st with
  | Requesting => 4
  | Opening _ => 3
  | Reading _ => 2
  | Writing _ => 1
  | Downloaded _ => 0
  end.

Definition steps_total (tasks : list download) : nat :=
  sum_list ((λ t : download, steps_left t.2) <$> tasks).

(** The downloads still pending, each with its position. *)
Definition pending (tasks : list download) : list (nat * download) :=
  filter (λ it : nat * download, steps_left it.2.2 ≠ 0%nat) (imap (λ i t, (i, t)) tasks).

Definition outcome_now (t : download) : option string :=
  match t.2 with
  | Downloaded outcome => outcome
  | _ => None
  end.

(** The downloads that go on after their gather has raised: the event
    loop resumes them for as long as [sched] lasts, the exception of one
    that fails reaching nobody, and cancels those still pending when the
    loop is closed.  Their steps are placed here, before the caller goes
    on; they touch their own files only. *)
Fixpoint linger (get : http) (sched : list nat) (tasks : list download) (w : world)
    : world :=
  match sched with
  | [] => w
  | n :: sched' =>
      let waiting := pending tasks in
      match waiting !! (n `mod` length waiting)%nat with
      | Some (i, (url, fname, st)) =>
          match download_step get url fname st w with
          | (Ok st', w') => linger get sched' (<[i := (url, fname, st')]> tasks) w'
          | (Raise _, w') =>
              linger get sched' (<[i := (url, fname, Downloaded None)]> tasks) w'
          end
      | None => w
      end
  end.

(** [asyncio.gather] over the downloads.  The downloads interleave at
    their awaits, in the order [sched] gives; the first exception is raised
    to the caller, the other downloads not being waited for (they go on
    until the loop cancels them); when none is pending the outcomes come
    back in the order of the downloads.  [fuel] counts the steps the
    downloads have left, so it does not run out while one is pending. *)
Fixpoint gather_steps (get : http) (fuel : nat) (sched : list nat) (tasks : list download)
    : M (list (option string)) :=
  λ w,
  let waiting := pending tasks in
  match waiting !! (hd 0%nat sched `mod` length waiting)%nat, fuel with
  | Some (i, (url, fname, st)), S fuel' =>
      match download_step get url fname st w with
      | (Ok st', w') =>
          gather_steps get fuel' (tl sched) (<[i := (url, fname, st')]> tasks) w'
      | (Raise e, w') =>
          (Raise e, linger get (tl sched) (<[i := (url, fname, Downloaded None)]> tasks) w')
      end
  | _, _ => (Ok (outcome_now <$> tasks), w)
  end.

Definition gather (get : http) (sched : list nat) (tasks : list download)
    : M (list (option string)) :=
  gather_steps get (steps_total tasks) sched tasks.

Definition download_all_images (get : http) (urls_and_files : list (string * string))
    : M (list (option string)) :=
  gather get (resume get urls_and_files) ((λ p, (p, Requesting)) <$> urls_and_files).

(** The body of the [for img in result["images"]] loop. *)
Definition url_and_file (out_dir : string) (img : json) : res (string * string) :=
  url ← py_getitem img "url" ≫= py_text;
  Ok (url, fname out_dir url).

Fixpoint for_each {A B} (f : A → res B) (l : list A) : res (list B) :=
  match l with
  | [] => Ok []
  | x :: l' => y ← f x; ys ← for_each f l'; Ok (y :: ys)
  end.

Definition save_generated_images (get : http) (result : option dict) (out_dir : string)
    : M (option string) :=
  match result with
  | None => mret None
  | Some r =>
      if (size r =? 0)%nat then mret None
      else match r !! "images" with
           | None => mret None
           | Some images =>
               makedirs out_dir ;;
               urls_and_files ← lift (py_iter images ≫= for_each (url_and_file out_dir));
               downloaded ← download_all_images get urls_and_files;
               mret (match downloaded with
                     | first :: _ => first
                     | [] => None
                     end)
           end
  end.

(** What one download yields when it runs to its end, read off the
    response alone. *)
Definition fetch_outcome (get : http) (p : string * string) : option string :=
  match respond get p.1 with
  | Ok (status, _) => if status =? 200 then Some p.2 else None
  | Raise _ => None
  end.

(** The exception a download ends with, if any: that of the transport;
    for a status of 200, that of opening a file that cannot be opened, or
    that of reading the body. *)
Definition failure (get : http) (w : world) (p : string * string) : option exn :=
  match respond get p.1 with
  | Raise e => Some e
  | Ok (status, body) =>
      if status =? 200 then
        if can_open w p.2
        then match body with Raise e => Some e | Ok _ => None end
        else Some (OSError p.2)
      else None
  end.

(** The same from where a download stands. *)
Definition failure_from (get : http) (w : world) (t : download) : option exn :=
  match t.2 with
  | Requesting => failure get w t.1
  | Opening body =>
      if can_open w t.1.2
      then match body with Raise e => Some e | Ok _ => None end
      else Some (OSError t.1.2)
  | Reading body => match body with Raise e => Some e | Ok _ => None end
  | Writing _ | Downloaded _ => None
  end.

Definition final (get : http) (t : download) : option string :=
  match t.2 with
  | Requesting => fetch_outcome get t.1
  | Opening _ | Reading _ | Writing _ => Some t.1.2
  | Downloaded outcome => outcome
  end.

(** Whether a download can still touch its file. *)
Definition may_write (get : http) (t : download) : bool :=
  match t.2 with
  | Requesting =>
      match respond get t.1.1 with
      | Ok (status, _) => status =? 200
      | Raise _ => false
      end
  | Opening _ | Reading _ | Writing _ => true
  | Downloaded _ => false
  end.

(** What the file of a download holds once the download has run to its
    end, [now] being what it holds now. *)
Definition content_after (get : http) (t : download) (now : option string)
    : option string :=
  match t.2 with
  | Requesting =>
      match respond get t.1.1 with
      | Ok (status, Ok data) => if status =? 200 then Some data else now
      | _ => now
      end
  | Opening (Ok data) | Reading (Ok data) | Writing data => Some data
  | _ => now
  end.

Definition is_io (e : event) : bool :=
  match e with
  | EvGet _ | EvWrite _ _ => true
  | _ => false
  end.

(** [w'] comes from [w] by requests and writes only. *)
Definition extends_io (w w' : world) : Prop :=
  ∃ t, trace w' = trace w ++ t ∧ Forall (λ e, is_io e = true) t.

(** A download that can run to its end: the fetch gets a response, and
    when the status is 200 the destination can be opened and the body can
    be read. *)
Definition fetchable (get : http) (w : world) (p : string * string) : Prop :=
  ∃ status body, respond get p.1 = Ok (status, body)
    ∧ (status = 200 → can_open w p.2 = true ∧ ∃ data, body = Ok data).

Definition download_fails (get : http) (w : world) (p : string * string) : bool :=
  match failure get w p with
  | Some _ => true
  | None => false
  end.

(** Whether saving the media of a record raises: the media cannot be
    read, or one of the downloads fails once the output directory is
    there. *)
Definition save_fails (get : http) (out_dir : string) (w : world) (data : dict) : bool :=
  if (size data =? 0)%nat then false
  else match data !! "images" with
       | None => false
       | Some images =>
           match py_iter images ≫= for_each (url_and_file out_dir) with
           | Raise _ => true
           | Ok pairs =>
               existsb (download_fails get (World (files w)
                                              (trace w ++ [EvMakedirs out_dir]))) pairs
           end
       end.

(** A successful HTTP status in the usual sense: the 2xx class. *)
Definition success_status (status : Z) : Prop := 200 ≤ status < 300.

(** A single fetch as the specification states it. *)
Definition fetch_as_stated (get : http) (url path : string) (w : world) : Prop :=
  ∀ status body, respond get url = Ok (status, body) →
    (success_status status → (download_image get url path w).1 = Ok (Some path))
    ∧ (¬ success_status status → (download_image get url path w).1 = Ok None).

(** The first path among the outcomes of a result's downloads. *)
Fixpoint first_written (outcomes : list (option string)) : option string :=
  match outcomes with
  | [] => None
  | Some path :: _ => Some path
  | None :: rest => first_written rest
  end.

(** Sample data: a service that has no content for one URL and answers
    another with 204, an event loop that resumes the second download
    first, an empty world, and a world whose directory "out" is there. *)
Definition sample_get : http := {|
  respond := λ url,
    if String.eqb url "https://cdn.example/m/aaaaaaaa1111_0.png" then Ok (404, Ok "")
    else if String.eqb url "https://cdn.example/m/cccccccc3333_2.png" then Ok (204, Ok "")
    else Ok (200, Ok ("PNG:" +:+ url));
  resume := λ _, [1; 0; 2; 1]%nat
|}.

Definition empty_world : world := World ∅ [].

Definition out_world : world := World ∅ [EvMakedirs "out"].

Definition sample_result : dict :=
  {[ "images" := JArr [ JObj {[ "url" := JStr "https://cdn.example/m/aaaaaaaa1111_0.png" ]};
                        JObj {[ "url" := JStr "https://cdn.example/m/bbbbbbbb2222_1.png" ]} ];
     "seed" := JInt 7 ]}.

(** ** Request dispatcher *)

(** The client library of the remote service, as one request sees it.
    [status_async] takes the number of the status query (0 for the first):
    the service may answer each query differently. *)
Record FalClient : Type := {
  run_async : string → dict → res dict;
  subscribe_async : string → dict → res dict;
  submit_async : string → dict → res string;
  status_async : string → string → nat → res dict;
  result_async : string → string → res dict
}.

(** What a request does on the network, oldest first. *)
Inductive net_event : Type :=
  | NetRun (endpoint : string) (args : dict)
  | NetSubscribe (endpoint : string) (args : dict)
  | NetSubmit (endpoint : string) (args : dict)
  | NetStatus (endpoint request_id : string)
  | NetSleep (seconds : Z)
  | NetResult (endpoint request_id : string).

(** [status["status"] == "COMPLETED"]. *)
Definition completed (status : json) : bool :=
  match status with
  | JStr s => String.eqb s "COMPLETED"
  | _ => false
  end.

(** The [while True] loop of [submit_request], from status query [k] on.
    The loop has no exit but completion or an exception, so it runs on
    fuel: [None] says the fuel ran out with the loop still polling. *)
Fixpoint poll_loop (fal : FalClient) (endpoint request_id : string) (poll : Z)
    (fuel k : nat) : option (res dict) * list net_event :=
  match fuel with
  | O => (None, [])
  | S fuel' =>
      match status_async fal endpoint request_id k with
      | Raise e => (Some (Raise e), [NetStatus endpoint request_id])
      | Ok status =>
          match status !! "status" with
          | None => (Some (Raise (KeyError "status")), [NetStatus endpoint request_id])
          | Some s =>
              if completed s then
                (Some (result_async fal endpoint request_id),
                 [NetStatus endpoint request_id; NetResult endpoint request_id])
              else
                let '(r, t) := poll_loop fal endpoint request_id poll fuel' (S k) in
                (r, NetStatus endpoint request_id :: NetSleep poll :: t)
          end
      end
  end.

Definition submit_request (fal : FalClient) (endpoint : string) (args : dict) (poll : Z)
    (fuel : nat) : option (res dict) * list net_event :=
  match submit_async fal endpoint args with
  | Raise e => (Some (Raise e), [NetSubmit endpoint args])
  | Ok request_id =>
      let '(r, t) := poll_loop fal endpoint request_id poll fuel 0 in
      (r, NetSubmit endpoint args :: t)
  end.

Definition run_request (fal : FalClient) (model : string) (args : dict) : res dict :=
  run_async fal model args.

(** [process_single_image].  The service answers a subscription with the
    final record (a [dict]), so the [InProgress] branch is not taken. *)
Definition process_single_image (fal : FalClient) (endpoint : string) (args : dict)
    (mode : string) (poll : Z) (fuel : nat) : option (res dict) * list net_event :=
  if String.eqb mode "subscribe" then
    (Some (subscribe_async fal endpoint args), [NetSubscribe endpoint args])
  else if String.eqb mode "submit" then
    submit_request fal endpoint args poll fuel
  else
    (Some (run_request fal endpoint args), [NetRun endpoint args]).

(** Status query [k] reports completion / reports a status that is not
    completion. *)
Definition reports_completion (fal : FalClient) (endpoint request_id : string) (k : nat)
    : Prop :=
  ∃ status s, status_async fal endpoint request_id k = Ok status
              ∧ status !! "status" = Some s ∧ completed s = true.

Definition still_pending (fal : FalClient) (endpoint request_id : string) (k : nat)
    : Prop :=
  ∃ status s, status_async fal endpoint request_id k = Ok status
              ∧ status !! "status" = Some s ∧ completed s = false.

(** [n] unsuccessful status checks, each followed by a sleep. *)
Definition polls (endpoint request_id : string) (poll : Z) (n : nat) : list net_event :=
  concat (replicate n [NetStatus endpoint request_id; NetSleep poll]).

(** Sample service: queued twice, completed at the third status query. *)
Definition sample_fal : FalClient := {|
  run_async := λ _ _, Ok sample_result;
  subscribe_async := λ _ _, Ok sample_result;
  submit_async := λ _ _, Ok "req-1";
  status_async := λ _ _ k,
    Ok {[ "status" := JStr (if (k <? 2)%nat then "IN_QUEUE" else "COMPLETED") ]};
  result_async := λ _ _, Ok sample_result
|}.

(** ** Batch orchestrator *)

(** The payload of request [i]: a copy of the base payload, with the
    derived seed when a seed was supplied. *)
Definition task_args (base_args : dict) (seed : option Z) (i : nat) : dict :=
  match seed with
  | Some s => <["seed" := JInt (s + Z.of_nat i)]> base_args
  | None => base_args
  end.

(** The payloads of [for i in range(count)]. *)
Definition batch_payloads (base_args : dict) (seed : option Z) (count : Z) : list dict :=
  task_args base_args seed <$> seq 0 (Z.to_nat count).

(** [asyncio.as_completed]: the settled tasks in the order in which they
    finish.  The order is the scheduler's: [picks] says, step by step, which
    of the tasks still pending finishes next (read modulo their number). *)
Fixpoint as_completed {A} (picks : list nat) (pending : list A) (n : nat) : list A :=
  match n with
  | O => []
  | S n' =>
      let k := (hd 0%nat picks `mod` length pending)%nat in
      match pending !! k with
      | Some x => x :: as_completed (tl picks) (delete k pending) n'
      | None => []
      end
  end.

(** The body of the [try]: await the request, save its media when an output
    directory is given, and hand the record on. *)
Definition try_body (get : http) (out_dir : string) (outcome : res dict) : M dict :=
  data ← lift outcome;
  (if negb (String.eqb out_dir "")
   then save_generated_images get (Some data) out_dir ;; mret tt
   else mret tt) ;;
  mret data.

(** The [for result in as_completed(tasks)] loop with its [except]. *)
Fixpoint collect (get : http) (out_dir : string) (completed : list (res dict))
    (results : list dict) (failed : nat) (w : world) : list dict * nat * world :=
  match completed with
  | [] => (results, failed, w)
  | outcome :: rest =>
      match try_body get out_dir outcome w with
      | (Ok data, w1) => collect get out_dir rest (results ++ [data]) failed w1
      | (Raise e, w1) =>
          collect get out_dir rest results (S failed)
                  (World (files w1) (trace w1 ++ [EvPrintError e]))
      end
  end.

(** The base payload of a batch, by model. *)
Definition batch_base_args (prompt model : string) (ratio : option string)
    (raw : option bool) (size : option string) (w h : option Z)
    (guidance : option PrimFloat.float) (steps : option Z)
    (out_fmt safety : option string) (safety_check sync : option bool) : dict :=
  let base_args := build_base_args prompt out_fmt safety safety_check sync in
  if String.eqb model "ultra"
  then add_ultra_args base_args ratio (default false raw)
  else add_pro_args base_args size w h guidance steps.

(** [generate_images].  [fal i] is the service as request [i] sees it.  The
    outcome is [None] when a request never settles (within the fuel): the
    loop then waits for it forever, after handling the settled ones. *)
Definition generate_images (fal : nat → FalClient) (get : http) (fuel : nat)
    (picks : list nat)
    (prompt : string) (count : Z) (out_dir model : string)
    (ratio : option string) (raw : option bool) (size : option string)
    (w h : option Z) (guidance : option PrimFloat.float) (steps : option Z)
    (out_fmt safety : option string) (safety_check : option bool)
    (seed : option Z) (sync : option bool) (mode : string)
    : world → option (res (list dict)) * world :=
  λ w0,
  match ENDPOINTS !! model with
  | None => (Some (Raise (KeyError model)), w0)
  | Some endpoint =>
      let base_args :=
        batch_base_args prompt model ratio raw size w h guidance steps
                        out_fmt safety safety_check sync in
      let tasks :=
        imap (λ i task_args,
                (process_single_image (fal i) endpoint task_args mode POLL_INTERVAL fuel).1)
             (batch_payloads base_args seed count) in
      let settled := omap id tasks in
      let '(results, failed, w1) :=
        collect get out_dir (as_completed picks settled (length settled)) [] 0%nat w0 in
      if (length settled <? length tasks)%nat then (None, w1)
      else if (failed =? 0)%nat then (Some (Ok results), w1)
      else (Some (Ok results), World (files w1) (trace w1 ++ [EvPrintFailed failed]))
  end.

(** The records among the outcomes, in order. *)
Definition successes (outcomes : list (res dict)) : list dict :=
  omap (λ r, match r with Ok d => Some d | Raise _ => None end) outcomes.

(** What the program printed: the error and summary lines of a trace. *)
Definition is_report (e : event) : bool :=
  match e with
  | EvPrintError _ | EvPrintFailed _ => true
  | _ => false
  end.

Definition reports (t : list event) : list event := List.filter is_report t.

(** Sample batch: the second of three requests fails. *)
Definition failing_fal : FalClient := {|
  run_async := λ _ _, Raise (ClientError "service unavailable");
  subscribe_async := λ _ _, Raise (ClientError "service unavailable");
  submit_async := λ _ _, Raise (ClientError "service unavailable");
  status_async := λ _ _ _, Raise (ClientError "service unavailable");
  result_async := λ _ _, Raise (ClientError "service unavailable")
|}.

Definition sample_fals (i : nat) : FalClient :=
  if (i =? 1)%nat then failing_fal else sample_fal.

(** ** Run finalizer *)

(** [path] lies below the directory [top]: it is [top], a separator, and a
    non-empty rest. *)
Definition under (top path : string) : bool :=
  String.prefix (path_join top "") path
  && (String.length (path_join top "") <? String.length path)%nat.

(** The files [os.walk(top)] reports, each as [os.path.join(root, file)]:
    the files of the store below [top] (none for an empty [top]). *)
Definition walk (w : world) (top : string) : list string :=
  if String.eqb top "" then []
  else filter (λ path, under top path) (map_to_list (files w)).*1.

(** The two nested [for] loops of [cleanup] over the walked files. *)
Fixpoint remove_empty (paths : list string) : M unit :=
  match paths with
  | [] => mret tt
  | path :: rest =>
      size ← getsize path;
      (if (size =? 0)%nat then remove path ;; emit (EvPrintRemoved path) else mret tt) ;;
      remove_empty rest
  end.

(** [cleanup].  [json_dumps] is [json.dumps(_, indent=4)] of the JSON
    library.  The metadata file is written where it is: in a run the
    output directory is there, [setup_output_dir] having created it, and
    the open of the file is not followed as one that can fail. *)
Definition cleanup (json_dumps : list dict → string) (results : list dict)
    (out_dir : string) : M unit :=
  write_file (path_join out_dir "metadata.json") (json_dumps results) ;;
  ((λ w, remove_empty (walk w out_dir) w) : M unit).

Definition is_write (e : event) : bool :=
  match e with
  | EvWrite _ _ => true
  | _ => false
  end.

(** Sample store and a small JSON codec for record lists without records. *)
Definition sample_store : world :=
  World {[ "out/aaaaaaaa.png" := ""; "out/bbbbbbbb.png" := "PNG";
           "out/sub/cccccccc.png" := ""; "elsewhere/empty" := "" ]} [].

Definition sample_dumps (results : list dict) : string :=
  match results with
  | [] => "[]"
  | _ :: _ => "[...]"
  end.

Definition sample_loads (text : string) : option (list dict) :=
  if String.eqb text "[]" then Some [] else None.

Definition sample_outcome (i : nat) : res dict :=
  if (i =? 1)%nat then Raise (ClientError "service unavailable") else Ok sample_result.

(** The record a completed request contributes to the results: none when
    the request failed, and none when saving its media raises (the save is
    inside the [try]); without an output directory nothing is saved.
    [w0] is the world the batch starts in: the directories that exist are
    its directories and, once a save has run, the output directory. *)
Definition kept (get : http) (out_dir : string) (w0 : world) (outcome : res dict)
    : option dict :=
  match outcome with
  | Ok data =>
      if String.eqb out_dir "" then Some data
      else if save_fails get out_dir w0 data then None
      else Some data
  | Raise _ => None
  end.

(** [w] has the directories of [w0], up to the output directory. *)
Definition same_dirs (out_dir : string) (w0 w : world) : Prop :=
  ∀ d, existsb (λ m, covers m d) (made (trace w) ++ [out_dir])
       = existsb (λ m, covers m d) (made (trace w0) ++ [out_dir]).

(** Sample downloads: the connection to the media host fails. *)
Definition offline_get : http := {|
  respond := λ _, Raise (ClientError "cannot connect to host");
  resume := λ _, []
|}.

(** ** One run: generation, then the finalizer *)

(** The call of [generate_images] in [process_generation]: its keyword
    arguments are built from the parsed command line ([if args.o:],
    [if args.s:], ... are truthiness tests); neither [args.poll] nor
    [args.no_safety] is among them. *)
Definition generate_from_args (fal : nat → FalClient) (get : http) (fuel : nat)
    (picks : list nat) (args : Args.t) (prompt out_dir : string)
    : world → option (res (list dict)) * world :=
  let ultra := String.eqb (Args.model args) "ultra" in
  let out_fmt := if truthy_str (Args.o args) then Args.o args else None in
  let safety := if truthy_str (Args.s args) then Args.s args else None in
  let ratio := if ultra && truthy_str (Args.a args) then Args.a args else None in
  let raw := if ultra && Args.raw args then Some true else None in
  let dims := negb ultra && truthy_int (Args.w args) && truthy_int (Args.height args) in
  let w := if dims then Args.w args else None in
  let h := if dims then Args.height args else None in
  let size :=
    if negb ultra && negb dims && truthy_str (Args.size args) then Args.size args
    else None in
  let guidance := if ultra then None else Args.g args in
  let steps := if ultra then None else Args.i args in
  generate_images fal get fuel picks prompt (Args.n args) out_dir (Args.model args)
    ratio raw size w h guidance steps out_fmt safety None (Args.seed args)
    (Some (Args.sync args)) (Args.q args).

(** [process_generation]: generate, then finalize with the returned list.
    The outcome is [None] when the batch never finishes. *)
Definition process_generation (fal : nat → FalClient) (get : http) (fuel : nat)
    (picks : list nat) (json_dumps : list dict → string)
    (args : Args.t) (prompt out_dir : string)
    : world → option (res unit) * world :=
  λ w0,
  match generate_from_args fal get fuel picks args prompt out_dir w0 with
  | (None, w1) => (None, w1)
  | (Some (Raise e), w1) => (Some (Raise e), w1)
  | (Some (Ok results), w1) =>
      let '(r, w2) :=
        (cleanup json_dumps results out_dir ;; emit (EvPrintCompleted out_dir)) w1 in
      (Some r, w2)
  end.

(** The command line with other values for [--poll] and [--no-safety]. *)
Definition with_poll_and_safety (args : Args.t) (poll : Z) (no_safety : bool) : Args.t :=
  Args.mk (Args.prompt args) (Args.file args) (Args.model args) (Args.n args)
          (Args.o args) (Args.s args) no_safety (Args.seed args) (Args.sync args)
          (Args.od args) (Args.a args) (Args.raw args) (Args.size args) (Args.w args)
          (Args.height args) (Args.g args) (Args.i args) (Args.q args) poll.

(** ** Key sets of the payloads *)

Definition base_keys : gset string :=
  {[ "prompt"; "num_images"; "output_format"; "safety_tolerance";
     "enable_safety_checker"; "sync_mode" ]}.

Definition ultra_keys : gset string := {[ "aspect_ratio"; "raw" ]}.

Definition pro_keys : gset string :=
  {[ "image_size"; "guidance_scale"; "num_inference_steps" ]}.

(** ** Failing status queries *)

(** Status query [k] fails with [e]: the call raises [e], or its answer has
    no ["status"] key and the subscript raises the [KeyError]. *)
Definition status_fails (fal : FalClient) (endpoint request_id : string) (k : nat)
    (e : exn) : Prop :=
  status_async fal endpoint request_id k = Raise e
  ∨ (∃ status, status_async fal endpoint request_id k = Ok status
               ∧ status !! "status" = None ∧ e = KeyError "status").

(** Sample service: queued once, then the status query fails. *)
Definition broken_status_fal : FalClient := {|
  run_async := λ _ _, Ok sample_result;
  subscribe_async := λ _ _, Ok sample_result;
  submit_async := λ _ _, Ok "req-2";
  status_async := λ _ _ k,
    if (k <? 1)%nat then Ok {[ "status" := JStr "IN_QUEUE" ]}
    else Ok {[ "state" := JStr "COMPLETED" ]};
  result_async := λ _ _, Ok sample_result
|}.

(** ** Reading a trace *)

(** The URLs requested in a trace, oldest first. *)
Definition requested (t : list event) : list string :=
  omap (λ e, match e with EvGet url => Some url | _ => None end) t.

(** The file writes of a trace, oldest first. *)
Definition written (t : list event) : list (string * string) :=
  omap (λ e, match e with EvWrite path data => Some (path, data) | _ => None end) t.

(** The write a fetch makes: the body to the destination when the status
    is 200. *)
Definition fetch_write (get : http) (p : string * string) : option (string * string) :=
  match respond get p.1 with
  | Ok (status, Ok data) => if status =? 200 then Some (p.2, data) else None
  | _ => None
  end.

(** What a download has still to request and to write, from where it
    stands. *)
Definition to_request (t : download) : list string :=
  match t.2 with
  | Requesting => [t.1.1]
  | _ => []
  end.

Definition to_write (get : http) (t : download) : list (string * string) :=
  match t.2 with
  | Requesting => option_list (fetch_write get t.1)
  | Opening (Ok data) | Reading (Ok data) | Writing data => [(t.1.2, data)]
  | _ => []
  end.

(** Sample service: accepted, and reported as in progress for ever. *)
Definition pending_fal : FalClient := {|
  run_async := λ _ _, Ok sample_result;
  subscribe_async := λ _ _, Ok sample_result;
  submit_async := λ _ _, Ok "req-3";
  status_async := λ _ _ _, Ok {[ "status" := JStr "IN_PROGRESS" ]};
  result_async := λ _ _, Ok sample_result
|}.

Definition stuck_fals (i : nat) : FalClient :=
  if (i =? 1)%nat then pending_fal else sample_fal.

(** ** Reading the sweep of the finalizer *)

(** What the sweep does for each file it removes: the removal, then the
    printed line. *)
Definition removals (paths : list string) : list event :=
  concat ((λ path, [EvRemove path; EvPrintRemoved path]) <$> paths).

(** The files among [paths] that are empty in the store of [w]. *)
Definition empty_among (w : world) (paths : list string) : list string :=
  filter (λ path, files w !! path = Some "") paths.

(** ** The payload of a run *)

(** The base payload of the requests of one run: the keyword arguments
    [process_generation] builds from the parsed command line, handed to
    the argument builder and the extender of [generate_images]. *)
Definition run_base_args (args : Args.t) (prompt : string) : dict :=
  let ultra := String.eqb (Args.model args) "ultra" in
  let out_fmt := if truthy_str (Args.o args) then Args.o args else None in
  let safety := if truthy_str (Args.s args) then Args.s args else None in
  let ratio := if ultra && truthy_str (Args.a args) then Args.a args else None in
  let raw := if ultra && Args.raw args then Some true else None in
  let dims := negb ultra && truthy_int (Args.w args) && truthy_int (Args.height args) in
  let w := if dims then Args.w args else None in
  let h := if dims then Args.height args else None in
  let size :=
    if negb ultra && negb dims && truthy_str (Args.size args) then Args.size args
    else None in
  let guidance := if ultra then None else Args.g args in
  let steps := if ultra then None else Args.i args in
  batch_base_args prompt (Args.model args) ratio raw size w h guidance steps
                  out_fmt safety None (Some (Args.sync args)).

(** Request [i] of a run, as [generate_images] issues it. *)
Definition run_request_outcome (fal : nat → FalClient) (fuel : nat) (args : Args.t)
    (prompt endpoint : string) (i : nat) : option (res dict) :=
  (process_single_image (fal i) endpoint
     (task_args (run_base_args args prompt) (Args.seed args) i)
     (Args.q args) POLL_INTERVAL fuel).1.

(** The command line with other values for the options of the standard
    variant. *)
Definition with_pro_options (args : Args.t) (size : option string) (w height : option Z)
    (g : option PrimFloat.float) (i : option Z) : Args.t :=
  Args.mk (Args.prompt args) (Args.file args) (Args.model args) (Args.n args)
          (Args.o args) (Args.s args) (Args.no_safety args) (Args.seed args)
          (Args.sync args) (Args.od args) (Args.a args) (Args.raw args)
          size w height g i (Args.q args) (Args.poll args).

(** Sample command line: three images of the high-resolution variant with
    a seed of 40, and one of the standard variant with explicit numbers. *)
Definition sample_ultra_args : Args.t :=
  Args.mk (Some "a prompt") None "ultra" 3 None None false (Some 40) false None
          (Some "16:9") false (Some "landscape_16_9") None None None None
          "subscribe" POLL_INTERVAL.

Definition sample_pro_args : Args.t :=
  Args.mk (Some "a prompt") None "pro" 1 (Some "png") None true None false None
          (Some "16:9") false (Some "landscape_16_9") (Some 1024) (Some 768)
          (Some 3.5%float) (Some 28) "subscribe" 7.

(** ** The command line *)

(** The choices of the parser (module constants). *)
Definition ASPECT_RATIOS : list string :=
  ["21:9"; "16:9"; "4:3"; "3:2"; "1:1"; "2:3"; "3:4"; "9:16"; "9:21"].
Definition IMG_SIZES : list string :=
  ["square_hd"; "square"; "portrait_4_3"; "portrait_16_9"; "landscape_4_3";
   "landscape_16_9"].
Definition SAFETY_LEVELS : list string := ["1"; "2"; "3"; "4"; "5"; "6"].
Definition OUT_FORMATS : list string := ["jpeg"; "png"].
Definition QUEUE_MODES : list string := ["subscribe"; "submit"; "run"].

(** What [setup_argument_parser] lets through: the namespaces
    [parse_args] can return.  Exactly one of [-p] and [-f] is given; an
    option with choices holds one of them; [-a] and [--size] have a
    default, so they are never absent. *)
Definition parser_accepts (args : Args.t) : Prop :=
  (is_Some (Args.prompt args) ↔ Args.file args = None)
  ∧ Args.model args ∈ MODELS
  ∧ (∀ o, Args.o args = Some o → o ∈ OUT_FORMATS)
  ∧ (∀ s, Args.s args = Some s → s ∈ SAFETY_LEVELS)
  ∧ (∃ a, Args.a args = Some a ∧ a ∈ ASPECT_RATIOS)
  ∧ (∃ size, Args.size args = Some size ∧ size ∈ IMG_SIZES)
  ∧ Args.q args ∈ QUEUE_MODES.

(** Truthiness of an optional float: [None] and zero are false. *)
Definition truthy_float (o : option PrimFloat.float) : bool :=
  match o with
  | Some g => negb (PrimFloat.eqb g 0%float)
  | None => false
  end.

(** What the top level of the program prints, one constructor per
    [print] call site (the three lines about the missing key are one), and
    one for what the parser prints when it exits. *)
Inductive output : Type :=
  | OutKeyMissing
  | OutWarnUltra
  | OutWarnPro
  | OutSaving (out_dir : string)
  | OutFound (count : nat)
  | OutProcessing (i total : nat) (prompt : string)
  | OutAllProcessed
  | OutParser
  | OutError (e : exn).

(** [validate_model_args]: what it prints and whether it raises. *)
Definition validate_model_args (args : Args.t) : list output * res unit :=
  if String.eqb (Args.model args) "ultra" then
    ((if truthy_str (Args.size args) || truthy_float (Args.g args)
         || truthy_int (Args.i args) || truthy_int (Args.w args)
         || truthy_int (Args.height args)
      then [OutWarnUltra] else []),
     Ok tt)
  else
    ((if truthy_str (Args.a args) || Args.raw args then [OutWarnPro] else []),
     validate_pro_args args).

(** The command line with other values for the options of the
    high-resolution variant. *)
Definition with_ultra_options (args : Args.t) (a : option string) (raw : bool) : Args.t :=
  Args.mk (Args.prompt args) (Args.file args) (Args.model args) (Args.n args)
          (Args.o args) (Args.s args) (Args.no_safety args) (Args.seed args)
          (Args.sync args) (Args.od args) a raw
          (Args.size args) (Args.w args) (Args.height args) (Args.g args) (Args.i args)
          (Args.q args) (Args.poll args).

(** ** The top level: prompts, output directories, exit codes *)

(** What the program runs against: the environment variable, the working
    directory, the library functions it calls ([hashlib.sha256(...)
    .hexdigest()], [str.strip], [json.dumps]), the lines of the prompt
    file ([open] may raise), and the remote services.  [rt_fal rt k i] is
    the service as request [i] of the run for prompt number [k] sees it;
    [rt_picks rt k] is the scheduler's order for that run. *)
Record runtime : Type := Runtime {
  rt_key : option string;
  rt_cwd : string;
  rt_sha256 : string → string;
  rt_strip : string → string;
  rt_lines : string → res (list string);
  rt_fal : nat → nat → FalClient;
  rt_get : http;
  rt_fuel : nat;
  rt_picks : nat → list nat;
  rt_dumps : list dict → string
}.

(** The state of a session: the world of the runs, and what the top level
    printed, oldest first. *)
Record session : Type := Session {
  store : world;
  console : list output
}.

Definition say (o : output) (s : session) : session :=
  Session (store s) (console s ++ [o]).

(** Run a piece of stateful code on the world of the session. *)
Definition in_store {A} (m : M A) (s : session) : session :=
  Session (m (store s)).2 (console s).

(** [check_api_key]: the key, or [None] when the program exits with
    status 1 ([if not key:] also rejects an empty key). *)
Definition check_api_key (rt : runtime) : list output * option string :=
  if truthy_str (rt_key rt) then ([], rt_key rt) else ([OutKeyMissing], None).

(** [get_prompt_hash]: the first eight characters of the hex digest. *)
Definition get_prompt_hash (rt : runtime) (prompt : string) : string :=
  slice_to 8 (rt_sha256 rt prompt).

(** [setup_output_dir]: the given directory when there is one
    ([if custom_dir:]), otherwise [generated/<hash>] below the working
    directory. *)
Definition setup_output_dir (rt : runtime) (prompt : string) (custom_dir : option string)
    : session → string * session :=
  λ s,
  let by_hash :=
    let base := path_join (rt_cwd rt) "generated" in
    let out_dir := path_join base (get_prompt_hash rt prompt) in
    (out_dir, say (OutSaving out_dir) (in_store (makedirs base ;; makedirs out_dir) s)) in
  match custom_dir with
  | Some dir => if truthy_str custom_dir then (dir, in_store (makedirs dir) s) else by_hash
  | None => by_hash
  end.

(** [process_generation] for prompt number [k], on the session. *)
Definition run_generation (rt : runtime) (k : nat) (args : Args.t) (prompt out_dir : string)
    : session → option (res unit) * session :=
  λ s,
  let '(r, w) :=
    process_generation (rt_fal rt k) (rt_get rt) (rt_fuel rt) (rt_picks rt k) (rt_dumps rt)
                       args prompt out_dir (store s) in
  (r, Session w (console s)).

(** The [for i, prompt in enumerate(prompts, 1)] loop, from prompt number
    [k] on: an exception of a run ends the loop, and so does a run that
    never finishes. *)
Fixpoint process_prompts (rt : runtime) (args : Args.t) (total k : nat)
    (prompts : list string) (s : session) : option (res unit) * session :=
  match prompts with
  | [] => (Some (Ok tt), s)
  | prompt :: rest =>
      let s1 := say (OutProcessing (S k) total prompt) s in
      let '(out_dir, s2) := setup_output_dir rt prompt (Args.od args) s1 in
      match run_generation rt k args prompt out_dir s2 with
      | (Some (Ok _), s3) => process_prompts rt args total (S k) rest s3
      | (other, s3) => (other, s3)
      end
  end.

(** [[line.strip() for line in f if line.strip()]]. *)
Definition prompts_of (rt : runtime) (lines : list string) : list string :=
  filter (λ line, line ≠ "") (rt_strip rt <$> lines).

(** [process_all_prompts]. *)
Definition process_all_prompts (rt : runtime) (args : Args.t)
    : session → option (res unit) * session :=
  λ s,
  let from_file :=
    match Args.file args with
    | None =>
        (Some (Raise (TypeError "expected str, bytes or os.PathLike object, not NoneType")),
         s)
    | Some path =>
        match rt_lines rt path with
        | Raise e => (Some (Raise e), s)
        | Ok lines =>
            let prompts := prompts_of rt lines in
            match prompts with
            | [] => (Some (Raise (ValueError "No valid prompts found in the file")), s)
            | _ :: _ =>
                match process_prompts rt args (length prompts) 0 prompts
                        (say (OutFound (length prompts)) s) with
                | (Some (Ok _), s1) => (Some (Ok tt), say OutAllProcessed s1)
                | (other, s1) => (other, s1)
                end
            end
        end
    end in
  match Args.prompt args with
  | Some prompt =>
      if truthy_str (Args.prompt args) then
        let '(out_dir, s1) := setup_output_dir rt prompt None s in
        run_generation rt 0 args prompt out_dir s1
      else from_file
  | None => from_file
  end.

(** How the program ends: normally, with an exit status, or never (a
    request that stays pending). *)
Inductive ending : Type :=
  | Finished
  | Exit (status : Z)
  | Never.

(** What [parser.parse_args()] makes of the command line: a namespace,
    or an exit after printing ([SystemExit] with status 2 for a command
    line it rejects, 0 for [-h]). *)
Inductive parsed : Type :=
  | Namespace (args : Args.t)
  | ParserExit (status : Z).

(** [main].  [sys.exit] - in [check_api_key] and in the parser - raises
    [SystemExit], which is no [Exception]: it passes the [except]. *)
Definition main (rt : runtime) (cmd : parsed) : session → ending * session :=
  λ s,
  match check_api_key rt with
  | (printed, None) => (Exit 1, Session (store s) (console s ++ printed))
  | (printed, Some _) =>
      match cmd with
      | ParserExit status =>
          (Exit status, Session (store s) (console s ++ printed ++ [OutParser]))
      | Namespace args =>
          let '(warnings, valid) := validate_model_args args in
          let s1 := Session (store s) (console s ++ printed ++ warnings) in
          match valid with
          | Raise e => (Exit 1, say (OutError e) s1)
          | Ok _ =>
              match process_all_prompts rt args s1 with
              | (None, s2) => (Never, s2)
              | (Some (Raise e), s2) => (Exit 1, say (OutError e) s2)
              | (Some (Ok _), s2) => (Finished, s2)
              end
          end
      end
  end.

(** The command line with other values for [-od] and [-f]. *)
Definition with_od_and_file (args : Args.t) (od file : option string) : Args.t :=
  Args.mk (Args.prompt args) file (Args.model args) (Args.n args)
          (Args.o args) (Args.s args) (Args.no_safety args) (Args.seed args)
          (Args.sync args) od (Args.a args) (Args.raw args)
          (Args.size args) (Args.w args) (Args.height args) (Args.g args) (Args.i args)
          (Args.q args) (Args.poll args).

(** Sample runtime: a key, a digest, a strip of blanks, two prompt files
    (one with two prompts, one with blank lines only), and the sample
    services. *)
Fixpoint drop_blanks (s : string) : string :=
  match s with
  | String c s' => if Ascii.eqb c " " then drop_blanks s' else s
  | EmptyString => EmptyString
  end.

Definition sample_strip (s : string) : string :=
  String.rev (drop_blanks (String.rev (drop_blanks s))).

Definition sample_runtime : runtime := {|
  rt_key := Some "fal-key";
  rt_cwd := "/home/user";
  rt_sha256 := λ _, "3a7bd3e2360a3d29eea436fcfb7e44c735d117c42d1c1835420b6b9942dd4f1b";
  rt_strip := sample_strip;
  rt_lines := λ path,
    if String.eqb path "prompts.txt" then Ok ["a red fox"; "   "; "  a blue bird "]
    else if String.eqb path "blank.txt" then Ok [""; "   "]
    else Raise (OSError path);
  rt_fal := λ _, sample_fals;
  rt_get := sample_get;
  rt_fuel := 10;
  rt_picks := λ _, [];
  rt_dumps := sample_dumps
|}.

Definition empty_session : session := Session empty_world [].

(** Sample command lines: a prompt file into one directory, and a file
    of blank lines. *)
Definition sample_file_args : Args.t :=
  Args.mk None (Some "prompts.txt") "pro" 1 None None false None false (Some "shots")
          (Some "16:9") false (Some "landscape_16_9") None None None None
          "subscribe" POLL_INTERVAL.

Definition blank_file_args : Args.t :=
  Args.mk None (Some "blank.txt") "pro" 1 None None false None false None
          (Some "16:9") false (Some "landscape_16_9") None None None None
          "subscribe" POLL_INTERVAL.

(** Sample command line: a guidance above the bound. *)
Definition bad_guidance_args : Args.t :=
  Args.mk (Some "a prompt") None "pro" 1 None None false None false None
          (Some "16:9") false (Some "landscape_16_9") None None (Some 25%float) None
          "subscribe" POLL_INTERVAL.

(* ===================================================================== *)
(** * Part II: theorems                                                   *)
(* ===================================================================== *)

(** ** Argument builder *)

Lemma truthy_str_false o : truthy_str o = false ↔ absent_text o.
Proof.
  unfold absent_text. destruct o as [s|]; simpl.
  - destruct (String.eqb_spec s "") as [->|Hne]; simpl.
    + split; [by right|done].
    + split; [done|]. intros [?|?]; simplify_eq.
  - split; [by left|done].
Qed.

Lemma truthy_str_spec o : truthy_str o = true ↔ ¬ absent_text o.
Proof.
  rewrite <- truthy_str_false. by destruct (truthy_str o).
Qed.

Lemma is_Some_if_truthy (o : option string) :
  is_Some (if truthy_str o then JStr <$> o else None) ↔ truthy_str o = true.
Proof.
  destruct o as [s|]; simpl; [destruct (negb _)|]; split;
    first [ done | by intros [? ?] | by eexists ].
Qed.

(** The optional keys of the base payload, one by one. *)
Lemma build_base_args_lookup prompt out_fmt safety safety_check sync :
  let p := build_base_args prompt out_fmt safety safety_check sync in
  p !! "prompt" = Some (JStr prompt)
  ∧ p !! "num_images" = Some (JInt 1)
  ∧ p !! "output_format" = (if truthy_str out_fmt then JStr <$> out_fmt else None)
  ∧ p !! "safety_tolerance" = (if truthy_str safety then JStr <$> safety else None)
  ∧ p !! "enable_safety_checker" = JBool <$> safety_check
  ∧ p !! "sync_mode" = JBool <$> sync
  ∧ p !! "raw" = None
  ∧ p !! "image_size" = None.
Proof.
  unfold build_base_args.
  destruct out_fmt as [f|], safety as [t|], safety_check as [c|], sync as [y|];
    simpl; repeat case_match; simplify_map_eq; done.
Qed.

(** C7.  The base payload holds [prompt] and an image count of 1; each of
    the four optional keys is present exactly when its option is not absent
    (for a text option: neither [None] nor empty), and then holds the
    option's value, never a null or empty placeholder; the high-fidelity
    extender writes [raw] exactly when the flag is true, and then as true. *)
Theorem base_payload_optional_keys prompt out_fmt safety safety_check sync :
  let p := build_base_args prompt out_fmt safety safety_check sync in
  (p !! "prompt" = Some (JStr prompt) ∧ p !! "num_images" = Some (JInt 1))
  ∧ (is_Some (p !! "output_format") ↔ ¬ absent_text out_fmt)
  ∧ (is_Some (p !! "safety_tolerance") ↔ ¬ absent_text safety)
  ∧ (is_Some (p !! "enable_safety_checker") ↔ is_Some safety_check)
  ∧ (is_Some (p !! "sync_mode") ↔ is_Some sync)
  ∧ (∀ k v, k ∈ ["output_format"; "safety_tolerance"; "enable_safety_checker"; "sync_mode"] →
       p !! k = Some v →
       v ≠ JNull ∧ v ≠ JStr ""
       ∧ (k = "output_format" → JStr <$> out_fmt = Some v)
       ∧ (k = "safety_tolerance" → JStr <$> safety = Some v)
       ∧ (k = "enable_safety_checker" → JBool <$> safety_check = Some v)
       ∧ (k = "sync_mode" → JBool <$> sync = Some v))
  ∧ (∀ ratio raw,
       let u := add_ultra_args p ratio raw in
       (is_Some (u !! "raw") ↔ raw = true)
       ∧ u !! "raw" ≠ Some (JBool false)
       ∧ (raw = true → u !! "raw" = Some (JBool true))).
Proof.
  intros p.
  destruct (build_base_args_lookup prompt out_fmt safety safety_check sync)
    as (Hp & Hn & Hf & Ht & Hc & Hs & Hr & _).
  fold p in Hp, Hn, Hf, Ht, Hc, Hs, Hr. clearbody p.
  split; [done|].
  split.
  { by rewrite Hf, <- truthy_str_spec, is_Some_if_truthy. }
  split.
  { by rewrite Ht, <- truthy_str_spec, is_Some_if_truthy. }
  split; [by rewrite Hc, fmap_is_Some|].
  split; [by rewrite Hs, fmap_is_Some|].
  split.
  { intros k v Hk Hv.
    rewrite !elem_of_cons, elem_of_nil in Hk.
    destruct Hk as [-> | [-> | [-> | [-> | []]]]]; rewrite ?Hf, ?Ht, ?Hc, ?Hs in Hv.
    - destruct out_fmt as [f|]; simpl in Hv; [|done].
      destruct (String.eqb_spec f ""); simpl in Hv; simplify_eq.
      repeat split; try done. naive_solver.
    - destruct safety as [f|]; simpl in Hv; [|done].
      destruct (String.eqb_spec f ""); simpl in Hv; simplify_eq.
      repeat split; try done. naive_solver.
    - destruct safety_check; simplify_eq/=. repeat split; done.
    - destruct sync; simplify_eq/=. repeat split; done. }
  intros ratio raw u. subst u. unfold add_ultra_args.
  assert (Hr' : (match ratio with
                 | Some r => if truthy_str ratio then <["aspect_ratio" := JStr r]> p else p
                 | None => p
                 end) !! "raw" = None).
  { clear -Hr. destruct ratio as [r|]; [simpl; destruct (negb _)|]; by simplify_map_eq. }
  destruct raw; simplify_map_eq.
  - split; [|done]. split; [done|]. intros _. by eexists.
  - rewrite Hr'. split; [|done]. split; [|done]. by intros [? ?].
Qed.

(** C3, as the code has it.  On a base payload the standard-variant extender
    sets [image_size] to the object [{width, height}] when both dimensions
    are set (whatever the preset), to the preset text when a non-empty
    preset is set and the dimensions are not both set, and leaves it out
    otherwise; so the key is present exactly when both dimensions or a
    non-empty preset are set, and it holds one form only. *)
Theorem image_size_forms prompt out_fmt safety safety_check sync size w h guidance steps :
  let p := add_pro_args (build_base_args prompt out_fmt safety safety_check sync)
                        size w h guidance steps in
  (∀ w' h', w = Some w' → h = Some h' →
     p !! "image_size" = Some (JObj {[ "width" := JInt w'; "height" := JInt h' ]}))
  ∧ (∀ s, size = Some s → s ≠ "" → w = None ∨ h = None →
     p !! "image_size" = Some (JStr s))
  ∧ (absent_text size → w = None ∨ h = None → p !! "image_size" = None)
  ∧ (is_Some (p !! "image_size") ↔ (is_Some w ∧ is_Some h) ∨ ¬ absent_text size)
  ∧ ¬ ((∃ m, p !! "image_size" = Some (JObj m)) ∧ (∃ s, p !! "image_size" = Some (JStr s))).
Proof.
  intros p.
  destruct (build_base_args_lookup prompt out_fmt safety safety_check sync)
    as (_ & _ & _ & _ & _ & _ & _ & Hi).
  set (b := build_base_args _ _ _ _ _) in *.
  assert (Hp : p !! "image_size" =
               match w, h with
               | Some w', Some h' => Some (JObj {[ "width" := JInt w'; "height" := JInt h' ]})
               | _, _ => if truthy_str size then JStr <$> size else None
               end).
  { subst p. unfold add_pro_args.
    destruct w, h, size as [sz|], guidance, steps; simpl;
      repeat case_match; simplify_map_eq; done. }
  clearbody p. clear Hi.
  repeat split.
  - intros w' h' -> ->. done.
  - intros s -> Hs Hwh. rewrite Hp.
    assert (truthy_str (Some s) = true) as ->.
    { apply truthy_str_spec. intros [?|?]; simplify_eq. }
    destruct w, h; try done; by destruct Hwh.
  - intros Ha Hwh. rewrite Hp. apply truthy_str_false in Ha as ->.
    destruct w, h; try done; by destruct Hwh.
  - rewrite Hp. intros Hsome. destruct w, h; try (left; split; by eexists).
    all: right; apply truthy_str_spec; destruct (truthy_str size); try done;
      by destruct Hsome.
  - rewrite Hp. intros [[[? ->] [? ->]] | Hn]; [by eexists|].
    apply truthy_str_spec in Hn. rewrite Hn.
    destruct size; [|done]. destruct w, h; by eexists.
  - intros [[m Hm] [s Hs]]. congruence.
Qed.

(** C3, as the specification states it, does not hold: a width given
    alone is a sizing input, and the payload gets no [image_size]. *)
Lemma image_size_absent_with_sizing_input :
  sizing_input None (Some 512) None
  ∧ add_pro_args (build_base_args "a prompt" None None None None)
                 None (Some 512) None None None !! "image_size" = None.
Proof. split; [right; left; by eexists | by vm_compute]. Qed.

(** ** Option validator *)

Lemma in_range_spec lo hi x : in_range lo hi x = true ↔ lo ≤ x ≤ hi.
Proof. unfold in_range. rewrite andb_true_iff, !Z.leb_le. done. Qed.

Lemma in_range_false lo hi x : in_range lo hi x = false ↔ ¬ (lo ≤ x ≤ hi).
Proof. rewrite <- in_range_spec. by destruct (in_range lo hi x). Qed.

Lemma truthy_int_Some n : truthy_int (Some n) = negb (n =? 0).
Proof. done. Qed.

Lemma fails_with_Ok {A} k (a : A) : ¬ fails_with k (Ok a).
Proof. by intros (e & ? & _). Qed.

Lemma fails_with_Raise {A} k e : fails_with k (@Raise A e) ↔ kind_of e = Some k.
Proof.
  split; [intros (e' & [= <-] & H); done | intros H; by exists e].
Qed.

Lemma kind_guidance : kind_of (ValueError msg_guidance) = Some OutOfRange.
Proof. reflexivity. Qed.
Lemma kind_steps : kind_of (ValueError msg_steps) = Some OutOfRange.
Proof. reflexivity. Qed.
Lemma kind_dims : kind_of (ValueError msg_dims) = Some OutOfRange.
Proof. reflexivity. Qed.
Lemma kind_pair : kind_of (ValueError msg_pair) = Some MissingPair.
Proof. reflexivity. Qed.

(** The validator is a decision list: the first failing rule raises. *)
Lemma validate_pro_args_unfold args :
  validate_pro_args args =
    if guidance_bad args then Raise (ValueError msg_guidance)
    else if steps_bad args then Raise (ValueError msg_steps)
    else if pair_bad args then Raise (ValueError msg_pair)
    else if dims_bad args then Raise (ValueError msg_dims)
    else Ok tt.
Proof.
  unfold validate_pro_args, guidance_bad, steps_bad, pair_bad, dims_bad.
  destruct (Args.g args) as [g|]; [destruct (guidance_in_range g)|]; simpl; try done.
  all: destruct (Args.i args) as [n|]; [destruct (in_range _ _ n)|]; simpl; try done.
  all: destruct (negb (eqb _ _)); simpl; try done.
  all: destruct (truthy_int (Args.w args) && truthy_int (Args.height args)) eqn:E;
       simpl; try done.
  all: destruct (Args.w args), (Args.height args); try done.
Qed.

Lemma guidance_bad_spec args : guidance_bad args = true ↔ guidance_out args.
Proof.
  unfold guidance_bad, guidance_out. destruct (Args.g args) as [g|].
  - rewrite negb_true_iff. split; [by exists g | by intros (? & [= <-] & ?)].
  - split; [done | by intros (? & ? & _)].
Qed.

Lemma steps_bad_spec args : steps_bad args = true ↔ steps_out args.
Proof.
  unfold steps_bad, steps_out. destruct (Args.i args) as [n|].
  - rewrite negb_true_iff, in_range_false. unfold MIN_STEPS, MAX_STEPS.
    split; [by exists n | by intros (? & [= <-] & ?)].
  - split; [done | by intros (? & ? & _)].
Qed.

Lemma pair_bad_spec args :
  Args.w args ≠ Some 0 → Args.height args ≠ Some 0 →
  pair_bad args = true ↔ pair_missing args.
Proof.
  unfold pair_bad, pair_missing.
  destruct (Args.w args) as [w|], (Args.height args) as [h|]; simpl; intros Hw Hh.
  - assert (w ≠ 0) by congruence. assert (h ≠ 0) by congruence.
    rewrite (proj2 (Z.eqb_neq w 0)), (proj2 (Z.eqb_neq h 0)) by done. simpl.
    split; [done|]. intros [[_ ?]|[? _]]; done.
  - assert (w ≠ 0) by congruence.
    rewrite (proj2 (Z.eqb_neq w 0)) by done. simpl.
    split; [|done]. intros _. left. split; [by eexists | done].
  - assert (h ≠ 0) by congruence.
    rewrite (proj2 (Z.eqb_neq h 0)) by done. simpl.
    split; [|done]. intros _. right. split; [done | by eexists].
  - split; [done|]. intros [[[? ?] _]|[_ [? ?]]]; done.
Qed.

Lemma dims_bad_spec args :
  Args.w args ≠ Some 0 → Args.height args ≠ Some 0 →
  dims_bad args = true ↔ dims_out args.
Proof.
  unfold dims_bad, dims_out.
  destruct (Args.w args) as [w|], (Args.height args) as [h|]; simpl; intros Hw Hh.
  - assert (w ≠ 0) by congruence. assert (h ≠ 0) by congruence.
    rewrite (proj2 (Z.eqb_neq w 0)), (proj2 (Z.eqb_neq h 0)) by done. simpl.
    rewrite negb_true_iff, andb_false_iff, !in_range_false. unfold MIN_DIM, MAX_DIM.
    split.
    + intros Hout. exists w, h. split; [done|]. split; [done|]. lia.
    + intros (? & ? & [= <-] & [= <-] & Hout). lia.
  - rewrite andb_false_r. split; [done | by intros (? & ? & _ & ? & _)].
  - split; [done | by intros (? & ? & ? & _)].
  - split; [done | by intros (? & ? & ? & _)].
Qed.

(** C2, as the code has it.  For an option set whose width and height, where
    given, are not zero: validation fails with [OutOfRange] exactly when a
    present guidance is outside [1, 20], a present step count is outside
    [1, 50], or both dimensions are given and one is outside [256, 14142];
    it fails with [MissingPair] exactly when guidance and steps pass and one
    of width/height is given without the other (the rules are tried in
    order and the first failure is the one raised); it returns normally
    exactly when no rule fails; and the boundary values pass. *)
Theorem validate_pro_args_spec args :
  Args.w args ≠ Some 0 → Args.height args ≠ Some 0 →
  (fails_with OutOfRange (validate_pro_args args)
     ↔ guidance_out args ∨ steps_out args ∨ dims_out args)
  ∧ (fails_with MissingPair (validate_pro_args args)
     ↔ ¬ guidance_out args ∧ ¬ steps_out args ∧ pair_missing args)
  ∧ (validate_pro_args args = Ok tt
     ↔ ¬ guidance_out args ∧ ¬ steps_out args ∧ ¬ pair_missing args ∧ ¬ dims_out args)
  ∧ validate_pro_args
      (pro_options (Some 1%float) (Some 1) (Some 256) (Some 14142)) = Ok tt
  ∧ validate_pro_args
      (pro_options (Some 20%float) (Some 50) (Some 14142) (Some 256)) = Ok tt.
Proof.
  intros Hw Hh.
  rewrite validate_pro_args_unfold.
  rewrite <- guidance_bad_spec, <- steps_bad_spec,
    <- (pair_bad_spec args Hw Hh), <- (dims_bad_spec args Hw Hh).
  assert (Hexcl : pair_bad args = true → dims_bad args = false).
  { unfold pair_bad, dims_bad.
    destruct (truthy_int (Args.w args)), (truthy_int (Args.height args)); done. }
  split; [|split; [|split; [|split; by vm_compute]]].
  - destruct (guidance_bad args), (steps_bad args), (pair_bad args) eqn:Ep,
      (dims_bad args) eqn:Ed;
      rewrite ?fails_with_Raise, ?kind_guidance, ?kind_steps, ?kind_pair, ?kind_dims;
      try (specialize (Hexcl eq_refl)); try done;
      try (split; [done | intros [?|[?|?]]; done]);
      try (split; [by intros ?%fails_with_Ok | intros [?|[?|?]]; done]);
      naive_solver.
  - destruct (guidance_bad args), (steps_bad args), (pair_bad args) eqn:Ep,
      (dims_bad args) eqn:Ed;
      rewrite ?fails_with_Raise, ?kind_guidance, ?kind_steps, ?kind_pair, ?kind_dims;
      try (split; [by intros ?%fails_with_Ok | naive_solver]);
      naive_solver.
  - destruct (guidance_bad args), (steps_bad args), (pair_bad args) eqn:Ep,
      (dims_bad args) eqn:Ed; naive_solver.
Qed.

(** C2, as the specification states it, does not hold: with a guidance of
    0.5 and a width given without a height, the first rule raises and the
    error is [OutOfRange], not [MissingPair]. *)
Lemma validate_pro_args_first_failure_wins :
  ¬ validation_as_stated (pro_options (Some 0.5%float) None (Some 512) None).
Proof.
  intros (_ & Hpair & _).
  assert (Hm : pair_missing (pro_options (Some 0.5%float) None (Some 512) None)).
  { left. split; [by eexists | done]. }
  apply Hpair in Hm as (e & Heq & Hk).
  vm_compute in Heq. injection Heq as <-. vm_compute in Hk. discriminate.
Qed.

(** The rule at a concrete option set: a guidance of 21 is out of range. *)
Lemma validate_pro_args_spec_witness :
  fails_with OutOfRange
    (validate_pro_args (pro_options (Some 21%float) (Some 28) (Some 512) (Some 512))).
Proof.
  destruct (validate_pro_args_spec
              (pro_options (Some 21%float) (Some 28) (Some 512) (Some 512)))
    as (Hout & _); [done | done |].
  apply Hout. left. exists 21%float. split; [done | by vm_compute].
Defined.

(** A width or height of 0 is read as "not given" by the truthiness tests:
    0 x 0 passes, and 0 x 512 is reported as a missing pair. *)
Lemma validate_pro_args_zero_dimension :
  validate_pro_args (pro_options None None (Some 0) (Some 0)) = Ok tt
  ∧ dims_out (pro_options None None (Some 0) (Some 0))
  ∧ validate_pro_args (pro_options None None (Some 0) (Some 512))
    = Raise (ValueError msg_pair)
  ∧ ¬ pair_missing (pro_options None None (Some 0) (Some 512)).
Proof.
  split; [by vm_compute|]. split.
  { exists 0, 0. simpl. split; [done|]. split; [done|]. lia. }
  split; [by vm_compute|].
  intros [[_ ?]|[? _]]; done.
Qed.

(** ** File names *)

Example fname_example :
  fname "out" "https://cdn.example/files/0a1b2c3d4e5f_image.png" = "out/0a1b2c3d.png".
Proof. reflexivity. Qed.

Example fname_test_url :
  fname "out" "https://example.com/test.jpg" = "out/test.jpg.jpg".
Proof. reflexivity. Qed.

Lemma split_not_nil c s : split c s ≠ [].
Proof. destruct s as [|a s]; simpl; [done|]. destruct (Ascii.eqb a c); [done|]. by destruct (split c s). Qed.

(** The first piece of a split is the text before the first separator. *)
Lemma first_piece_split c s : first_piece (split c s) = before_first c s.
Proof.
  induction s as [|a s IH]; simpl; [done|].
  destruct (Ascii.eqb a c); [done|].
  unfold first_piece in *. destruct (split c s) eqn:E; simpl in *.
  - by destruct (split_not_nil c s).
  - by rewrite IH.
Qed.

Lemma split_no_separator c s : contains c s = false → split c s = [s].
Proof.
  induction s as [|a s IH]; simpl; [done|].
  destruct (Ascii.eqb a c); simpl; [done|]. intros H. by rewrite IH.
Qed.

Lemma last_cons_not_nil {A} (x : A) l d : l ≠ [] → List.last (x :: l) d = List.last l d.
Proof. by destruct l. Qed.

(** The last piece of a split is the text after the last separator. *)
Lemma split_singleton c s p : split c s = [p] → contains c s = false.
Proof.
  revert p. induction s as [|b s IH]; simpl; [done|]. intros p.
  destruct (Ascii.eqb b c); simpl.
  - intros [= _ E]. by destruct (split_not_nil c s).
  - destruct (split c s) as [|p' [|q' l']] eqn:E';
      [by destruct (split_not_nil c s) | intros _; by eapply IH | done].
Qed.

Lemma last_piece_split c s : last_piece (split c s) = after_last c s.
Proof.
  unfold last_piece. induction s as [|a s IH]; simpl; [done|].
  destruct (contains c s) eqn:Hc.
  - rewrite <- IH. destruct (Ascii.eqb a c).
    + apply last_cons_not_nil, split_not_nil.
    + destruct (split c s) as [|p [|q l]] eqn:E; simpl; try done.
      * by destruct (split_not_nil c s).
      * apply split_singleton in E. congruence.
  - rewrite (split_no_separator c s Hc). by destruct (Ascii.eqb a c).
Qed.

Lemma contains_app c s t : contains c (s +:+ t) = contains c s || contains c t.
Proof. induction s as [|a s IH]; simpl; [done|]. by rewrite IH, orb_assoc. Qed.

Lemma contains_slice_to c n s : contains c s = false → contains c (slice_to n s) = false.
Proof.
  revert n. induction s as [|a s IH]; intros [|n]; simpl; try done.
  intros [-> ?]%orb_false_iff. simpl. by apply IH.
Qed.

Lemma contains_before_first c d s :
  contains c s = false → contains c (before_first d s) = false.
Proof.
  induction s as [|a s IH]; simpl; [done|].
  intros [Ha ?]%orb_false_iff. destruct (Ascii.eqb a d); simpl; [done|].
  rewrite Ha. by apply IH.
Qed.

(** What [before_first] and [after_last] return, without recursion. *)
Lemma before_first_spec c s :
  contains c (before_first c s) = false
  ∧ (s = before_first c s ∨ ∃ rest, s = before_first c s +:+ String c rest).
Proof.
  induction s as [|a s [IH1 IH2]]; simpl; [by split; [|left]|].
  destruct (Ascii.eqb_spec a c) as [->|Hne]; simpl.
  - split; [done|]. right. by exists s.
  - rewrite (proj2 (Ascii.eqb_neq a c) Hne), IH1. split; [done|].
    destruct IH2 as [IH2|[rest IH2]]; [left|right; exists rest].
    + f_equal. exact IH2.
    + change (String a s = String a (before_first c s +:+ String c rest)).
      f_equal. exact IH2.
Qed.

Lemma after_last_spec c s :
  contains c (after_last c s) = false
  ∧ (if contains c s then ∃ pre, s = pre +:+ String c (after_last c s)
     else after_last c s = s).
Proof.
  induction s as [|a s [IH1 IH2]]; simpl; [done|].
  destruct (contains c s) eqn:Hc.
  - rewrite orb_true_r. split; [done|].
    destruct IH2 as [pre IH2]. exists (String a pre).
    change (String a s = String a (pre +:+ String c (after_last c s))).
    f_equal. exact IH2.
  - rewrite orb_false_r. destruct (Ascii.eqb_spec a c) as [->|Hne].
    + split; [done|]. by exists EmptyString.
    + simpl. rewrite Hc, (proj2 (Ascii.eqb_neq a c) Hne). done.
Qed.

Lemma contains_after_last c d s :
  contains d (after_last c s) = true → contains d s = true.
Proof.
  induction s as [|a s IH]; simpl; [done|].
  destruct (contains c s).
  - intros H. rewrite (IH H). apply orb_true_r.
  - destruct (Ascii.eqb a c); [|done]. intros ->. apply orb_true_r.
Qed.

(** When the text after the last [c] holds a [d], the last [d] of the whole
    text is that one. *)
Lemma after_last_after_last c d s :
  contains d (after_last c s) = true →
  after_last d s = after_last d (after_last c s).
Proof.
  induction s as [|a s IH]; simpl; [done|].
  destruct (contains c s) eqn:Hc.
  - intros H. rewrite (contains_after_last _ _ _ H). by apply IH.
  - destruct (Ascii.eqb a c); [|done]. by intros ->.
Qed.

Lemma lower_ascii_slash c : Ascii.eqb (lower_ascii c) "/" = Ascii.eqb c "/".
Proof. by destruct c as [[] [] [] [] [] [] [] []]. Qed.

Lemma contains_slash_lower s : contains "/" (lower s) = contains "/" s.
Proof. induction s as [|a s IH]; simpl; [done|]. by rewrite lower_ascii_slash, IH. Qed.

Lemma lower_idempotent s : lower (lower s) = lower s.
Proof.
  induction s as [|a s IH]; simpl; [done|]. rewrite IH. f_equal.
  by destruct a as [[] [] [] [] [] [] [] []].
Qed.

(** The code's identifier is the specification's. *)
Lemma flux_id_spec url : flux_id url = spec_id url.
Proof.
  unfold flux_id, spec_id, final_segment.
  by rewrite last_piece_split, first_piece_split.
Qed.

Lemma ext_spec url : ext url = lower (after_last "." url).
Proof. unfold ext. by rewrite last_piece_split. Qed.

Lemma spec_id_no_slash url : contains "/" (spec_id url) = false.
Proof.
  unfold spec_id, final_segment.
  apply contains_slice_to, contains_before_first, after_last_spec.
Qed.

Lemma starts_with_app c s t :
  s ≠ EmptyString → starts_with c (s +:+ t) = starts_with c s.
Proof. by destruct s. Qed.

Lemma file_name_not_absolute id e :
  contains "/" id = false → starts_with "/" (id +:+ "." +:+ e) = false.
Proof. destruct id as [|a id]; simpl; [done|]. by intros [-> _]%orb_false_iff. Qed.

Lemma after_last_dot_of_segment url :
  contains "." (final_segment url) = true → after_last "." url = file_extension url.
Proof.
  intros Hdot. unfold file_extension. rewrite Hdot.
  by apply after_last_after_last.
Qed.

Lemma file_extension_no_slash url : contains "/" (file_extension url) = false.
Proof.
  unfold file_extension. destruct (contains "." (final_segment url)); [|done].
  destruct (contains "/" (after_last "." (final_segment url))) eqn:E; [|done].
  apply contains_after_last in E. unfold final_segment in E.
  by rewrite (proj1 (after_last_spec "/" url)) in E.
Qed.


(** ** Media downloader *)

Lemma M_bind_run {A B} (m : M A) (f : A → M B) w :
  (m ≫= f) w = match m w with
               | (Ok a, w') => f a w'
               | (Raise e, w') => (Raise e, w')
               end.
Proof. reflexivity. Qed.

Lemma reports_app t1 t2 : reports (t1 ++ t2) = reports t1 ++ reports t2.
Proof. unfold reports. induction t1 as [|e t1 IH]; simpl; [done|]. destruct (is_report e); simpl; by rewrite IH. Qed.

Lemma made_app t1 t2 : made (t1 ++ t2) = made t1 ++ made t2.
Proof. unfold made. apply omap_app. Qed.

Lemma made_io t : Forall (λ e, is_io e = true) t → made t = [].
Proof.
  induction 1 as [|e t He _ IH]; [done|]. unfold made in *. csimpl.
  rewrite IH. by destruct e.
Qed.

Lemma reports_io t : Forall (λ e, is_io e = true) t → reports t = [].
Proof.
  induction 1 as [|e t He _ IH]; [done|]. unfold reports in *. simpl.
  rewrite IH. by destruct e.
Qed.

Lemma extends_io_refl w : extends_io w w.
Proof. exists []. by rewrite app_nil_r. Qed.

Lemma extends_io_files w fs : extends_io w (World fs (trace w)).
Proof. exists []. simpl. by rewrite app_nil_r. Qed.

Lemma extends_io_trans w1 w2 w3 : extends_io w1 w2 → extends_io w2 w3 → extends_io w1 w3.
Proof.
  intros (t1 & H1 & F1) (t2 & H2 & F2). exists (t1 ++ t2).
  rewrite H2, H1, app_assoc. split; [done|]. by apply Forall_app.
Qed.

Lemma extends_io_reports w w' : extends_io w w' → reports (trace w') = reports (trace w).
Proof.
  intros (t & Ht & Hio). by rewrite Ht, reports_app, (reports_io _ Hio), app_nil_r.
Qed.

Lemma extends_io_made w w' : extends_io w w' → made (trace w') = made (trace w).
Proof.
  intros (t & Ht & Hio). by rewrite Ht, made_app, (made_io _ Hio), app_nil_r.
Qed.

Lemma extends_io_can_open w w' path : extends_io w w' → can_open w' path = can_open w path.
Proof.
  intros Hext. unfold can_open, names_dir, dir_exists.
  by rewrite (extends_io_made _ _ Hext).
Qed.

Lemma failure_from_ext get w w' t :
  extends_io w w' → failure_from get w' t = failure_from get w t.
Proof.
  intros Hext. unfold failure_from, failure.
  by rewrite !(extends_io_can_open _ _ _ Hext).
Qed.

(** One step of a pending download. *)
Lemma download_step_spec get url fname st w :
  steps_left st ≠ 0%nat →
  match download_step get url fname st w with
  | (Ok st', w') =>
      failure_from get w (url, fname, st') = failure_from get w (url, fname, st)
      ∧ final get (url, fname, st') = final get (url, fname, st)
      ∧ (steps_left st' < steps_left st)%nat
      ∧ extends_io w w'
      ∧ (∀ path, path ≠ fname → files w' !! path = files w !! path)
      ∧ (may_write get (url, fname, st) = false →
         files w' = files w ∧ may_write get (url, fname, st') = false)
      ∧ (∀ path, is_Some (files w !! path) → is_Some (files w' !! path))
      ∧ (failure_from get w (url, fname, st) = None →
         content_after get (url, fname, st') (files w' !! fname)
         = content_after get (url, fname, st) (files w !! fname))
  | (Raise e, w') =>
      failure_from get w (url, fname, st) = Some e
      ∧ extends_io w w'
      ∧ (∀ path, path ≠ fname → files w' !! path = files w !! path)
      ∧ (may_write get (url, fname, st) = false → files w' = files w)
      ∧ (∀ path, is_Some (files w !! path) → is_Some (files w' !! path))
  end.
Proof.
  intros Hleft. destruct st as [|body|body|data|outcome]; [| | | |done].
  - unfold download_step. rewrite M_bind_run. unfold emit. cbv beta iota.
    rewrite M_bind_run. unfold lift, failure_from, final, may_write, content_after,
      failure, fetch_outcome. simpl.
    assert (Hext : extends_io w (World (files w) (trace w ++ [EvGet url]))).
    { exists [EvGet url]. split; [done|]. by repeat constructor. }
    destruct (respond get url) as [[status body]|e]; simpl.
    + destruct (status =? 200) eqn:Hs; simpl.
      * repeat split; try done; try lia.
        all: try (intros Hnone; destruct (can_open w fname); [|done];
                  by destruct body).
      * repeat split; try done; try lia. intros _. by destruct body.
    + done.
  - unfold download_step. rewrite M_bind_run. unfold open_wb, failure_from, final,
      may_write, content_after. simpl.
    destruct (can_open w fname) eqn:Hd; simpl.
    + repeat split; try done; try lia.
      * apply extends_io_files.
      * intros path Hne. by rewrite lookup_insert_ne.
      * intros path Hsome. destruct (decide (fname = path)) as [->|Hne];
          [rewrite lookup_insert_eq; by eexists | by rewrite lookup_insert_ne].
      * intros Hnone. by destruct body.
    + repeat split; try done. apply extends_io_refl.
  - unfold download_step. rewrite M_bind_run. unfold lift, failure_from, final,
      may_write, content_after. simpl.
    destruct body as [data|e]; simpl.
    + repeat split; try done; try lia. apply extends_io_refl.
    + repeat split; try done. apply extends_io_refl.
  - unfold download_step. rewrite M_bind_run. unfold write_file, failure_from, final,
      may_write, content_after. simpl.
    repeat split; try done; try lia.
    + exists [EvWrite fname data]. split; [done|]. by repeat constructor.
    + intros path Hne. by rewrite lookup_insert_ne.
    + intros path Hsome. destruct (decide (fname = path)) as [->|Hne];
        [rewrite lookup_insert_eq; by eexists | by rewrite lookup_insert_ne].
    + intros _. by rewrite lookup_insert_eq.
Qed.

(** ** The gather over the downloads *)

Lemma steps_total_insert (tasks : list download) i p st st' :
  tasks !! i = Some (p, st) → (steps_left st' < steps_left st)%nat →
  (steps_total (<[i := (p, st')]> tasks) < steps_total tasks)%nat.
Proof.
  unfold steps_total. revert i. induction tasks as [|t tasks IH]; intros i Hi Hlt; [done|].
  destruct i as [|i]; csimpl in *.
  - injection Hi as ->. simpl. lia.
  - specialize (IH i Hi Hlt). lia.
Qed.

Lemma steps_total_zero (tasks : list download) t :
  steps_total tasks = 0%nat → t ∈ tasks → steps_left t.2 = 0%nat.
Proof.
  unfold steps_total. induction tasks as [|t' tasks IH]; intros Hz Hin.
  - by apply elem_of_nil in Hin.
  - csimpl in Hz. apply elem_of_cons in Hin as [->|Hin]; [lia|]. apply IH; [lia|done].
Qed.

Lemma pending_lookup (tasks : list download) k i t :
  pending tasks !! k = Some (i, t) → tasks !! i = Some t ∧ steps_left t.2 ≠ 0%nat.
Proof.
  intros Hk. apply list_elem_of_lookup_2 in Hk. unfold pending in Hk.
  apply list_elem_of_filter in Hk as [Hleft Hin].
  apply elem_of_lookup_imap in Hin as (j & t' & [= -> ->] & Hj). done.
Qed.

Lemma pending_none (tasks : list download) n :
  pending tasks !! (n `mod` length (pending tasks))%nat = None →
  ∀ t, t ∈ tasks → steps_left t.2 = 0%nat.
Proof.
  intros Hnone t Hin. destruct (decide (steps_left t.2 = 0%nat)) as [|Hne]; [done|].
  exfalso. apply list_elem_of_lookup in Hin as [i Hi].
  assert (Hp : (i, t) ∈ pending tasks).
  { unfold pending. apply list_elem_of_filter. split; [done|].
    apply elem_of_lookup_imap. by exists i, t. }
  apply lookup_ge_None in Hnone.
  assert (Hlen : (0 < length (pending tasks))%nat).
  { destruct (pending tasks); [by apply elem_of_nil in Hp | simpl; lia]. }
  pose proof (Nat.mod_upper_bound n (length (pending tasks))). lia.
Qed.

Lemma final_done get (tasks : list download) :
  (∀ t, t ∈ tasks → steps_left t.2 = 0%nat) → outcome_now <$> tasks = final get <$> tasks.
Proof.
  intros Hdone. apply list_fmap_ext. intros i [p st] Hi.
  specialize (Hdone _ (list_elem_of_lookup_2 _ _ _ Hi)). by destruct st.
Qed.

Lemma failure_from_done get w (t : download) :
  steps_left t.2 = 0%nat → failure_from get w t = None.
Proof. destruct t as [p st]. by destruct st. Qed.

Lemma elem_of_insert_inv (tasks : list download) i t t' :
  t ∈ <[i := t']> tasks → t = t' ∨ t ∈ tasks.
Proof.
  intros [j Hj]%list_elem_of_lookup. apply list_lookup_insert_Some in Hj as [(-> & -> & _)|[Hne Hj]].
  - by left.
  - right. by eapply list_elem_of_lookup_2.
Qed.

Lemma elem_of_insert_other (tasks : list download) i t0 t t' :
  tasks !! i = Some t0 → t ∈ tasks → t = t0 ∨ t ∈ <[i := t']> tasks.
Proof.
  intros Hi [j Hj]%list_elem_of_lookup. destruct (decide (i = j)) as [->|Hne].
  - left. congruence.
  - right. apply list_elem_of_lookup. exists j. by rewrite list_lookup_insert_ne.
Qed.

(** The downloads that go on after a failure write to their own files
    only, and remove nothing. *)
Lemma linger_spec get sched : ∀ (tasks : list download) w,
  extends_io w (linger get sched tasks w)
  ∧ (∀ path, (∀ t, t ∈ tasks → t.1.2 = path → may_write get t = false) →
             files (linger get sched tasks w) !! path = files w !! path)
  ∧ (∀ path, is_Some (files w !! path) →
             is_Some (files (linger get sched tasks w) !! path)).
Proof.
  induction sched as [|n sched IH]; intros tasks w.
  { simpl. split; [apply extends_io_refl | done]. }
  simpl linger.
  destruct (pending tasks !! (n `mod` length (pending tasks))%nat)
    as [[i [[url fname] st]]|] eqn:Hpick.
  2:{ split; [apply extends_io_refl | done]. }
  apply pending_lookup in Hpick as [Hi Hleft]. simpl in Hleft.
  pose proof (download_step_spec get url fname st w Hleft) as Hstep.
  destruct (download_step get url fname st w) as [[st'|e] w1].
  - destruct Hstep as (_ & _ & _ & Hext & Hother & Hquiet & Hkeep & _).
    destruct (IH (<[i := (url, fname, st')]> tasks) w1) as (Hext' & Hframe & Hsome).
    split; [by eapply extends_io_trans|]. split.
    + intros path Hno. rewrite Hframe.
      * destruct (decide (path = fname)) as [->|Hne]; [|by apply Hother].
        destruct Hquiet as [-> _]; [|done].
        apply (Hno (url, fname, st)); [by eapply list_elem_of_lookup_2 | done].
      * intros t [->|Hin]%elem_of_insert_inv Hpath; [|by apply Hno].
        simpl in Hpath. subst path. apply Hquiet.
        apply (Hno (url, fname, st)); [by eapply list_elem_of_lookup_2 | done].
    + intros path Hp. by apply Hsome, Hkeep.
  - destruct Hstep as (_ & Hext & Hother & Hquiet & Hkeep).
    destruct (IH (<[i := (url, fname, Downloaded None)]> tasks) w1) as (Hext' & Hframe & Hsome).
    split; [by eapply extends_io_trans|]. split.
    + intros path Hno. rewrite Hframe.
      * destruct (decide (path = fname)) as [->|Hne]; [|by apply Hother].
        rewrite Hquiet; [done|].
        apply (Hno (url, fname, st)); [by eapply list_elem_of_lookup_2 | done].
      * intros t [->|Hin]%elem_of_insert_inv Hpath; [done | by apply Hno].
    + intros path Hp. by apply Hsome, Hkeep.
Qed.

(** What a gather gives, whatever the order of its steps: the outcomes of
    all downloads when none fails, and otherwise the exception of one that
    does. *)
Lemma gather_steps_spec get fuel : ∀ sched (tasks : list download) w,
  (steps_total tasks ≤ fuel)%nat →
  extends_io w (gather_steps get fuel sched tasks w).2
  ∧ ((∀ t, t ∈ tasks → failure_from get w t = None) →
     (gather_steps get fuel sched tasks w).1 = Ok (final get <$> tasks))
  ∧ (∀ l, (gather_steps get fuel sched tasks w).1 = Ok l →
          ∀ t, t ∈ tasks → failure_from get w t = None)
  ∧ (∀ e, (gather_steps get fuel sched tasks w).1 = Raise e →
          ∃ t, t ∈ tasks ∧ failure_from get w t = Some e).
Proof.
  induction fuel as [|fuel IH]; intros sched tasks w Hfuel.
  - assert (Hdone : ∀ t, t ∈ tasks → steps_left t.2 = 0%nat).
    { intros t Hin. apply (steps_total_zero tasks); [lia | done]. }
    assert (Hrun : gather_steps get 0 sched tasks w = (Ok (outcome_now <$> tasks), w)).
    { simpl. by destruct (pending tasks !! _) as [[i [[url fname] st]]|]. }
    rewrite Hrun. simpl. split; [apply extends_io_refl|].
    split; [intros _; by rewrite (final_done get)|].
    split; [|done]. intros l _ t Hin. by apply failure_from_done, Hdone.
  - simpl gather_steps.
    destruct (pending tasks !! (hd 0%nat sched `mod` length (pending tasks))%nat)
      as [[i [[url fname] st]]|] eqn:Hpick.
    2:{ pose proof (pending_none tasks _ Hpick) as Hdone. simpl.
        split; [apply extends_io_refl|].
        split; [intros _; by rewrite (final_done get)|].
        split; [|done]. intros l _ t Hin. by apply failure_from_done, Hdone. }
    apply pending_lookup in Hpick as [Hi Hleft]. simpl in Hleft.
    pose proof (download_step_spec get url fname st w Hleft) as Hstep.
    destruct (download_step get url fname st w) as [[st'|e] w1].
    + destruct Hstep as (Hfail & Hfinal & Hlt & Hext & _).
      destruct (IH (tl sched) (<[i := (url, fname, st')]> tasks) w1)
        as (Hext' & Hok & Hinv & Hraise).
      { pose proof (steps_total_insert tasks i (url, fname) st st' Hi Hlt). lia. }
      split; [by eapply extends_io_trans|]. split; [|split].
      * intros Hnone. rewrite Hok.
        -- f_equal. rewrite list_fmap_insert, Hfinal. apply list_insert_id.
           by rewrite list_lookup_fmap, Hi.
        -- intros t [->|Hin]%elem_of_insert_inv; rewrite (failure_from_ext _ _ _ _ Hext).
           ++ rewrite Hfail. apply Hnone. by eapply list_elem_of_lookup_2.
           ++ by apply Hnone.
      * intros l Hl t Hin. destruct (elem_of_insert_other tasks i _ t (url, fname, st') Hi Hin)
          as [->|Hin'].
        -- rewrite <- Hfail, <- (failure_from_ext get w w1) by done.
           apply (Hinv l Hl). apply list_elem_of_insert. by eapply lookup_lt_Some.
        -- rewrite <- (failure_from_ext get w w1) by done. by apply (Hinv l Hl).
      * intros e He. destruct (Hraise e He) as (t & Hin & Ht).
        rewrite (failure_from_ext _ _ _ _ Hext) in Ht.
        apply elem_of_insert_inv in Hin as [->|Hin].
        -- exists (url, fname, st). split; [by eapply list_elem_of_lookup_2|]. by rewrite <- Hfail.
        -- by exists t.
    + destruct Hstep as (Hfail & Hext & _). simpl.
      split; [eapply extends_io_trans; [exact Hext | apply linger_spec]|]. split; [|split].
      * intros Hnone. rewrite Hnone in Hfail; [done|]. by eapply list_elem_of_lookup_2.
      * done.
      * intros e' [= <-]. exists (url, fname, st). split; [|done].
        by eapply list_elem_of_lookup_2.
Qed.

(** What a gather does to the files, whatever the order of its steps. *)
Lemma gather_steps_files get fuel : ∀ sched (tasks : list download) w,
  (∀ path, (∀ t, t ∈ tasks → t.1.2 = path → may_write get t = false) →
           files (gather_steps get fuel sched tasks w).2 !! path = files w !! path)
  ∧ (∀ path, is_Some (files w !! path) →
             is_Some (files (gather_steps get fuel sched tasks w).2 !! path)).
Proof.
  induction fuel as [|fuel IH]; intros sched tasks w.
  { simpl. by destruct (pending tasks !! _) as [[i [[url fname] st]]|]. }
  simpl gather_steps.
  destruct (pending tasks !! (hd 0%nat sched `mod` length (pending tasks))%nat)
    as [[i [[url fname] st]]|] eqn:Hpick; [|done].
  apply pending_lookup in Hpick as [Hi Hleft]. simpl in Hleft.
  pose proof (download_step_spec get url fname st w Hleft) as Hstep.
  destruct (download_step get url fname st w) as [[st'|e] w1].
  - destruct Hstep as (_ & _ & _ & _ & Hother & Hquiet & Hkeep & _).
    destruct (IH (tl sched) (<[i := (url, fname, st')]> tasks) w1) as [Hframe Hsome].
    split.
    + intros path Hno. rewrite Hframe.
      * destruct (decide (path = fname)) as [->|Hne]; [|by apply Hother].
        destruct Hquiet as [-> _]; [|done].
        apply (Hno (url, fname, st)); [by eapply list_elem_of_lookup_2 | done].
      * intros t [->|Hin]%elem_of_insert_inv Hpath; [|by apply Hno].
        simpl in Hpath. subst path. apply Hquiet.
        apply (Hno (url, fname, st)); [by eapply list_elem_of_lookup_2 | done].
    + intros path Hp. by apply Hsome, Hkeep.
  - destruct Hstep as (_ & _ & Hother & Hquiet & Hkeep). simpl.
    destruct (linger_spec get (tl sched) (<[i := (url, fname, Downloaded None)]> tasks) w1)
      as (_ & Hframe & Hsome).
    split; [|intros path Hp; by apply Hsome, Hkeep].
    intros path Hno. rewrite Hframe.
    + destruct (decide (path = fname)) as [->|Hne]; [|by apply Hother].
      rewrite Hquiet; [done|].
      apply (Hno (url, fname, st)); [by eapply list_elem_of_lookup_2 | done].
    + intros t [->|Hin]%elem_of_insert_inv Hpath; [done | by apply Hno].
Qed.

(** The file of a download that shares its destination with no other
    download, after a gather in which no download fails. *)
Lemma gather_steps_content get fuel : ∀ sched (tasks : list download) w i url path st,
  (steps_total tasks ≤ fuel)%nat →
  (∀ t, t ∈ tasks → failure_from get w t = None) →
  tasks !! i = Some (url, path, st) →
  (∀ j t, tasks !! j = Some t → j ≠ i → t.1.2 ≠ path) →
  files (gather_steps get fuel sched tasks w).2 !! path
  = content_after get (url, path, st) (files w !! path).
Proof.
  induction fuel as [|fuel IH]; intros sched tasks w i url path st Hfuel Hnone Hi Huniq.
  { assert (Hst : steps_left st = 0%nat).
    { apply (steps_total_zero tasks (url, path, st)); [lia|].
      by eapply list_elem_of_lookup_2. }
    simpl. destruct (pending tasks !! _) as [[k [[u f] s]]|]; simpl; by destruct st. }
  simpl gather_steps.
  destruct (pending tasks !! (hd 0%nat sched `mod` length (pending tasks))%nat)
    as [[k [[u f] s]]|] eqn:Hpick.
  2:{ pose proof (pending_none tasks _ Hpick (url, path, st)
                    (list_elem_of_lookup_2 _ _ _ Hi)) as Hst.
      simpl in *. by destruct st. }
  apply pending_lookup in Hpick as [Hk Hleft]. simpl in Hleft.
  pose proof (download_step_spec get u f s w Hleft) as Hstep.
  assert (Hks : failure_from get w (u, f, s) = None).
  { apply Hnone. by eapply list_elem_of_lookup_2. }
  destruct (download_step get u f s w) as [[s'|e] w1].
  2:{ destruct Hstep as (Hfail & _). congruence. }
  destruct Hstep as (Hfail & _ & Hlt & Hext & Hother & _ & _ & Hcontent).
  assert (Hnone' : ∀ t, t ∈ <[k := (u, f, s')]> tasks → failure_from get w1 t = None).
  { intros t [->|Hin]%elem_of_insert_inv; rewrite (failure_from_ext _ _ _ _ Hext).
    - by rewrite Hfail.
    - by apply Hnone. }
  assert (Hfuel' : (steps_total (<[k := (u, f, s')]> tasks) ≤ fuel)%nat).
  { pose proof (steps_total_insert tasks k (u, f) s s' Hk Hlt). lia. }
  destruct (decide (k = i)) as [->|Hne].
  - rewrite Hi in Hk. injection Hk as <- <- <-.
    rewrite (IH (tl sched) _ w1 i url path s' Hfuel' Hnone').
    + by apply Hcontent.
    + apply list_lookup_insert_eq. by eapply lookup_lt_Some.
    + intros j t Hj Hji. rewrite list_lookup_insert_ne in Hj by done. by eapply Huniq.
  - rewrite (IH (tl sched) _ w1 i url path st Hfuel' Hnone').
    + f_equal. apply Hother. intros <-. by apply (Huniq k (u, path, s)).
    + by rewrite list_lookup_insert_ne.
    + intros j t Hj Hji. destruct (decide (k = j)) as [->|Hkj].
      * rewrite list_lookup_insert_eq in Hj by (by eapply lookup_lt_Some).
        injection Hj as <-. simpl. by apply (Huniq j (u, f, s)).
      * rewrite list_lookup_insert_ne in Hj by done. by eapply Huniq.
Qed.

Lemma fetchable_failure get w p : fetchable get w p ↔ failure get w p = None.
Proof.
  unfold fetchable, failure. destruct (respond get p.1) as [[status body]|e].
  - destruct (Z.eqb_spec status 200) as [->|Hne].
    + destruct (can_open w p.2).
      * destruct body as [data|e]; split; try done.
        -- intros _. eexists _, _. split; [done|]. intros _. split; [done|]. by eexists.
        -- intros (? & ? & [= <- <-] & H). by destruct (H eq_refl) as (_ & ? & ?).
      * split; [|done]. intros (? & ? & [= <- <-] & H). by destruct (H eq_refl) as (? & _).
    + split; [done|]. intros _. by eexists _, _.
  - split; [|done]. by intros (? & ? & ? & _).
Qed.

Lemma elem_of_start (pairs : list (string * string)) (t : download) :
  t ∈ (λ p, (p, Requesting)) <$> pairs ↔ ∃ p, t = (p, Requesting) ∧ p ∈ pairs.
Proof. apply list_elem_of_fmap. Qed.

(** Downloads that can all run to their end: the outcomes, in the order
    of the pairs, whatever the order of the steps. *)
Lemma download_all_images_ok get pairs w :
  Forall (fetchable get w) pairs →
  ∃ w', download_all_images get pairs w = (Ok (fetch_outcome get <$> pairs), w')
        ∧ extends_io w w'.
Proof.
  intros Hall. unfold download_all_images, gather.
  destruct (gather_steps_spec get (steps_total ((λ p, (p, Requesting)) <$> pairs))
              (resume get pairs) ((λ p, (p, Requesting)) <$> pairs) w)
    as (Hext & Hok & _); [done|].
  destruct (gather_steps _ _ _ _ _) as [r w'] eqn:Hrun. simpl in *.
  exists w'. split; [|done]. rewrite Hok.
  - f_equal. f_equal. rewrite <- list_fmap_compose. done.
  - intros t (p & -> & Hp)%elem_of_start. unfold failure_from. simpl.
    apply fetchable_failure. rewrite Forall_forall in Hall. by apply Hall.
Qed.

(** A gather raises exactly when one of its downloads fails, and with the
    exception of a download that does. *)
Lemma download_all_images_raise get pairs w :
  ((∃ e, (download_all_images get pairs w).1 = Raise e)
   ↔ existsb (download_fails get w) pairs = true)
  ∧ (∀ e, (download_all_images get pairs w).1 = Raise e →
          ∃ p, p ∈ pairs ∧ failure get w p = Some e)
  ∧ (∀ l, (download_all_images get pairs w).1 = Ok l → l = fetch_outcome get <$> pairs)
  ∧ extends_io w (download_all_images get pairs w).2.
Proof.
  unfold download_all_images, gather.
  destruct (gather_steps_spec get (steps_total ((λ p, (p, Requesting)) <$> pairs))
              (resume get pairs) ((λ p, (p, Requesting)) <$> pairs) w)
    as (Hext & Hok & Hinv & Hraise); [done|].
  destruct (gather_steps _ _ _ _ _) as [r w'] eqn:Hrun. simpl in *.
  assert (Hnone : ∀ l, r = Ok l → ∀ p, p ∈ pairs → failure get w p = None).
  { intros l Hl p Hp. apply (Hinv l Hl (p, Requesting)). apply elem_of_start. by exists p. }
  split; [|split; [|split; [|done]]].
  - split.
    + intros [e He]. destruct (Hraise e He) as (t & (p & -> & Hp)%elem_of_start & Hf).
      apply existsb_exists. exists p. split; [by apply list_elem_of_In|].
      unfold download_fails. unfold failure_from in Hf. simpl in Hf. by rewrite Hf.
    + intros (p & Hp%list_elem_of_In & Hf)%existsb_exists. destruct r as [l|e]; [|by exists e].
      unfold download_fails in Hf. by rewrite (Hnone l eq_refl p Hp) in Hf.
  - intros e He. destruct (Hraise e He) as (t & (p & -> & Hp)%elem_of_start & Hf).
    by exists p.
  - intros l Hl. assert (Hr : r = Ok (final get <$> ((λ p, (p, Requesting)) <$> pairs))).
    { apply Hok. intros t (p & -> & Hp)%elem_of_start. by apply (Hnone l Hl). }
    rewrite Hr in Hl. injection Hl as <-. by rewrite <- list_fmap_compose.
Qed.

Lemma download_all_images_nil get w : download_all_images get [] w = (Ok [], w).
Proof.
  reflexivity.
Qed.

(** ** Directories of the derived file names *)

Lemma prefix_app s t : String.prefix s (s +:+ t) = true.
Proof.
  induction s as [|c s IH]; [by destruct t|].
  change (match Ascii.ascii_dec c c with
          | left _ => String.prefix s (s +:+ t)
          | right _ => false
          end = true).
  destruct (Ascii.ascii_dec c c); [exact IH | done].
Qed.

Lemma append_empty_r s : s +:+ "" = s.
Proof.
  induction s as [|c s IH]; [done|].
  change (String c (s +:+ "") = String c s). by rewrite IH.
Qed.

Lemma append_assoc s t u : (s +:+ t) +:+ u = s +:+ (t +:+ u).
Proof.
  induction s as [|c s IH]; [done|].
  change (String c ((s +:+ t) +:+ u) = String c (s +:+ (t +:+ u))). by rewrite IH.
Qed.

Lemma prefix_refl s : String.prefix s s = true.
Proof. rewrite <- (append_empty_r s) at 2. apply prefix_app. Qed.

Lemma dirname_app s name :
  contains "/" name = false → dirname (s +:+ String "/" name) = s.
Proof.
  intros Hname. induction s as [|c s IH].
  - change (dirname (String "/" name) = ""). simpl. by rewrite Hname.
  - change (dirname (String c (s +:+ String "/" name)) = String c s). simpl.
    rewrite contains_app. simpl. rewrite orb_true_r. by rewrite IH.
Qed.

Lemma dirname_no_slash name : contains "/" name = false → dirname name = "".
Proof. destruct name as [|c name]; simpl; [done|]. by intros [_ ->]%orb_false_iff. Qed.

Lemma ends_with_split s : ends_with "/" s = true → ∃ d, s = d +:+ "/".
Proof.
  induction s as [|c s IH]; [done|]. simpl. destruct s as [|c' s].
  - destruct (Ascii.eqb_spec c "/") as [->|]; [|done]. intros _. by exists "".
  - intros H. destruct (IH H) as [d Hd]. exists (String c d).
    change (String c (String c' s) = String c (d +:+ "/")). by rewrite Hd.
Qed.

Lemma dir_exists_makedirs fs tr out_dir d :
  dir_exists (World fs (tr ++ [EvMakedirs out_dir])) d
  = dir_exists (World fs tr) d || covers out_dir d.
Proof.
  unfold dir_exists. simpl. rewrite made_app, existsb_app. simpl.
  rewrite orb_false_r. by rewrite orb_assoc.
Qed.

(** A relative name without a separator, joined to a directory, lies in
    that directory. *)
Lemma dirname_path_join out_dir name :
  contains "/" name = false →
  String.eqb (dirname (path_join out_dir name)) "" || covers out_dir (dirname (path_join out_dir name))
  = true.
Proof.
  intros Hname. unfold path_join.
  assert (Hrel : starts_with "/" name = false).
  { destruct name as [|c name]; [done|]. simpl in *. by apply orb_false_iff in Hname as [-> _]. }
  rewrite Hrel. destruct (String.eqb_spec out_dir "") as [->|Hne]; simpl.
  { change ("" +:+ name) with name. by rewrite (dirname_no_slash _ Hname). }
  destruct (ends_with "/" out_dir) eqn:Hend.
  - destruct (ends_with_split _ Hend) as [d ->].
    rewrite append_assoc. change ("/" +:+ name) with (String "/" name).
    rewrite (dirname_app _ _ Hname). apply orb_true_iff. right.
    unfold covers, path_join. simpl starts_with. cbv iota.
    rewrite Hend, orb_true_r, !append_empty_r.
    destruct (String.eqb d "" || ends_with "/" d); [apply prefix_app | apply prefix_refl].
  - change ("/" +:+ name) with (String "/" name).
    rewrite (dirname_app _ _ Hname). apply orb_true_iff. right.
    unfold covers. apply prefix_refl.
Qed.

Lemma name_no_slash url :
  contains "." (final_segment url) = true →
  contains "/" (flux_id url +:+ "." +:+ ext url) = false.
Proof.
  intros Hdot. rewrite !contains_app. simpl.
  rewrite flux_id_spec, spec_id_no_slash, ext_spec, contains_slash_lower.
  rewrite (after_last_dot_of_segment _ Hdot). by rewrite file_extension_no_slash.
Qed.

(** The file of a URL whose last segment has an extension lies in the
    output directory itself, which the save has created. *)
Lemma dir_exists_fname fs tr out_dir url :
  contains "." (final_segment url) = true →
  dir_exists (World fs (tr ++ [EvMakedirs out_dir])) (dirname (fname out_dir url)) = true.
Proof.
  intros Hdot. rewrite dir_exists_makedirs. unfold fname.
  pose proof (dirname_path_join out_dir _ (name_no_slash url Hdot)) as Hd.
  apply orb_true_iff in Hd as [Hd|Hd].
  - unfold dir_exists. by rewrite Hd.
  - by rewrite Hd, orb_true_r.
Qed.

(** The file of a pair that shares its destination with no other pair,
    after downloads that all ran to their end. *)
Lemma download_all_images_content get pairs w i url path data :
  Forall (fetchable get w) pairs →
  pairs !! i = Some (url, path) →
  respond get url = Ok (200, Ok data) →
  (∀ j p, pairs !! j = Some p → j ≠ i → p.2 ≠ path) →
  files (download_all_images get pairs w).2 !! path = Some data.
Proof.
  intros Hall Hi Hget Huniq. unfold download_all_images, gather.
  rewrite (gather_steps_content get _ _ _ w i url path Requesting); [| done | | |].
  - unfold content_after. simpl. by rewrite Hget.
  - intros t (p & -> & Hp)%elem_of_start. unfold failure_from. simpl.
    apply fetchable_failure. rewrite Forall_forall in Hall. by apply Hall.
  - by rewrite list_lookup_fmap, Hi.
  - intros j t Hj Hji. rewrite list_lookup_fmap in Hj.
    destruct (pairs !! j) as [p|] eqn:Hp; [|done]. injection Hj as <-. simpl.
    by apply (Huniq j).
Qed.

Lemma can_open_get w fs url path :
  can_open (World fs (trace w ++ [EvGet url])) path = can_open w path.
Proof.
  apply extends_io_can_open. exists [EvGet url]. split; [done|]. by repeat constructor.
Qed.

(** One download, run from its request to its end. *)
Lemma download_image_run get url path w :
  download_image get url path w
  = match respond get url with
    | Raise e => (Raise e, World (files w) (trace w ++ [EvGet url]))
    | Ok (status, body) =>
        if status =? 200 then
          if can_open w path then
            match body with
            | Ok data =>
                (Ok (Some path),
                 World (<[path := data]> (<[path := ""]> (files w)))
                       (trace w ++ [EvGet url; EvWrite path data]))
            | Raise e =>
                (Raise e, World (<[path := ""]> (files w)) (trace w ++ [EvGet url]))
            end
          else (Raise (OSError path), World (files w) (trace w ++ [EvGet url]))
        else (Ok None, World (files w) (trace w ++ [EvGet url]))
    end.
Proof.
  unfold download_image. rewrite M_bind_run. unfold emit. cbv beta iota.
  rewrite M_bind_run. unfold lift. destruct (respond get url) as [[status body]|e]; [|done].
  cbv beta iota. destruct (status =? 200); [|done].
  rewrite M_bind_run. unfold open_wb. rewrite can_open_get.
  destruct (can_open w path); [|done]. cbv beta iota.
  rewrite M_bind_run. destruct body as [data|e]; [|done]. cbv beta iota.
  rewrite M_bind_run. unfold write_file. simpl. by rewrite <- app_assoc.
Qed.

Lemma linger_done get sched url path outcome w :
  linger get sched [(url, path, Downloaded outcome)] w = w.
Proof. by destruct sched. Qed.

Lemma gather_steps_done get fuel sched url path outcome w :
  gather_steps get fuel sched [(url, path, Downloaded outcome)] w = (Ok [outcome], w).
Proof. by destruct fuel. Qed.

Lemma gather_steps_single get fuel sched url path st w :
  steps_left st ≠ 0%nat →
  gather_steps get (S fuel) sched [(url, path, st)] w
  = match download_step get url path st w with
    | (Ok st', w') => gather_steps get fuel (tl sched) [(url, path, st')] w'
    | (Raise e, w') => (Raise e, w')
    end.
Proof.
  intros Hleft.
  assert (Hpending : pending [(url, path, st)] = [(0%nat, (url, path, st))]).
  { by destruct st. }
  change (gather_steps get (S fuel) sched [(url, path, st)] w)
    with (match pending [(url, path, st)]
                !! (hd 0%nat sched `mod` length (pending [(url, path, st)]))%nat with
          | Some (i, (url', fname, st0)) =>
              match download_step get url' fname st0 w with
              | (Ok st', w') =>
                  gather_steps get fuel (tl sched)
                    (<[i := (url', fname, st')]> [(url, path, st)]) w'
              | (Raise e, w') =>
                  (Raise e, linger get (tl sched)
                              (<[i := (url', fname, Downloaded None)]> [(url, path, st)]) w')
              end
          | None => (Ok (outcome_now <$> [(url, path, st)]), w)
          end).
  rewrite Hpending. simpl length. rewrite Nat.mod_1_r. simpl.
  destruct (download_step get url path st w) as [[st'|e] w']; [done|].
  by rewrite linger_done.
Qed.

(** A gather over one download is that download. *)
Lemma download_all_images_single get url path w :
  download_all_images get [(url, path)] w
  = match download_image get url path w with
    | (Ok outcome, w') => (Ok [outcome], w')
    | (Raise e, w') => (Raise e, w')
    end.
Proof.
  rewrite download_image_run. unfold download_all_images, gather.
  change (steps_total _) with 4%nat.
  generalize (resume get [(url, path)]). intros sched.
  change ((λ p : string * string, (p, Requesting)) <$> [(url, path)])
    with [(url, path, Requesting)].
  rewrite gather_steps_single by done.
  unfold download_step at 1. rewrite M_bind_run. unfold emit. cbv beta iota.
  rewrite M_bind_run. unfold lift.
  destruct (respond get url) as [[status body]|e]; [|done]. cbv beta iota.
  destruct (status =? 200); unfold mret, M_ret; cbv beta iota;
    [|by rewrite gather_steps_done].
  rewrite gather_steps_single by done.
  unfold download_step at 1. rewrite M_bind_run. unfold open_wb. rewrite can_open_get.
  destruct (can_open w path); [|done]. unfold mret, M_ret. cbv beta iota.
  rewrite gather_steps_single by done.
  unfold download_step at 1. rewrite M_bind_run. unfold lift.
  destruct body as [data|e]; [|done]. unfold mret, M_ret. cbv beta iota.
  rewrite gather_steps_single by done.
  unfold download_step. rewrite M_bind_run. unfold write_file, mret, M_ret. cbv beta iota.
  rewrite gather_steps_done. simpl. by rewrite <- app_assoc.
Qed.

(** One download on its own, when it can run to its end. *)
Lemma download_image_ok get url path w :
  fetchable get w (url, path) →
  (download_image get url path w).1 = Ok (fetch_outcome get (url, path)).
Proof.
  intros (status & body & Hget & Hok). simpl in Hget, Hok.
  rewrite download_image_run. unfold fetch_outcome. simpl. rewrite Hget.
  destruct (Z.eqb_spec status 200) as [->|Hne]; [|done].
  destruct (Hok eq_refl) as (Hdir & data & ->). by rewrite Hdir.
Qed.

(** A download whose file cannot be opened raises, after the request: a
    status of 200 is no outcome yet. *)
Lemma download_image_cannot_open get url path body w :
  respond get url = Ok (200, body) →
  can_open w path = false →
  download_image get url path w
  = (Raise (OSError path), World (files w) (trace w ++ [EvGet url])).
Proof. intros Hget Hdir. rewrite download_image_run, Hget. simpl. by rewrite Hdir. Qed.


(** C4, as the code has it.  When every fetch gets a response and every
    body answered 200 can be stored - the directory of its destination
    exists and the body can be read - downloading N (url, path) pairs
    returns exactly N outcomes, outcome i being that of pair i alone: it is
    what the single fetch of that pair yields, the destination path when
    the status is 200 and an absent value for every other status (in
    particular every non-2xx status), without raising.  The outcomes do
    not depend on the order in which the downloads progress; a file that
    is the destination of one pair only holds the body of that pair. *)
Theorem download_all_images_positional get pairs w :
  Forall (fetchable get w) pairs →
  ∃ outcomes w',
    download_all_images get pairs w = (Ok outcomes, w')
    ∧ length outcomes = length pairs
    ∧ (∀ order, (download_all_images (Http (respond get) order) pairs w).1 = Ok outcomes)
    ∧ ∀ (i : nat) url path, pairs !! i = Some (url, path) →
        outcomes !! i = Some (fetch_outcome get (url, path))
        ∧ (download_image get url path w).1 = Ok (fetch_outcome get (url, path))
        ∧ (∀ status body, respond get url = Ok (status, body) →
             (status = 200 → fetch_outcome get (url, path) = Some path)
             ∧ (status ≠ 200 → fetch_outcome get (url, path) = None)
             ∧ (¬ success_status status → fetch_outcome get (url, path) = None))
        ∧ (∀ data, respond get url = Ok (200, Ok data) →
             (∀ j p, pairs !! j = Some p → j ≠ i → p.2 ≠ path) →
             files w' !! path = Some data).
Proof.
  intros Hall. destruct (download_all_images_ok get pairs w Hall) as (w' & Hrun & Hext).
  exists (fetch_outcome get <$> pairs), w'. split; [done|].
  split; [by rewrite length_fmap|]. split.
  { intros order.
    destruct (download_all_images_ok (Http (respond get) order) pairs w) as (w2 & Hrun2 & _);
      [exact Hall|]. by rewrite Hrun2. }
  intros i url path Hi.
  assert (Hone : fetchable get w (url, path)).
  { rewrite Forall_forall in Hall. apply Hall. by eapply list_elem_of_lookup_2. }
  split; [by rewrite list_lookup_fmap, Hi|].
  split; [by apply download_image_ok|]. split.
  - intros status body Hget. unfold fetch_outcome, success_status. simpl. rewrite Hget.
    repeat split.
    + by intros ->.
    + intros Hne. by rewrite (proj2 (Z.eqb_neq status 200)).
    + intros Hne. rewrite (proj2 (Z.eqb_neq status 200)); [done | lia].
  - intros data Hget Huniq.
    apply (f_equal snd) in Hrun. simpl in Hrun. rewrite <- Hrun.
    apply download_all_images_content with (i := i) (url := url); done.
Qed.

(** C4, as the specification states it, does not hold: a fetch answered
    with the successful status 204 yields an absent value, not the
    destination path. *)
Lemma download_image_success_is_200_only :
  ¬ fetch_as_stated sample_get "https://cdn.example/m/cccccccc3333_2.png"
      "out/cccccccc.png" out_world.
Proof.
  intros H. destruct (H 204 (Ok "") eq_refl) as [Hsucc _].
  assert (Hs : success_status 204) by (unfold success_status; lia).
  specialize (Hsucc Hs). vm_compute in Hsucc. discriminate.
Qed.

Lemma sample_pairs_fetchable :
  Forall (fetchable sample_get out_world)
    [ ("https://cdn.example/m/aaaaaaaa1111_0.png", "out/aaaaaaaa.png");
      ("https://cdn.example/m/bbbbbbbb2222_1.png", "out/bbbbbbbb.png");
      ("https://cdn.example/m/cccccccc3333_2.png", "out/cccccccc.png") ].
Proof.
  repeat constructor; eexists _, _; (split; [reflexivity|]); intros Hs; try done.
  split; [reflexivity | by eexists].
Qed.

(** The positional outcomes on three sample pairs: statuses 404, 200, 204. *)
Lemma download_all_images_positional_witness :
  ∃ w',
    download_all_images sample_get
      [ ("https://cdn.example/m/aaaaaaaa1111_0.png", "out/aaaaaaaa.png");
        ("https://cdn.example/m/bbbbbbbb2222_1.png", "out/bbbbbbbb.png");
        ("https://cdn.example/m/cccccccc3333_2.png", "out/cccccccc.png") ] out_world
    = (Ok [None; Some "out/bbbbbbbb.png"; None], w').
Proof.
  destruct (download_all_images_positional sample_get
      [ ("https://cdn.example/m/aaaaaaaa1111_0.png", "out/aaaaaaaa.png");
        ("https://cdn.example/m/bbbbbbbb2222_1.png", "out/bbbbbbbb.png");
        ("https://cdn.example/m/cccccccc3333_2.png", "out/cccccccc.png") ] out_world
      sample_pairs_fetchable)
    as (outcomes & w' & Hrun & _).
  exists w'. rewrite Hrun. apply (f_equal fst) in Hrun. vm_compute in Hrun.
  injection Hrun as <-. reflexivity.
Defined.

Lemma save_generated_images_no_images get result out_dir w :
  result = None ∨ (∃ r, result = Some r ∧ r !! "images" = None) →
  save_generated_images get result out_dir w = (Ok None, w).
Proof.
  intros [-> | (r & -> & Hr)]; [done|].
  unfold save_generated_images. rewrite Hr. by destruct (size r =? 0)%nat.
Qed.

Lemma size_pos_of_lookup (r : dict) k v : r !! k = Some v → (size r =? 0)%nat = false.
Proof.
  intros Hk. apply Nat.eqb_neq. intros Hz. apply map_size_empty_iff in Hz.
  subst. by rewrite lookup_empty in Hk.
Qed.

(** [save_generated_images] on a record with an [images] entry: create the
    directory, derive the pairs, download. *)
Lemma save_generated_images_run get r images out_dir w :
  r !! "images" = Some images →
  save_generated_images get (Some r) out_dir w
  = (makedirs out_dir ;;
     urls_and_files ← lift (py_iter images ≫= for_each (url_and_file out_dir));
     downloaded ← download_all_images get urls_and_files;
     mret (match downloaded with first :: _ => first | [] => None end)) w.
Proof.
  intros Hr. unfold save_generated_images.
  by rewrite (size_pos_of_lookup _ _ _ Hr), Hr.
Qed.

(** C10.  An absent record, and a record without an [images] entry, give an
    absent value and leave the world as it was (no directory, no download,
    no file); a record with an empty [images] list gives an absent value,
    fetches nothing and writes nothing. *)
Theorem save_generated_images_nothing_to_save get out_dir w :
  save_generated_images get None out_dir w = (Ok None, w)
  ∧ save_generated_images get (Some ∅) out_dir w = (Ok None, w)
  ∧ (∀ r, r !! "images" = None →
       save_generated_images get (Some r) out_dir w = (Ok None, w))
  ∧ (∀ r, r !! "images" = Some (JArr []) →
       ∃ w', save_generated_images get (Some r) out_dir w = (Ok None, w')
             ∧ files w' = files w
             ∧ trace w' = trace w ++ [EvMakedirs out_dir]).
Proof.
  split; [done|]. split; [done|]. split.
  - intros r Hr. apply save_generated_images_no_images. right. by exists r.
  - intros r Hr. rewrite (save_generated_images_run _ _ _ _ _ Hr).
    by eexists.
Qed.

Lemma for_each_urls out_dir imgs urls :
  Forall2 (λ img url, py_getitem img "url" = Ok (JStr url)) imgs urls →
  for_each (url_and_file out_dir) imgs = Ok ((λ url, (url, fname out_dir url)) <$> urls).
Proof.
  induction 1 as [|img url imgs urls Himg _ IH]; [done|].
  simpl. rewrite IH. unfold url_and_file. rewrite Himg. reflexivity.
Qed.

(** What a save does once the output directory is there: the downloads of
    the pairs of its record. *)
Lemma save_generated_images_downloads get r images pairs out_dir w :
  r !! "images" = Some images →
  py_iter images ≫= for_each (url_and_file out_dir) = Ok pairs →
  save_generated_images get (Some r) out_dir w
  = match download_all_images get pairs (World (files w) (trace w ++ [EvMakedirs out_dir])) with
    | (Ok downloaded, w') =>
        (Ok (match downloaded with first :: _ => first | [] => None end), w')
    | (Raise e, w') => (Raise e, w')
    end.
Proof.
  intros Hr Hpairs. rewrite (save_generated_images_run _ _ _ _ _ Hr).
  rewrite M_bind_run. unfold makedirs, emit. cbv beta iota.
  rewrite M_bind_run. unfold lift. rewrite Hpairs. cbv beta iota.
  by rewrite M_bind_run.
Qed.

(** A URL whose last segment has an extension, fetched with a response
    whose body - for a status of 200 - can be read, can be saved when its
    file name is not that of a directory: the file lies in the output
    directory, which the save creates. *)
Lemma fetchable_with_extension get fs tr out_dir url :
  contains "." (final_segment url) = true →
  names_dir (World fs (tr ++ [EvMakedirs out_dir])) (fname out_dir url) = false →
  (∃ status body, respond get url = Ok (status, body)
                  ∧ (status = 200 → ∃ data, body = Ok data)) →
  fetchable get (World fs (tr ++ [EvMakedirs out_dir])) (url, fname out_dir url).
Proof.
  intros Hdot Hfile (status & body & Hget & Hbody). exists status, body. split; [done|].
  intros Hs. split; [|by apply Hbody].
  unfold can_open. simpl fst. simpl snd. by rewrite (dir_exists_fname _ _ _ _ Hdot), Hfile.
Qed.

(** C5, as the code has it.  For a record whose media descriptors each carry
    a text URL, and whose downloads can all run to their end - every fetch
    gets a response, and for a status of 200 the directory of the derived
    file exists once the output directory is created and the body can be
    read - the save operation returns the outcome of the first
    descriptor's download: its destination path when that fetch had
    status 200, an absent value otherwise, whatever the later downloads
    did. *)
Theorem save_generated_images_first_outcome get r out_dir img imgs url urls w :
  r !! "images" = Some (JArr (img :: imgs)) →
  Forall2 (λ img url, py_getitem img "url" = Ok (JStr url)) (img :: imgs) (url :: urls) →
  Forall (λ url, fetchable get (World (files w) (trace w ++ [EvMakedirs out_dir]))
                   (url, fname out_dir url)) (url :: urls) →
  (save_generated_images get (Some r) out_dir w).1
  = Ok (fetch_outcome get (url, fname out_dir url)).
Proof.
  intros Hr Himgs Hfetch.
  rewrite (save_generated_images_downloads get r _
             ((λ url, (url, fname out_dir url)) <$> (url :: urls)) out_dir w Hr).
  2:{ exact (for_each_urls _ _ _ Himgs). }
  destruct (download_all_images_ok get ((λ url, (url, fname out_dir url)) <$> (url :: urls))
              (World (files w) (trace w ++ [EvMakedirs out_dir]))) as (w' & Hrun & _).
  { apply Forall_fmap. eapply Forall_impl; [exact Hfetch|]. done. }
  rewrite Hrun. reflexivity.
Qed.

(** C5, as the specification states it, does not hold: the first of two
    downloads is answered 404 and the second is written, yet the operation
    returns an absent value. *)
Lemma save_generated_images_first_not_first_written :
  (save_generated_images sample_get (Some sample_result) "out" empty_world).1 = Ok None
  ∧ first_written
      (fetch_outcome sample_get <$>
         [ ("https://cdn.example/m/aaaaaaaa1111_0.png", "out/aaaaaaaa.png");
           ("https://cdn.example/m/bbbbbbbb2222_1.png", "out/bbbbbbbb.png") ])
    = Some "out/bbbbbbbb.png"
  ∧ files (save_generated_images sample_get (Some sample_result) "out" empty_world).2
      !! "out/bbbbbbbb.png"
    = Some "PNG:https://cdn.example/m/bbbbbbbb2222_1.png".
Proof. split; [|split]; by vm_compute. Qed.

(** The first outcome on a sample record whose first download succeeds. *)
Lemma save_generated_images_first_outcome_witness :
  (save_generated_images sample_get
     (Some {[ "images" := JArr [ JObj {[ "url" := JStr "https://cdn.example/m/bbbbbbbb2222_1.png" ]};
                                 JObj {[ "url" := JStr "https://cdn.example/m/aaaaaaaa1111_0.png" ]} ] ]})
     "out" empty_world).1
  = Ok (Some "out/bbbbbbbb.png").
Proof.
  rewrite (save_generated_images_first_outcome sample_get _ "out"
             (JObj {[ "url" := JStr "https://cdn.example/m/bbbbbbbb2222_1.png" ]})
             [JObj {[ "url" := JStr "https://cdn.example/m/aaaaaaaa1111_0.png" ]}]
             "https://cdn.example/m/bbbbbbbb2222_1.png"
             ["https://cdn.example/m/aaaaaaaa1111_0.png"]).
  - by vm_compute.
  - by vm_compute.
  - repeat constructor.
  - repeat constructor; apply fetchable_with_extension; try reflexivity;
      eexists _, _; (split; [reflexivity|]); intros Hs; try done; by eexists.
Defined.

(** A URL without an extension in its last segment: the derived name has
    separators in it, the file would lie in a directory nobody created,
    and the save raises although the fetch was answered 200. *)
Lemma save_generated_images_no_extension :
  save_generated_images sample_get
    (Some {[ "images" := JArr [ JObj {[ "url" := JStr "https://cdn.example/m/0a1b2c3d4e5f" ]} ] ]})
    "out" empty_world
  = (Raise (OSError "out/0a1b2c3d.example/m/0a1b2c3d4e5f"),
     World ∅ [EvMakedirs "out"; EvGet "https://cdn.example/m/0a1b2c3d4e5f"]).
Proof. by vm_compute. Qed.

(** ** File names of media URLs *)




(** A URL whose final segment has no dot: the text after the last dot of
    the URL is taken, here with a separator in it. *)
Example fname_without_extension :
  fname "out" "https://cdn.example/m/0a1b2c3d4e5f" = "out/0a1b2c3d.example/m/0a1b2c3d4e5f".
Proof. reflexivity. Qed.

(** ** Request dispatcher: the poll loop *)

Section poll.
Context (fal : FalClient) (endpoint request_id : string) (poll : Z).

Lemma polls_S n :
  polls endpoint request_id poll (S n)
  = NetStatus endpoint request_id :: NetSleep poll :: polls endpoint request_id poll n.
Proof. reflexivity. Qed.

(** Completion at the [n]-th query from [k] on, after [n] pending ones. *)
Lemma poll_loop_completes n : ∀ k fuel,
  (∀ j, (j < n)%nat → still_pending fal endpoint request_id (k + j)) →
  reports_completion fal endpoint request_id (k + n) →
  (n < fuel)%nat →
  poll_loop fal endpoint request_id poll fuel k
  = (Some (result_async fal endpoint request_id),
     polls endpoint request_id poll n
       ++ [NetStatus endpoint request_id; NetResult endpoint request_id]).
Proof.
  induction n as [|n IH]; intros k [|fuel] Hpend Hdone Hfuel; try lia.
  - destruct Hdone as (status & s & Hst & Hs & Hc). rewrite Nat.add_0_r in Hst.
    simpl. by rewrite Hst, Hs, Hc.
  - destruct (Hpend 0%nat) as (status & s & Hst & Hs & Hc); [lia|].
    rewrite Nat.add_0_r in Hst. simpl poll_loop. rewrite Hst, Hs, Hc.
    rewrite (IH (S k) fuel); [by rewrite polls_S | | | lia].
    + intros j Hj. replace (S k + j)%nat with (k + S j)%nat by lia. apply Hpend. lia.
    + by replace (S k + n)%nat with (k + S n)%nat by lia.
Qed.

(** No deadline: while the status stays pending, the loop keeps polling. *)
Lemma poll_loop_pending fuel : ∀ k,
  (∀ j, still_pending fal endpoint request_id (k + j)) →
  poll_loop fal endpoint request_id poll fuel k
  = (None, polls endpoint request_id poll fuel).
Proof.
  induction fuel as [|fuel IH]; intros k Hpend; [done|].
  destruct (Hpend 0%nat) as (status & s & Hst & Hs & Hc).
  rewrite Nat.add_0_r in Hst. simpl poll_loop. rewrite Hst, Hs, Hc.
  rewrite (IH (S k)); [by rewrite polls_S|].
  intros j. replace (S k + j)%nat with (k + S j)%nat by lia. apply Hpend.
Qed.

(** The loop returns a result only after a query that reports completion. *)
Lemma poll_loop_returns fuel : ∀ k r,
  (poll_loop fal endpoint request_id poll fuel k).1 = Some (Ok r) →
  ∃ n, (n < fuel)%nat ∧ reports_completion fal endpoint request_id (k + n)
       ∧ result_async fal endpoint request_id = Ok r.
Proof.
  induction fuel as [|fuel IH]; intros k r; [done|].
  simpl. destruct (status_async fal endpoint request_id k) as [status|e] eqn:Hst; [|done].
  destruct (status !! "status") as [s|] eqn:Hs; [|done].
  destruct (completed s) eqn:Hc.
  - simpl. intros [= Hres]. exists 0%nat. split; [lia|]. split; [|done].
    rewrite Nat.add_0_r. by exists status, s.
  - destruct (poll_loop fal endpoint request_id poll fuel (S k)) as [r' t] eqn:Hloop.
    simpl. intros ->.
    destruct (IH (S k) r) as (n & Hn & Hdone & Hres); [by rewrite Hloop|].
    exists (S n). split; [lia|]. split; [|done].
    by replace (k + S n)%nat with (S k + n)%nat by lia.
Qed.

End poll.

(** C8.  The poll-mode dispatcher submits first; if status query [n] is the
    first to report completion, it returns what fetching the result gives,
    after [n] status checks each followed by a sleep of the poll interval
    and one last check (for every fuel above [n]); if no query ever reports
    completion it never returns a result, and while the status stays
    pending it never stops polling, however much fuel it gets: there is no
    deadline. *)
Theorem submit_request_polls fal endpoint args poll request_id :
  submit_async fal endpoint args = Ok request_id →
  (∀ n, (∀ k, (k < n)%nat → still_pending fal endpoint request_id k) →
        reports_completion fal endpoint request_id n →
        ∀ fuel, (n < fuel)%nat →
          submit_request fal endpoint args poll fuel
          = (Some (result_async fal endpoint request_id),
             NetSubmit endpoint args
               :: polls endpoint request_id poll n
               ++ [NetStatus endpoint request_id; NetResult endpoint request_id]))
  ∧ ((∀ k, ¬ reports_completion fal endpoint request_id k) →
       ∀ fuel r, (submit_request fal endpoint args poll fuel).1 ≠ Some (Ok r))
  ∧ ((∀ k, still_pending fal endpoint request_id k) →
       ∀ fuel, submit_request fal endpoint args poll fuel
               = (None, NetSubmit endpoint args :: polls endpoint request_id poll fuel)).
Proof.
  intros Hsubmit. unfold submit_request. rewrite Hsubmit. split; [|split].
  - intros n Hpend Hdone fuel Hfuel.
    by rewrite (poll_loop_completes fal endpoint request_id poll n 0 fuel).
  - intros Hnever fuel r Hret.
    destruct (poll_loop fal endpoint request_id poll fuel 0) as [r' t] eqn:Hloop.
    simpl in Hret. subst r'.
    destruct (poll_loop_returns fal endpoint request_id poll fuel 0 r) as (n & _ & Hdone & _);
      [by rewrite Hloop|].
    by apply (Hnever n).
  - intros Hpend fuel.
    by rewrite (poll_loop_pending fal endpoint request_id poll fuel 0).
Qed.

(** The sample service completes at its third status query: two sleeps of
    the poll interval, then the result. *)
Lemma submit_request_polls_witness :
  submit_request sample_fal "fal-ai/flux-pro/new" ∅ POLL_INTERVAL 3
  = (Some (Ok sample_result),
     [ NetSubmit "fal-ai/flux-pro/new" ∅;
       NetStatus "fal-ai/flux-pro/new" "req-1"; NetSleep 2;
       NetStatus "fal-ai/flux-pro/new" "req-1"; NetSleep 2;
       NetStatus "fal-ai/flux-pro/new" "req-1"; NetResult "fal-ai/flux-pro/new" "req-1" ]).
Proof.
  destruct (submit_request_polls sample_fal "fal-ai/flux-pro/new" ∅ POLL_INTERVAL "req-1"
              eq_refl) as (Hdone & _).
  apply (Hdone 2%nat); [| |lia].
  - intros k Hk. eexists _, _. split; [reflexivity|].
    destruct k as [|[|k]]; [by vm_compute | by vm_compute | lia].
  - eexists _, _. split; [reflexivity|]. by vm_compute.
Defined.

(** ** Batch orchestrator *)

Example generate_images_one_of_three_fails :
  let '(r, w) :=
    generate_images sample_fals sample_get 10 [2; 0; 0]%nat
      "a prompt" 3 "out" "pro" None None (Some "square") None None None None
      None None None (Some 40) None "subscribe" empty_world in
  (length <$> (match r with Some (Ok l) => Some l | _ => None end)) = Some 2%nat
  ∧ reports (trace w) = [EvPrintError (ClientError "service unavailable"); EvPrintFailed 1].
Proof. by vm_compute. Qed.


(** Saving the media of a record prints nothing and creates no directory
    but the output directory; it raises exactly when one of its downloads
    fails, or when the media cannot be read. *)
Lemma save_generated_images_spec get data out_dir w :
  reports (trace (save_generated_images get (Some data) out_dir w).2) = reports (trace w)
  ∧ (made (trace (save_generated_images get (Some data) out_dir w).2) = made (trace w)
     ∨ made (trace (save_generated_images get (Some data) out_dir w).2)
       = made (trace w) ++ [out_dir])
  ∧ ((∃ e, (save_generated_images get (Some data) out_dir w).1 = Raise e)
     ↔ save_fails get out_dir w data = true).
Proof.
  unfold save_generated_images, save_fails.
  destruct (size data =? 0)%nat.
  { simpl. split; [done|]. split; [by left|]. split; [by intros [e ?] | done]. }
  destruct (data !! "images") as [images|].
  2:{ simpl. split; [done|]. split; [by left|]. split; [by intros [e ?] | done]. }
  rewrite M_bind_run. unfold makedirs, emit. cbv beta iota.
  rewrite M_bind_run. unfold lift.
  destruct (py_iter images ≫= for_each (url_and_file out_dir)) as [pairs|e];
    cbv beta iota.
  - rewrite M_bind_run.
    destruct (download_all_images_raise get pairs
                (World (files w) (trace w ++ [EvMakedirs out_dir])))
      as (Hiff & _ & _ & Hext).
    destruct (download_all_images get pairs _) as [[downloaded|e] w2]; simpl in *.
    + rewrite (extends_io_reports _ _ Hext), (extends_io_made _ _ Hext). simpl.
      rewrite reports_app, made_app. simpl. rewrite app_nil_r.
      split; [done|]. split; [by right|]. rewrite <- Hiff.
      split; intros [e He]; discriminate He.
    + rewrite (extends_io_reports _ _ Hext), (extends_io_made _ _ Hext). simpl.
      rewrite reports_app, made_app. simpl. rewrite app_nil_r.
      split; [done|]. split; [by right|]. rewrite <- Hiff.
      split; intros _; by exists e.
  - simpl. rewrite reports_app, made_app. simpl. rewrite app_nil_r.
    split; [done|]. split; [by right|]. split; [done | intros _; by exists e].
Qed.

(** Saving media prints nothing. *)
Lemma reports_save_generated_images get result out_dir w :
  reports (trace (save_generated_images get result out_dir w).2) = reports (trace w).
Proof.
  destruct result as [r|]; [|done]. apply save_generated_images_spec.
Qed.

(** The [try] body: it yields the awaited record or raises, prints nothing
    itself, and raises on a record exactly when the save of its media
    does. *)
Lemma try_body_spec get out_dir outcome w :
  reports (trace (try_body get out_dir outcome w).2) = reports (trace w)
  ∧ (∀ data, (try_body get out_dir outcome w).1 = Ok data → outcome = Ok data)
  ∧ (made (trace (try_body get out_dir outcome w).2) = made (trace w)
     ∨ made (trace (try_body get out_dir outcome w).2) = made (trace w) ++ [out_dir])
  ∧ (∀ data, outcome = Ok data →
       (try_body get out_dir outcome w).1
       = if String.eqb out_dir "" then Ok data
         else match (save_generated_images get (Some data) out_dir w).1 with
              | Ok _ => Ok data
              | Raise e => Raise e
              end).
Proof.
  unfold try_body. destruct outcome as [data|e].
  2:{ simpl. split; [done|]. split; [done|]. split; [by left | done]. }
  rewrite M_bind_run. unfold lift. cbv beta iota. rewrite M_bind_run.
  destruct (String.eqb out_dir ""); cbn [negb].
  - simpl. split; [done|]. split; [by intros ? [= <-]|]. split; [by left|].
    by intros ? [= <-].
  - rewrite M_bind_run.
    destruct (save_generated_images_spec get data out_dir w) as (Hrep & Hmade & _).
    destruct (save_generated_images get (Some data) out_dir w) as [[saved|e] w1] eqn:Hsave;
      cbn [fst snd] in *.
    + split; [done|]. split; [by intros ? [= <-]|]. split; [done|].
      intros ? [= <-]. by rewrite Hsave.
    + split; [done|]. split; [done|]. split; [done|].
      intros ? [= <-]. by rewrite Hsave.
Qed.

Lemma same_dirs_refl out_dir w : same_dirs out_dir w w.
Proof. by intros d. Qed.

Lemma same_dirs_step out_dir w0 w w' :
  same_dirs out_dir w0 w →
  made (trace w') = made (trace w) ∨ made (trace w') = made (trace w) ++ [out_dir] →
  same_dirs out_dir w0 w'.
Proof.
  intros Hsame [Hm|Hm] d; rewrite Hm; [apply Hsame|].
  rewrite <- (Hsame d), !existsb_app. simpl. rewrite orb_false_r.
  by destruct (existsb _ (made (trace w))), (covers out_dir d).
Qed.

(** Whether a file can be opened once the output directory is there
    depends on the directories only. *)
Lemma same_dirs_can_open out_dir w0 w fs0 fs path :
  same_dirs out_dir w0 w →
  can_open (World fs (trace w ++ [EvMakedirs out_dir])) path
  = can_open (World fs0 (trace w0 ++ [EvMakedirs out_dir])) path.
Proof.
  intros Hsame. unfold can_open, names_dir, dir_exists. simpl.
  rewrite !made_app. simpl. by rewrite !Hsame.
Qed.

Lemma same_dirs_save_fails get out_dir w0 w data :
  same_dirs out_dir w0 w → save_fails get out_dir w data = save_fails get out_dir w0 data.
Proof.
  intros Hsame. unfold save_fails.
  destruct (size data =? 0)%nat; [done|].
  destruct (data !! "images") as [images|]; [|done].
  destruct (py_iter images ≫= for_each (url_and_file out_dir)) as [pairs|e]; [|done].
  induction pairs as [|p pairs IH]; [done|]. simpl. rewrite IH. f_equal.
  unfold download_fails, failure.
  by rewrite (same_dirs_can_open out_dir w0 w (files w0) (files w) p.2 Hsame).
Qed.

(** The [try] body on one completed request: the record is kept or the
    exception is counted, as [kept] says. *)
Lemma try_body_kept get out_dir w0 outcome w :
  same_dirs out_dir w0 w →
  match (try_body get out_dir outcome w).1 with
  | Ok data => outcome = Ok data ∧ kept get out_dir w0 outcome = Some data
  | Raise _ => kept get out_dir w0 outcome = None
  end.
Proof.
  intros Hsame. destruct (try_body_spec get out_dir outcome w) as (_ & _ & _ & Hrun).
  destruct outcome as [data|e]; [|done].
  rewrite (Hrun data eq_refl). unfold kept.
  destruct (String.eqb out_dir ""); [done|].
  rewrite <- (same_dirs_save_fails get out_dir w0 w data Hsame).
  destruct (save_generated_images_spec get data out_dir w) as (_ & _ & Hiff).
  destruct (save_generated_images get (Some data) out_dir w).1 as [saved|e] eqn:Hsave.
  - destruct (save_fails get out_dir w data); [|done].
    destruct (proj2 Hiff eq_refl) as [e He]. discriminate He.
  - rewrite (proj1 Hiff); [done | by exists e].
Qed.

Lemma omap_cons_Some {A B} (f : A → option B) x y l :
  f x = Some y → omap f (x :: l) = y :: omap f l.
Proof. intros H. csimpl. by rewrite H. Qed.

Lemma omap_cons_None {A B} (f : A → option B) x l :
  f x = None → omap f (x :: l) = omap f l.
Proof. intros H. csimpl. by rewrite H. Qed.

(** The loop: every completed request ends up in exactly one of the result
    list and the failure count, each failure with its printed line; the
    records are those of the requests that succeeded and whose media could
    be saved, in the order of completion. *)
Lemma collect_spec get out_dir w0 completed : ∀ results failed w,
  same_dirs out_dir w0 w →
  ∃ errors,
    (collect get out_dir completed results failed w).1.1
    = results ++ omap (kept get out_dir w0) completed
    ∧ (collect get out_dir completed results failed w).1.2 = (failed + length errors)%nat
    ∧ (length (omap (kept get out_dir w0) completed) + length errors
       = length completed)%nat
    ∧ reports (trace (collect get out_dir completed results failed w).2)
      = reports (trace w) ++ (EvPrintError <$> errors).
Proof.
  induction completed as [|outcome rest IH]; intros results failed w Hsame.
  { exists []. simpl. by rewrite !app_nil_r, Nat.add_0_r. }
  simpl collect. pose proof (try_body_kept get out_dir w0 outcome w Hsame) as Hk.
  destruct (try_body_spec get out_dir outcome w) as (Hrep & _ & Hmade & _).
  destruct (try_body get out_dir outcome w) as [[data|e] w1]; simpl in Hk, Hrep, Hmade.
  - destruct Hk as [-> Hk].
    destruct (IH (results ++ [data]) failed w1) as (errors & H1 & H2 & H3 & H4).
    { by eapply same_dirs_step. }
    exists errors. rewrite H1, H2, H4, Hrep, (omap_cons_Some _ _ _ _ Hk), <- app_assoc.
    simpl. repeat split; lia.
  - destruct (IH results (S failed) (World (files w1) (trace w1 ++ [EvPrintError e])))
      as (errors & H1 & H2 & H3 & H4).
    { eapply same_dirs_step; [exact Hsame|]. simpl. rewrite made_app. simpl.
      rewrite app_nil_r. exact Hmade. }
    exists (e :: errors). rewrite H1, H2, H4, (omap_cons_None _ _ _ Hk).
    simpl. rewrite reports_app, Hrep, <- app_assoc. simpl.
    repeat split; lia.
Qed.


(** Whatever the scheduler picks, the completion order is a rearrangement
    of the tasks. *)
Lemma as_completed_Permutation {A} (l : list A) : ∀ picks,
  as_completed picks l (length l) ≡ₚ l.
Proof.
  remember (length l) as n eqn:Hn. revert l Hn.
  induction n as [|n IH]; intros l Hn picks.
  { by destruct l. }
  simpl. set (k := (hd 0%nat picks `mod` length l)%nat).
  assert (Hk : (k < length l)%nat).
  { apply Nat.mod_upper_bound. lia. }
  destruct (lookup_lt_is_Some_2 l k Hk) as [x Hx]. rewrite Hx.
  transitivity (x :: delete k l); [|symmetry; by apply delete_Permutation].
  constructor. apply IH. rewrite length_delete; [lia | by eexists].
Qed.

Lemma omap_id_Some {A} (l : list A) : omap id (Some <$> l) = l.
Proof. induction l as [|x l IH]; csimpl; [done|]. by rewrite IH. Qed.

Lemma batch_payloads_lookup base_args seed count i :
  (i < Z.to_nat count)%nat →
  batch_payloads base_args seed count !! i = Some (task_args base_args seed i).
Proof.
  intros Hi. unfold batch_payloads. rewrite list_lookup_fmap, lookup_seq_lt; done.
Qed.

Lemma batch_payloads_length base_args seed count :
  length (batch_payloads base_args seed count) = Z.to_nat count.
Proof. unfold batch_payloads. by rewrite length_fmap, length_seq. Qed.

(** When every request settles, the tasks of the batch are their outcomes. *)
Lemma batch_tasks_settled (fal : nat → FalClient) endpoint mode fuel base_args seed count
    (outcome : nat → res dict) :
  (∀ i, (i < Z.to_nat count)%nat →
     (process_single_image (fal i) endpoint (task_args base_args seed i) mode
        POLL_INTERVAL fuel).1 = Some (outcome i)) →
  imap (λ i task_args,
          (process_single_image (fal i) endpoint task_args mode POLL_INTERVAL fuel).1)
       (batch_payloads base_args seed count)
  = Some <$> (outcome <$> seq 0 (Z.to_nat count)).
Proof.
  intros Hsettle. apply list_eq. intros i.
  rewrite list_lookup_imap, !list_lookup_fmap.
  destruct (decide (i < Z.to_nat count)%nat) as [Hi|Hi].
  - rewrite batch_payloads_lookup, lookup_seq_lt by done. simpl. by rewrite Hsettle.
  - rewrite (lookup_ge_None_2 (batch_payloads _ _ _)), (lookup_ge_None_2 (seq _ _)); [done| |].
    + rewrite length_seq. lia.
    + rewrite batch_payloads_length. lia.
Qed.

Lemma ENDPOINTS_MODELS model : model ∈ MODELS ↔ is_Some (ENDPOINTS !! model).
Proof.
  unfold MODELS, ENDPOINTS. split.
  - rewrite !elem_of_cons, elem_of_nil. intros [-> | [-> | []]]; by eexists.
  - intros [endpoint Hm].
    destruct (decide (model = "pro")) as [->|Hp]; [by left|].
    destruct (decide (model = "ultra")) as [->|Hu]; [by right; left|].
    by rewrite lookup_insert_ne, lookup_singleton_ne in Hm.
Qed.



(** ** Run finalizer *)

Example cleanup_sample :
  let w' := (cleanup sample_dumps [] "out" sample_store).2 in
  files w' !! "out/metadata.json" = Some "[]"
  ∧ files w' !! "out/aaaaaaaa.png" = None
  ∧ files w' !! "out/bbbbbbbb.png" = Some "PNG"
  ∧ files w' !! "out/sub/cccccccc.png" = None
  ∧ files w' !! "elsewhere/empty" = Some ""
  ∧ List.filter is_write (trace w') = [EvWrite "out/metadata.json" "[]"].
Proof. by vm_compute. Qed.

Lemma walk_elem w top path :
  path ∈ walk w top
  ↔ top ≠ "" ∧ under top path = true ∧ is_Some (files w !! path).
Proof.
  unfold walk. destruct (String.eqb_spec top "") as [->|Hne].
  - rewrite elem_of_nil. naive_solver.
  - rewrite list_elem_of_filter, list_elem_of_fmap, Is_true_true. split.
    + intros (Hu & [p d] & -> & Hin). apply elem_of_map_to_list in Hin.
      repeat split; [done..|]. by exists d.
    + intros (_ & Hu & d & Hd). split; [done|]. exists (path, d).
      split; [done|]. by apply elem_of_map_to_list.
Qed.

Lemma walk_NoDup w top : NoDup (walk w top).
Proof.
  unfold walk. destruct (String.eqb top ""); [constructor|].
  apply NoDup_filter, NoDup_fst_map_to_list.
Qed.

Lemma length_zero_empty (data : string) : (String.length data =? 0)%nat = true ↔ data = "".
Proof. destruct data; simpl; split; done. Qed.

(** The sweep over a list of distinct existing files: it does not raise, it
    writes nothing, and it deletes exactly the listed files of size 0. *)
Lemma remove_empty_spec paths : ∀ w,
  NoDup paths →
  (∀ path, path ∈ paths → is_Some (files w !! path)) →
  ∃ fs' t,
    remove_empty paths w = (Ok tt, World fs' (trace w ++ t))
    ∧ List.filter is_write t = []
    ∧ ∀ path, fs' !! path
              = match files w !! path with
                | Some data => if decide (path ∈ paths ∧ data = "") then None else Some data
                | None => None
                end.
Proof.
  induction paths as [|p rest IH]; intros w Hnd Hex.
  { exists (files w), []. rewrite app_nil_r. destruct w as [fs tr]. simpl.
    split; [done|]. split; [done|]. intros path. by destruct (fs !! path). }
  apply NoDup_cons in Hnd as [Hp Hnd].
  destruct (Hex p) as [d0 Hd0]; [by left|].
  simpl. rewrite M_bind_run. unfold getsize. rewrite Hd0. cbv beta iota.
  rewrite M_bind_run.
  destruct (String.length d0 =? 0)%nat eqn:Hlen.
  - apply length_zero_empty in Hlen as ->.
    rewrite M_bind_run. unfold remove. rewrite Hd0. cbv beta iota.
    unfold emit. cbv beta iota. simpl files. simpl trace.
    destruct (IH (World (delete p (files w)) ((trace w ++ [EvRemove p]) ++ [EvPrintRemoved p])))
      as (fs' & t & Hrun & Hnw & Hfs); [done| |].
    { intros path Hin. simpl. rewrite lookup_delete_ne; [apply Hex; by right|].
      intros ->. done. }
    exists fs', ([EvRemove p; EvPrintRemoved p] ++ t).
    rewrite Hrun. simpl trace. rewrite <- !app_assoc. simpl.
    split; [done|]. split; [done|].
    intros path. rewrite Hfs. simpl.
    destruct (decide (path = p)) as [->|Hne].
    + rewrite lookup_delete_eq, Hd0. rewrite decide_True; [done|]. split; [by left|done].
    + rewrite lookup_delete_ne by done. destruct (files w !! path) as [d|]; [|done].
      destruct (decide (path ∈ rest ∧ d = "")) as [[Hin ->]|Hn].
      * rewrite decide_True; [done|]. split; [by right|done].
      * rewrite decide_False; [done|]. rewrite elem_of_cons. naive_solver.
  - destruct (IH w) as (fs' & t & Hrun & Hnw & Hfs); [done| |].
    { intros path Hin. apply Hex. by right. }
    exists fs', t. unfold mret, M_ret. cbv beta iota. rewrite Hrun.
    split; [done|]. split; [done|].
    intros path. rewrite Hfs.
    destruct (decide (path = p)) as [->|Hne].
    + rewrite Hd0. rewrite !decide_False; [done| |].
      * intros [_ ->]. done.
      * intros [Hin _]. done.
    + destruct (files w !! path) as [d|]; [|done].
      destruct (decide (path ∈ rest ∧ d = "")) as [[Hin ->]|Hn].
      * rewrite decide_True; [done|]. split; [by right|done].
      * rewrite decide_False; [done|]. rewrite elem_of_cons. naive_solver.
Qed.

(** The finalizer never raises: one write, then the sweep of the files
    below the output directory as they are after the write. *)
Lemma cleanup_run (json_dumps : list dict → string) results out_dir w :
  let metadata := path_join out_dir "metadata.json" in
  let w1 := World (<[metadata := json_dumps results]> (files w))
                  (trace w ++ [EvWrite metadata (json_dumps results)]) in
  ∃ fs' t,
    cleanup json_dumps results out_dir w
    = (Ok tt, World fs' (trace w ++ EvWrite metadata (json_dumps results) :: t))
    ∧ List.filter is_write t = []
    ∧ ∀ path, fs' !! path
              = match files w1 !! path with
                | Some data =>
                    if decide (path ∈ walk w1 out_dir ∧ data = "") then None else Some data
                | None => None
                end.
Proof.
  intros metadata w1.
  unfold cleanup. rewrite M_bind_run. unfold write_file. cbv beta iota.
  fold metadata. fold w1.
  destruct (remove_empty_spec (walk w1 out_dir) w1) as (fs' & t & Hrun & Hnw & Hfs).
  { apply walk_NoDup. }
  { intros path Hin. by apply walk_elem in Hin as (_ & _ & ?). }
  exists fs', t. rewrite Hrun. simpl trace. by rewrite <- app_assoc.
Qed.

(** C6.  With a JSON library that reads back what it writes for this list,
    and whose output is never the empty text: the finalizer does not raise;
    its only write is one write of the serialized list to [metadata.json]
    in the output directory, so that file holds the list and deserializes
    to it; afterwards no file below the output directory has size 0, the
    files removed being exactly those, and every other file is as before. *)
Theorem cleanup_finalizes (json_dumps : list dict → string)
    (json_loads : string → option (list dict)) results out_dir w :
  json_loads (json_dumps results) = Some results →
  json_dumps results ≠ "" →
  out_dir ≠ "" →
  let metadata := path_join out_dir "metadata.json" in
  ∃ fs' t,
    cleanup json_dumps results out_dir w
    = (Ok tt, World fs' (trace w ++ EvWrite metadata (json_dumps results) :: t))
    ∧ List.filter is_write t = []
    ∧ fs' !! metadata = Some (json_dumps results)
    ∧ fs' !! metadata ≫= json_loads = Some results
    ∧ (∀ path, under out_dir path = true → fs' !! path ≠ Some "")
    ∧ (∀ path, path ≠ metadata →
         fs' !! path
         = match files w !! path with
           | Some data =>
               if decide (under out_dir path = true ∧ data = "") then None else Some data
           | None => None
           end).
Proof.
  intros Hloads Hdumps Hdir metadata.
  destruct (cleanup_run json_dumps results out_dir w) as (fs' & t & Hrun & Hnw & Hfs).
  fold metadata in Hrun, Hfs.
  set (w1 := World (<[metadata := json_dumps results]> (files w))
                   (trace w ++ [EvWrite metadata (json_dumps results)])) in Hfs.
  assert (Hmeta : fs' !! metadata = Some (json_dumps results)).
  { rewrite Hfs. simpl. rewrite lookup_insert_eq.
    rewrite decide_False; [done|]. by intros [_ ?]. }
  exists fs', t.
  split; [done|]. split; [done|]. split; [done|].
  split; [by rewrite Hmeta|]. split.
  - intros path Hu. rewrite Hfs.
    destruct (files w1 !! path) as [data|] eqn:Hd; [|done].
    destruct (decide (path ∈ walk w1 out_dir ∧ data = "")) as [|Hn]; [done|].
    intros [= ->]. apply Hn. split; [|done].
    apply walk_elem. repeat split; [done..|]. by eexists.
  - intros path Hne. rewrite Hfs. simpl. rewrite lookup_insert_ne by done.
    destruct (files w !! path) as [data|] eqn:Hd; [|done].
    destruct (decide (under out_dir path = true ∧ data = "")) as [[Hu ->]|Hn].
    + rewrite decide_True; [done|]. split; [|done].
      apply walk_elem. repeat split; [done..|]. simpl.
      rewrite lookup_insert_ne by done. by eexists.
    + rewrite decide_False; [done|]. intros [Hin ->]. apply Hn.
      by apply walk_elem in Hin as (_ & ? & _).
Qed.

(** The finalizer on the sample store, with no record to write. *)
Lemma cleanup_finalizes_witness :
  ∃ fs' t,
    cleanup sample_dumps [] "out" sample_store
    = (Ok tt, World fs' (EvWrite "out/metadata.json" "[]" :: t))
    ∧ fs' !! "out/metadata.json" ≫= sample_loads = Some []
    ∧ fs' !! "out/aaaaaaaa.png" = None.
Proof.
  destruct (cleanup_finalizes sample_dumps sample_loads [] "out" sample_store)
    as (fs' & t & Hrun & _ & _ & Hloads & _ & Hframe); [done..|].
  exists fs', t. split; [exact Hrun|]. split; [exact Hloads|].
  rewrite Hframe; [|done]. by vm_compute.
Defined.

Lemma ENDPOINTS_ultra : ENDPOINTS !! "ultra" = Some "fal-ai/flux-pro/v1.1-ultra".
Proof. by vm_compute. Qed.

Lemma sample_batch_settles i :
  (i < Z.to_nat 3)%nat →
  (process_single_image (sample_fals i) "fal-ai/flux-pro/v1.1-ultra"
     (task_args (batch_base_args "a prompt" "ultra" None None None None None None None
                   None None None None) (Some 40) i)
     "subscribe" POLL_INTERVAL 10).1 = Some (sample_outcome i).
Proof.
  intros Hi. destruct i as [|[|[|i]]]; [reflexivity.. | simpl in Hi; lia].
Qed.


(** An unknown model is the one exception the orchestrator lets through:
    the endpoint lookup is outside the [try]. *)
Lemma generate_images_unknown_model fal get fuel picks prompt count out_dir model
    ratio raw size w h guidance steps out_fmt safety safety_check seed sync mode w0 :
  ENDPOINTS !! model = None →
  generate_images fal get fuel picks prompt count out_dir model ratio raw size w h
    guidance steps out_fmt safety safety_check seed sync mode w0
  = (Some (Raise (KeyError model)), w0).
Proof. intros Hm. unfold generate_images. by rewrite Hm. Qed.

(** ** One run *)

(** A run that gets its records back finalizes with exactly that list: the
    metadata file is written once, from the list [generate_images]
    returned, and the run prints its last line. *)
Lemma process_generation_finalizes fal get fuel picks json_dumps args prompt out_dir
    w0 results w1 :
  generate_from_args fal get fuel picks args prompt out_dir w0 = (Some (Ok results), w1) →
  ∃ fs' t,
    process_generation fal get fuel picks json_dumps args prompt out_dir w0
    = (Some (Ok tt),
       World fs' (trace w1
                    ++ EvWrite (path_join out_dir "metadata.json") (json_dumps results)
                    :: t ++ [EvPrintCompleted out_dir]))
    ∧ List.filter is_write t = []
    ∧ (json_dumps results ≠ "" →
       fs' !! path_join out_dir "metadata.json" = Some (json_dumps results)).
Proof.
  intros Hgen. unfold process_generation. rewrite Hgen.
  destruct (cleanup_run json_dumps results out_dir w1) as (fs' & t & Hrun & Hnw & Hfs).
  rewrite M_bind_run, Hrun. unfold emit. cbv beta iota. simpl files. simpl trace.
  exists fs', t. rewrite <- app_assoc. simpl.
  split; [done|]. split; [done|].
  intros Hdumps. rewrite Hfs. simpl. rewrite lookup_insert_eq.
  rewrite decide_False; [done|]. by intros [_ ?].
Qed.

(** The options [--poll] and [--no-safety] change nothing: the poll
    interval of a run is always [POLL_INTERVAL], and no run sets the
    safety-checker flag. *)
Lemma process_generation_ignores_poll_and_safety fal get fuel picks json_dumps args
    prompt out_dir poll no_safety w0 :
  process_generation fal get fuel picks json_dumps
    (with_poll_and_safety args poll no_safety) prompt out_dir w0
  = process_generation fal get fuel picks json_dumps args prompt out_dir w0.
Proof. reflexivity. Qed.

(* ===================================================================== *)
(** * Part III: further properties of the code                            *)
(* ===================================================================== *)

(** ** Argument builder: which keys a payload can hold *)

Lemma lookup_insert_if (b : bool) (k k' : string) (v : json) (m : dict) :
  k ≠ k' → (if b then <[k' := v]> m else m) !! k = m !! k.
Proof. intros Hne. destruct b; [by rewrite lookup_insert_ne|done]. Qed.

Lemma build_base_args_other prompt out_fmt safety safety_check sync k :
  k ∉ base_keys →
  build_base_args prompt out_fmt safety safety_check sync !! k = None.
Proof.
  unfold base_keys. rewrite !not_elem_of_union, !not_elem_of_singleton.
  intros (((((H1 & H2) & H3) & H4) & H5) & H6).
  unfold build_base_args.
  destruct sync; [rewrite lookup_insert_ne by done|];
  (destruct safety_check; [rewrite lookup_insert_ne by done|]);
  (destruct safety; [rewrite lookup_insert_if by done|]);
  (destruct out_fmt; [rewrite lookup_insert_if by done|]);
  rewrite lookup_insert_ne by done; by rewrite lookup_singleton_ne.
Qed.

Lemma add_ultra_args_other args ratio raw k :
  k ∉ ultra_keys → add_ultra_args args ratio raw !! k = args !! k.
Proof.
  unfold ultra_keys. rewrite !not_elem_of_union, !not_elem_of_singleton.
  intros (H1 & H2). unfold add_ultra_args.
  rewrite lookup_insert_if by done.
  destruct ratio; [by rewrite lookup_insert_if|done].
Qed.

Lemma add_pro_args_other args size w h guidance steps k :
  k ∉ pro_keys → add_pro_args args size w h guidance steps !! k = args !! k.
Proof.
  unfold pro_keys. rewrite !not_elem_of_union, !not_elem_of_singleton.
  intros ((H1 & H2) & H3). unfold add_pro_args.
  destruct steps; [rewrite lookup_insert_ne by done|];
  (destruct guidance; [rewrite lookup_insert_ne by done|]);
  destruct w, h, size; rewrite ?lookup_insert_ne, ?lookup_insert_if by done; done.
Qed.

(** No option puts a [seed] into the base payload. *)
Lemma batch_base_args_seedless prompt model ratio raw size w h guidance steps
    out_fmt safety safety_check sync :
  batch_base_args prompt model ratio raw size w h guidance steps
                  out_fmt safety safety_check sync !! "seed" = None.
Proof.
  unfold batch_base_args. destruct (String.eqb model "ultra").
  - rewrite add_ultra_args_other by (unfold ultra_keys; set_solver).
    apply build_base_args_other. unfold base_keys. set_solver.
  - rewrite add_pro_args_other by (unfold pro_keys; set_solver).
    apply build_base_args_other. unfold base_keys. set_solver.
Qed.

(** X1.  Whatever the options, the payload of a batch holds [prompt] and
    [num_images], and beyond the six base keys only keys of its own
    variant: [aspect_ratio] and [raw] for the model "ultra",
    [image_size], [guidance_scale] and [num_inference_steps] for any other
    model.  Options of the other variant never reach the payload. *)
Theorem payload_keys_by_variant prompt model ratio raw size w h guidance steps
    out_fmt safety safety_check sync :
  let p := batch_base_args prompt model ratio raw size w h guidance steps
                           out_fmt safety safety_check sync in
  p !! "prompt" = Some (JStr prompt)
  ∧ p !! "num_images" = Some (JInt 1)
  ∧ dom p ⊆ base_keys ∪ (if String.eqb model "ultra" then ultra_keys else pro_keys)
  ∧ (∀ k, k ∈ (if String.eqb model "ultra" then pro_keys else ultra_keys) →
          p !! k = None).
Proof.
  intros p.
  destruct (build_base_args_lookup prompt out_fmt safety safety_check sync)
    as (Hp & Hn & _).
  assert (Hother : ∀ k,
            k ∉ base_keys ∪ (if String.eqb model "ultra" then ultra_keys else pro_keys) →
            p !! k = None).
  { intros k Hk. apply not_elem_of_union in Hk as [Hb Hv]. subst p.
    unfold batch_base_args. destruct (String.eqb model "ultra").
    - rewrite add_ultra_args_other by done. by apply build_base_args_other.
    - rewrite add_pro_args_other by done. by apply build_base_args_other. }
  split; [|split; [|split]].
  - subst p. unfold batch_base_args. destruct (String.eqb model "ultra").
    + rewrite add_ultra_args_other; [done|]. unfold ultra_keys. set_solver.
    + rewrite add_pro_args_other; [done|]. unfold pro_keys. set_solver.
  - subst p. unfold batch_base_args. destruct (String.eqb model "ultra").
    + rewrite add_ultra_args_other; [done|]. unfold ultra_keys. set_solver.
    + rewrite add_pro_args_other; [done|]. unfold pro_keys. set_solver.
  - intros k Hk. destruct (decide (k ∈ base_keys
        ∪ (if String.eqb model "ultra" then ultra_keys else pro_keys))) as [|Hno];
      [done|]. apply Hother in Hno. apply elem_of_dom in Hk as [v Hv]. congruence.
  - intros k Hk. apply Hother.
    destruct (String.eqb model "ultra"); unfold base_keys, ultra_keys, pro_keys in *;
      set_solver.
Qed.

(** The three keys of the standard-variant extender, one by one. *)
Lemma add_pro_args_lookup (args : dict) size w h guidance steps :
  let p := add_pro_args args size w h guidance steps in
  p !! "guidance_scale"
  = match guidance with Some g => Some (JFloat g) | None => args !! "guidance_scale" end
  ∧ p !! "num_inference_steps"
    = match steps with Some n => Some (JInt n) | None => args !! "num_inference_steps" end
  ∧ p !! "image_size"
    = match w, h with
      | Some w', Some h' => Some (JObj {[ "width" := JInt w'; "height" := JInt h' ]})
      | _, _ => if truthy_str size then JStr <$> size else args !! "image_size"
      end.
Proof.
  intros p. subst p. unfold add_pro_args. split; [|split].
  - destruct steps; [rewrite lookup_insert_ne by done|];
      (destruct guidance; [by rewrite lookup_insert_eq|]);
      destruct w, h, size; rewrite ?lookup_insert_ne, ?lookup_insert_if by done; done.
  - destruct steps; [by rewrite lookup_insert_eq|].
    destruct guidance; [rewrite lookup_insert_ne by done|];
      destruct w, h, size; rewrite ?lookup_insert_ne, ?lookup_insert_if by done; done.
  - destruct steps; [rewrite lookup_insert_ne by done|];
      (destruct guidance; [rewrite lookup_insert_ne by done|]);
      destruct w, h; try (by rewrite lookup_insert_eq);
      destruct size as [s|]; simpl; try done;
      destruct (negb (String.eqb s "")); simpl; by rewrite ?lookup_insert_eq.
Qed.

(** X2.  The two extenders only ever add or overwrite keys of their own
    variant: every other key of the payload they are given is handed back
    unchanged, and no key is lost.  The numeric options of the standard
    variant are forwarded whenever they are given, zero included; a pair
    of dimensions wins over the preset, also when the payload already has
    an [image_size]. *)
Theorem extenders_forward_and_keep (args : dict) ratio raw size w h guidance steps :
  let u := add_ultra_args args ratio raw in
  let p := add_pro_args args size w h guidance steps in
  (∀ k, k ∉ ultra_keys → u !! k = args !! k)
  ∧ (∀ k, k ∉ pro_keys → p !! k = args !! k)
  ∧ dom args ⊆ dom u ∧ dom args ⊆ dom p
  ∧ u !! "raw" = (if raw then Some (JBool true) else args !! "raw")
  ∧ p !! "guidance_scale"
    = match guidance with Some g => Some (JFloat g) | None => args !! "guidance_scale" end
  ∧ p !! "num_inference_steps"
    = match steps with Some n => Some (JInt n) | None => args !! "num_inference_steps" end
  ∧ (∀ w' h', w = Some w' → h = Some h' →
       p !! "image_size" = Some (JObj {[ "width" := JInt w'; "height" := JInt h' ]})).
Proof.
  intros u p. subst u p.
  split; [intros k Hk; by apply add_ultra_args_other|].
  split; [intros k Hk; by apply add_pro_args_other|].
  split; [|split; [|split; [|split; [|split]]]].
  - intros k [v Hv]%elem_of_dom. apply elem_of_dom. unfold add_ultra_args.
    destruct raw, ratio as [r|]; simpl;
      repeat match goal with |- context [if ?b then _ else _] => destruct b end;
      rewrite ?lookup_insert_is_Some; destruct (decide ("raw" = k));
      destruct (decide ("aspect_ratio" = k)); naive_solver.
  - intros k [v Hv]%elem_of_dom. apply elem_of_dom. unfold add_pro_args.
    assert (Hany : ∀ (m : dict) k' v', is_Some (m !! k) → is_Some (<[k' := v']> m !! k)).
    { intros m k' v' Hm. rewrite lookup_insert_is_Some.
      destruct (decide (k' = k)); [by left|by right]. }
    destruct steps, guidance, w, h, size as [s|]; simpl;
      repeat match goal with |- context [if ?b then _ else _] => destruct b end;
      repeat apply Hany; by eexists.
  - unfold add_ultra_args. destruct raw; [by rewrite lookup_insert_eq|].
    destruct ratio; [by rewrite lookup_insert_if|done].
  - unfold add_pro_args. destruct steps; [rewrite lookup_insert_ne by done|];
      (destruct guidance; [by rewrite lookup_insert_eq|]);
      destruct w, h, size; rewrite ?lookup_insert_ne, ?lookup_insert_if by done; done.
  - unfold add_pro_args. destruct steps; [by rewrite lookup_insert_eq|].
    destruct guidance; [rewrite lookup_insert_ne by done|];
      destruct w, h, size; rewrite ?lookup_insert_ne, ?lookup_insert_if by done; done.
  - intros w' h' -> ->. unfold add_pro_args.
    destruct steps; [rewrite lookup_insert_ne by done|];
      (destruct guidance; [rewrite lookup_insert_ne by done|]);
      by rewrite lookup_insert_eq.
Qed.

(** ** Batch orchestrator: the payloads of a batch *)

(** X3.  The payloads of one batch differ at most at the key [seed]: every
    other key has the value of the base payload.  With a seed, no two
    requests of the batch carry the same seed; without one, every request
    of the batch carries the base payload itself, so all requests are
    identical. *)
Theorem batch_payloads_differ_only_in_seed (base : dict) (seed : option Z) (count : Z) :
  let payloads := batch_payloads base seed count in
  (∀ i p k, payloads !! i = Some p → k ≠ "seed" → p !! k = base !! k)
  ∧ (∀ i j p q, is_Some seed → payloads !! i = Some p → payloads !! j = Some q →
       i ≠ j → p !! "seed" ≠ q !! "seed")
  ∧ (seed = None → ∀ i p, payloads !! i = Some p → p = base).
Proof.
  intros payloads. subst payloads. unfold batch_payloads.
  assert (Hget : ∀ i p, (task_args base seed <$> seq 0 (Z.to_nat count)) !! i = Some p →
                        p = task_args base seed i).
  { intros i p Hi. rewrite list_lookup_fmap in Hi.
    destruct (seq 0 (Z.to_nat count) !! i) as [x|] eqn:Hx; [|done].
    apply lookup_seq in Hx as [-> _]. simpl in Hi. congruence. }
  split; [|split].
  - intros i p k Hi Hk. rewrite (Hget _ _ Hi). unfold task_args.
    destruct seed; [by rewrite lookup_insert_ne|done].
  - intros i j p q [s ->] Hi Hj Hne. rewrite (Hget _ _ Hi), (Hget _ _ Hj).
    unfold task_args. rewrite !lookup_insert_eq. intros [=]. lia.
  - intros -> i p Hi. by rewrite (Hget _ _ Hi).
Qed.

(** ** Request dispatcher: failures and the shape of the traffic *)

Section poll_more.
Context (fal : FalClient) (endpoint request_id : string) (poll : Z).

(** A failing status query ends the loop with its exception. *)
Lemma poll_loop_fails n : ∀ k fuel e,
  (∀ j, (j < n)%nat → still_pending fal endpoint request_id (k + j)) →
  status_fails fal endpoint request_id (k + n) e →
  (n < fuel)%nat →
  poll_loop fal endpoint request_id poll fuel k
  = (Some (Raise e),
     polls endpoint request_id poll n ++ [NetStatus endpoint request_id]).
Proof.
  induction n as [|n IH]; intros k [|fuel] e Hpend Hfail Hfuel; try lia.
  - rewrite Nat.add_0_r in Hfail. simpl.
    destruct Hfail as [Hst | (status & Hst & Hs & ->)]; rewrite Hst; [done|].
    by rewrite Hs.
  - destruct (Hpend 0%nat) as (status & s & Hst & Hs & Hc); [lia|].
    rewrite Nat.add_0_r in Hst. simpl poll_loop. rewrite Hst, Hs, Hc.
    rewrite (IH (S k) fuel e); [by rewrite polls_S | | | lia].
    + intros j Hj. replace (S k + j)%nat with (k + S j)%nat by lia. apply Hpend. lia.
    + by replace (S k + n)%nat with (k + S n)%nat by lia.
Qed.

(** The three shapes of a poll loop's traffic, whatever the service does. *)
Lemma poll_loop_shape fuel : ∀ k,
  ∃ n, (∀ j, (j < n)%nat → still_pending fal endpoint request_id (k + j))
    ∧ ((n = fuel
        ∧ poll_loop fal endpoint request_id poll fuel k
          = (None, polls endpoint request_id poll n))
       ∨ ((n < fuel)%nat ∧ ∃ e, status_fails fal endpoint request_id (k + n) e
          ∧ poll_loop fal endpoint request_id poll fuel k
            = (Some (Raise e),
               polls endpoint request_id poll n ++ [NetStatus endpoint request_id]))
       ∨ ((n < fuel)%nat ∧ reports_completion fal endpoint request_id (k + n)
          ∧ poll_loop fal endpoint request_id poll fuel k
            = (Some (result_async fal endpoint request_id),
               polls endpoint request_id poll n
                 ++ [NetStatus endpoint request_id; NetResult endpoint request_id]))).
Proof.
  induction fuel as [|fuel IH]; intros k.
  { exists 0%nat. split; [intros j Hj; lia|]. by left. }
  simpl poll_loop.
  destruct (status_async fal endpoint request_id k) as [status|e] eqn:Hst.
  2:{ exists 0%nat. split; [intros j Hj; lia|]. right; left. split; [lia|].
      exists e. split; [|done]. left. by rewrite Nat.add_0_r. }
  destruct (status !! "status") as [s|] eqn:Hs.
  2:{ exists 0%nat. split; [intros j Hj; lia|]. right; left. split; [lia|].
      exists (KeyError "status"). split; [|done]. right. exists status.
      by rewrite Nat.add_0_r. }
  destruct (completed s) eqn:Hc.
  { exists 0%nat. split; [intros j Hj; lia|]. right; right. split; [lia|].
    split; [|done]. exists status, s. by rewrite Nat.add_0_r. }
  destruct (IH (S k)) as (n & Hpend & Hcase). exists (S n). split.
  { intros [|j] Hj.
    - exists status, s. by rewrite Nat.add_0_r.
    - replace (k + S j)%nat with (S k + j)%nat by lia. apply Hpend. lia. }
  replace (k + S n)%nat with (S k + n)%nat by lia. rewrite polls_S.
  destruct Hcase as [(-> & ->) | [(Hn & e & Hfail & ->) | (Hn & Hdone & ->)]].
  - by left.
  - right; left. split; [lia|]. by exists e.
  - right; right. split; [lia|]. done.
Qed.

End poll_more.

(** X4.  Failures of the poll-mode dispatcher.  A submission that raises is
    passed on at once: no status is ever queried, whatever the fuel.  After
    an accepted submission, the first status query that fails - the call
    raises, or its answer has no ["status"] key, which is a [KeyError] -
    ends the request with that exception: no sleep follows it and no
    result is fetched. *)
Theorem submit_request_failures fal endpoint args poll :
  (∀ e fuel, submit_async fal endpoint args = Raise e →
     submit_request fal endpoint args poll fuel
     = (Some (Raise e), [NetSubmit endpoint args]))
  ∧ (∀ request_id n e fuel,
       submit_async fal endpoint args = Ok request_id →
       (∀ k, (k < n)%nat → still_pending fal endpoint request_id k) →
       status_fails fal endpoint request_id n e →
       (n < fuel)%nat →
       submit_request fal endpoint args poll fuel
       = (Some (Raise e),
          NetSubmit endpoint args
            :: polls endpoint request_id poll n ++ [NetStatus endpoint request_id])).
Proof.
  split.
  - intros e fuel Hsub. unfold submit_request. by rewrite Hsub.
  - intros request_id n e fuel Hsub Hpend Hfail Hfuel. unfold submit_request.
    rewrite Hsub.
    by rewrite (poll_loop_fails fal endpoint request_id poll n 0 fuel e).
Qed.

(** X6.  The traffic of the poll-mode dispatcher after an accepted
    submission has one of three shapes, whatever the service answers: some
    pending checks, each followed by a sleep of the poll interval, and then
    either nothing (the fuel ran out: the request is still polling), or one
    failing check, or one check that reports completion followed by the
    fetch of the result.  Every query names the endpoint and the request
    identifier the submission returned; a result is fetched at most once,
    last, and only after a check that reported completion. *)
Theorem submit_request_traffic fal endpoint args poll request_id fuel :
  submit_async fal endpoint args = Ok request_id →
  ∃ n, (∀ k, (k < n)%nat → still_pending fal endpoint request_id k)
    ∧ ((n = fuel
        ∧ submit_request fal endpoint args poll fuel
          = (None, NetSubmit endpoint args :: polls endpoint request_id poll n))
       ∨ ((n < fuel)%nat ∧ ∃ e, status_fails fal endpoint request_id n e
          ∧ submit_request fal endpoint args poll fuel
            = (Some (Raise e),
               NetSubmit endpoint args
                 :: polls endpoint request_id poll n ++ [NetStatus endpoint request_id]))
       ∨ ((n < fuel)%nat ∧ reports_completion fal endpoint request_id n
          ∧ submit_request fal endpoint args poll fuel
            = (Some (result_async fal endpoint request_id),
               NetSubmit endpoint args
                 :: polls endpoint request_id poll n
                 ++ [NetStatus endpoint request_id; NetResult endpoint request_id]))).
Proof.
  intros Hsub. unfold submit_request. rewrite Hsub.
  destruct (poll_loop_shape fal endpoint request_id poll fuel 0) as (n & Hpend & Hcase).
  exists n. split; [exact Hpend|]. simpl in Hcase.
  destruct Hcase as [(-> & ->) | [(Hn & e & Hfail & ->) | (Hn & Hdone & ->)]].
  - by left.
  - right; left. split; [done|]. by exists e.
  - right; right. done.
Qed.

(** The service whose second status answer lacks the key: one pending
    check with its sleep, then the failing check. *)
Lemma submit_request_traffic_witness :
  ∃ n, (∀ k, (k < n)%nat → still_pending broken_status_fal "fal-ai/flux-pro/new" "req-2" k)
    ∧ ((n = 5%nat
        ∧ submit_request broken_status_fal "fal-ai/flux-pro/new" ∅ POLL_INTERVAL 5
          = (None, NetSubmit "fal-ai/flux-pro/new" ∅
                     :: polls "fal-ai/flux-pro/new" "req-2" POLL_INTERVAL n))
       ∨ ((n < 5)%nat ∧ ∃ e, status_fails broken_status_fal "fal-ai/flux-pro/new" "req-2" n e
          ∧ submit_request broken_status_fal "fal-ai/flux-pro/new" ∅ POLL_INTERVAL 5
            = (Some (Raise e),
               NetSubmit "fal-ai/flux-pro/new" ∅
                 :: polls "fal-ai/flux-pro/new" "req-2" POLL_INTERVAL n
                 ++ [NetStatus "fal-ai/flux-pro/new" "req-2"]))
       ∨ ((n < 5)%nat ∧ reports_completion broken_status_fal "fal-ai/flux-pro/new" "req-2" n
          ∧ submit_request broken_status_fal "fal-ai/flux-pro/new" ∅ POLL_INTERVAL 5
            = (Some (result_async broken_status_fal "fal-ai/flux-pro/new" "req-2"),
               NetSubmit "fal-ai/flux-pro/new" ∅
                 :: polls "fal-ai/flux-pro/new" "req-2" POLL_INTERVAL n
                 ++ [NetStatus "fal-ai/flux-pro/new" "req-2";
                     NetResult "fal-ai/flux-pro/new" "req-2"]))).
Proof.
  apply (submit_request_traffic broken_status_fal "fal-ai/flux-pro/new" ∅ POLL_INTERVAL
           "req-2" 5). reflexivity.
Defined.

(** ** Media downloader: failures and effects *)

Lemma requested_app t1 t2 : requested (t1 ++ t2) = requested t1 ++ requested t2.
Proof. unfold requested. apply omap_app. Qed.

Lemma written_app t1 t2 : written (t1 ++ t2) = written t1 ++ written t2.
Proof. unfold written. apply omap_app. Qed.

(** One step of a pending download, read in the trace: what it requests
    and writes is taken from what the download had still to do. *)
Lemma download_step_trace get url fname st w :
  ∃ dt, trace (download_step get url fname st w).2 = trace w ++ dt
    ∧ match (download_step get url fname st w).1 with
      | Ok st' =>
          to_request (url, fname, st) = requested dt ++ to_request (url, fname, st')
          ∧ to_write get (url, fname, st) = written dt ++ to_write get (url, fname, st')
      | Raise _ =>
          requested dt ⊆+ to_request (url, fname, st) ∧ written dt = []
      end.
Proof.
  destruct st as [|body|body|data|outcome].
  - unfold download_step. rewrite M_bind_run. unfold emit. cbv beta iota.
    rewrite M_bind_run. unfold lift, to_request, to_write, fetch_write. simpl.
    exists [EvGet url]. destruct (respond get url) as [[status body]|e]; simpl.
    + split; [done|]. destruct (status =? 200); simpl; [|by destruct body].
      by destruct body.
    + done.
  - unfold download_step. rewrite M_bind_run. unfold open_wb. simpl.
    exists []. rewrite app_nil_r. by destruct (can_open w fname).
  - unfold download_step. rewrite M_bind_run. unfold lift. simpl.
    exists []. rewrite app_nil_r. by destruct body.
  - unfold download_step. rewrite M_bind_run. unfold write_file. simpl.
    by exists [EvWrite fname data].
  - exists []. simpl. by rewrite app_nil_r.
Qed.

Lemma concat_fmap_lookup {A B} (f : A → list B) (l : list A) i x :
  l !! i = Some x → concat (f <$> l) ≡ₚ f x ++ concat (f <$> delete i l).
Proof.
  intros Hi. rewrite (delete_Permutation l i x Hi) at 1. done.
Qed.

Lemma concat_fmap_insert {A B} (f : A → list B) (l : list A) i x y :
  l !! i = Some x → concat (f <$> <[i := y]> l) ≡ₚ f y ++ concat (f <$> delete i l).
Proof.
  intros Hi. rewrite insert_take_drop by (by eapply lookup_lt_Some).
  rewrite delete_take_drop, !fmap_app, !concat_app. csimpl.
  apply Permutation_app_swap_app.
Qed.

(** The downloads that go on after a failure request and write only what
    they had still to do. *)
Lemma linger_trace get sched : ∀ (tasks : list download) w,
  ∃ t, trace (linger get sched tasks w) = trace w ++ t
    ∧ requested t ⊆+ concat (to_request <$> tasks)
    ∧ written t ⊆+ concat (to_write get <$> tasks).
Proof.
  induction sched as [|n sched IH]; intros tasks w.
  { exists []. simpl. rewrite app_nil_r. split; [done|]. split; apply submseteq_nil_l. }
  simpl linger.
  destruct (pending tasks !! (n `mod` length (pending tasks))%nat)
    as [[i [[url fname] st]]|] eqn:Hpick.
  2:{ exists []. rewrite app_nil_r. split; [done|]. split; apply submseteq_nil_l. }
  apply pending_lookup in Hpick as [Hi _].
  destruct (download_step_trace get url fname st w) as (dt & Hdt & Hstep).
  destruct (download_step get url fname st w) as [[st'|e] w1]; simpl in Hdt, Hstep.
  - destruct Hstep as [Hreq Hwr].
    destruct (IH (<[i := (url, fname, st')]> tasks) w1) as (t & Ht & Hr & Hw).
    exists (dt ++ t). rewrite Ht, Hdt, <- app_assoc. split; [done|].
    rewrite requested_app, written_app.
    rewrite (concat_fmap_lookup to_request tasks i _ Hi),
            (concat_fmap_lookup (to_write get) tasks i _ Hi), Hreq, Hwr, <- !app_assoc.
    rewrite (concat_fmap_insert to_request tasks i _ _ Hi) in Hr.
    rewrite (concat_fmap_insert (to_write get) tasks i _ _ Hi) in Hw.
    split; by apply submseteq_skips_l.
  - destruct Hstep as [Hreq Hwr].
    destruct (IH (<[i := (url, fname, Downloaded None)]> tasks) w1) as (t & Ht & Hr & Hw).
    exists (dt ++ t). rewrite Ht, Hdt, <- app_assoc. split; [done|].
    rewrite requested_app, written_app, Hwr.
    rewrite (concat_fmap_lookup to_request tasks i _ Hi),
            (concat_fmap_lookup (to_write get) tasks i _ Hi).
    rewrite (concat_fmap_insert to_request tasks i _ _ Hi) in Hr.
    rewrite (concat_fmap_insert (to_write get) tasks i _ _ Hi) in Hw. simpl in Hr, Hw.
    split; [by apply submseteq_app | by apply submseteq_inserts_l].
Qed.

(** A gather, read in the trace: every download requests its URL at most
    once and writes at most its body; when the gather returns, each has
    requested its URL exactly once and the writes are exactly the bodies
    answered 200. *)
Lemma gather_steps_trace get fuel : ∀ sched (tasks : list download) w,
  (steps_total tasks ≤ fuel)%nat →
  ∃ t, trace (gather_steps get fuel sched tasks w).2 = trace w ++ t
    ∧ requested t ⊆+ concat (to_request <$> tasks)
    ∧ written t ⊆+ concat (to_write get <$> tasks)
    ∧ (∀ l, (gather_steps get fuel sched tasks w).1 = Ok l →
            requested t ≡ₚ concat (to_request <$> tasks)
            ∧ written t ≡ₚ concat (to_write get <$> tasks)).
Proof.
  assert (Hdone : ∀ tasks : list download,
            (∀ t, t ∈ tasks → steps_left t.2 = 0%nat) →
            concat (to_request <$> tasks) = [] ∧ concat (to_write get <$> tasks) = []).
  { induction tasks as [|[p st] tasks IH]; intros Hall; [done|]. csimpl.
    destruct IH as [-> ->]; [intros t Ht; apply Hall; by right|].
    pose proof (Hall (p, st) (list_elem_of_here _ _)) as Hst. by destruct st. }
  induction fuel as [|fuel IH]; intros sched tasks w Hfuel.
  - assert (Hrun : gather_steps get 0 sched tasks w = (Ok (outcome_now <$> tasks), w)).
    { simpl. by destruct (pending tasks !! _) as [[i [[url fname] st]]|]. }
    rewrite Hrun. exists []. simpl. rewrite app_nil_r.
    destruct (Hdone tasks) as [-> ->].
    { intros t Hin. apply (steps_total_zero tasks); [lia | done]. }
    done.
  - simpl gather_steps.
    destruct (pending tasks !! (hd 0%nat sched `mod` length (pending tasks))%nat)
      as [[i [[url fname] st]]|] eqn:Hpick.
    2:{ exists []. simpl. rewrite app_nil_r.
        destruct (Hdone tasks (pending_none tasks _ Hpick)) as [-> ->]. done. }
    apply pending_lookup in Hpick as [Hi Hleft]. simpl in Hleft.
    pose proof (download_step_spec get url fname st w Hleft) as Hspec.
    destruct (download_step_trace get url fname st w) as (dt & Hdt & Hstep).
    destruct (download_step get url fname st w) as [[st'|e] w1]; simpl in Hdt, Hstep.
    + destruct Hspec as (_ & _ & Hlt & _). destruct Hstep as [Hreq Hwr].
      destruct (IH (tl sched) (<[i := (url, fname, st')]> tasks) w1)
        as (t & Ht & Hr & Hw & Hok).
      { pose proof (steps_total_insert tasks i (url, fname) st st' Hi Hlt). lia. }
      exists (dt ++ t). rewrite Ht, Hdt, <- app_assoc. split; [done|].
      rewrite requested_app, written_app.
      rewrite (concat_fmap_lookup to_request tasks i _ Hi),
              (concat_fmap_lookup (to_write get) tasks i _ Hi), Hreq, Hwr, <- !app_assoc.
      rewrite (concat_fmap_insert to_request tasks i _ _ Hi) in Hr.
    rewrite (concat_fmap_insert (to_write get) tasks i _ _ Hi) in Hw.
      split; [by apply submseteq_skips_l|]. split; [by apply submseteq_skips_l|].
      intros l Hl. destruct (Hok l Hl) as [Hr' Hw'].
      rewrite (concat_fmap_insert to_request tasks i _ _ Hi) in Hr'.
      rewrite (concat_fmap_insert (to_write get) tasks i _ _ Hi) in Hw'.
      rewrite (concat_fmap_lookup to_request tasks i _ Hi),
              (concat_fmap_lookup (to_write get) tasks i _ Hi), Hreq, Hwr, <- !app_assoc.
      split; by apply Permutation_app_head.
    + destruct Hstep as [Hreq Hwr]. simpl.
      destruct (linger_trace get (tl sched) (<[i := (url, fname, Downloaded None)]> tasks) w1)
        as (t & Ht & Hr & Hw).
      exists (dt ++ t). rewrite Ht, Hdt, <- app_assoc. split; [done|].
      rewrite requested_app, written_app, Hwr.
      rewrite (concat_fmap_lookup to_request tasks i _ Hi),
              (concat_fmap_lookup (to_write get) tasks i _ Hi).
      rewrite (concat_fmap_insert to_request tasks i _ _ Hi) in Hr.
    rewrite (concat_fmap_insert (to_write get) tasks i _ _ Hi) in Hw. simpl in Hr, Hw.
      split; [by apply submseteq_app|].
      split; [by apply submseteq_inserts_l | done].
Qed.

Lemma to_request_start (pairs : list (string * string)) :
  concat (to_request <$> ((λ p, (p, Requesting)) <$> pairs)) = pairs.*1.
Proof. induction pairs as [|p pairs IH]; [done|]. csimpl. by rewrite IH. Qed.

Lemma to_write_start get (pairs : list (string * string)) :
  concat (to_write get <$> ((λ p, (p, Requesting)) <$> pairs)) = omap (fetch_write get) pairs.
Proof.
  induction pairs as [|p pairs IH]; [done|]. csimpl. rewrite IH.
  unfold to_write. simpl. by destruct (fetch_write get p).
Qed.

Lemma may_write_start get p : fetch_outcome get p = None → may_write get (p, Requesting) = false.
Proof.
  unfold fetch_outcome, may_write. simpl.
  destruct (respond get p.1) as [[status body]|e]; [|done]. by destruct (status =? 200).
Qed.

(** What makes a download fail, in the terms of the code. *)
Lemma download_fails_iff get w p :
  download_fails get w p = true
  ↔ (∃ e, respond get p.1 = Raise e)
    ∨ (∃ body, respond get p.1 = Ok (200, body)
               ∧ (can_open w p.2 = false ∨ ∃ e, body = Raise e)).
Proof.
  unfold download_fails, failure.
  destruct (respond get p.1) as [[status body]|e].
  - destruct (Z.eqb_spec status 200) as [->|Hne].
    + destruct (can_open w p.2).
      * destruct body as [data|e]; split; try done.
        -- intros [[e He]|(body & [= <-] & [?|[e He]])]; done.
        -- intros _. right. exists (Raise e). split; [done|]. right. by exists e.
      * split; [|done]. intros _. right. exists body. split; [done|]. by left.
    + split; [done|]. intros [[e He]|(b & [= -> _] & _)]; done.
  - split; [|done]. intros _. left. by exists e.
Qed.

(** X7.  Downloading a list of pairs raises exactly when one of its
    downloads fails: the fetch fails at the transport level, or it is
    answered 200 and the file cannot be opened or the body cannot be
    read.  The exception raised is that of one of the failing downloads; a
    status other than 200 never raises.  When nothing is raised every
    download could run to its end, and the outcomes are those of the
    pairs, in their order. *)
Theorem download_all_images_raises get pairs w :
  ((∃ e, (download_all_images get pairs w).1 = Raise e)
   ↔ Exists (λ p, (∃ e, respond get p.1 = Raise e)
                  ∨ (∃ body, respond get p.1 = Ok (200, body)
                             ∧ (can_open w p.2 = false ∨ ∃ e, body = Raise e))) pairs)
  ∧ (∀ e, (download_all_images get pairs w).1 = Raise e →
          ∃ p, p ∈ pairs ∧ failure get w p = Some e)
  ∧ (∀ outcomes, (download_all_images get pairs w).1 = Ok outcomes →
                 Forall (fetchable get w) pairs
                 ∧ outcomes = fetch_outcome get <$> pairs
                 ∧ length outcomes = length pairs).
Proof.
  destruct (download_all_images_raise get pairs w) as (Hiff & Hexn & Hok & _).
  split; [|split; [exact Hexn|]].
  - rewrite Hiff. rewrite Exists_exists. split.
    + intros (p & Hp%list_elem_of_In & Hf)%existsb_exists. exists p. split; [done|].
      by apply download_fails_iff.
    + intros (p & Hp & Hf). apply existsb_exists. exists p.
      split; [by apply list_elem_of_In | by apply download_fails_iff].
  - intros outcomes Hout. rewrite (Hok outcomes Hout), length_fmap.
    split; [|done]. apply Forall_forall. intros p Hp. apply fetchable_failure.
    destruct (failure get w p) as [e|] eqn:Hf; [|done].
    assert (Hex : existsb (download_fails get w) pairs = true).
    { apply existsb_exists. exists p. split; [by apply list_elem_of_In|].
      unfold download_fails. by rewrite Hf. }
    apply Hiff in Hex as [e' He']. congruence.
Qed.

(** X8.  What downloading a list of pairs does, whatever the order in
    which the downloads progress and whether it raises or not: a path that
    is the destination of no fetch answered 200 keeps its content, no file
    is ever removed, no directory is created and nothing is printed, each
    URL is requested at most once and only bodies answered 200 are
    written, to their destinations.  When nothing is raised, every URL has
    been requested exactly once and the writes are exactly the bodies
    answered 200; a destination that belongs to one pair only then holds
    the body of that pair. *)
Theorem download_all_images_effects get pairs w :
  let w' := (download_all_images get pairs w).2 in
  (∀ path, (∀ p, p ∈ pairs → p.2 = path → fetch_outcome get p = None) →
           files w' !! path = files w !! path)
  ∧ (∀ path, is_Some (files w !! path) → is_Some (files w' !! path))
  ∧ (∃ t, trace w' = trace w ++ t
          ∧ Forall (λ e, is_io e = true) t
          ∧ requested t ⊆+ pairs.*1
          ∧ written t ⊆+ omap (fetch_write get) pairs
          ∧ (∀ outcomes, (download_all_images get pairs w).1 = Ok outcomes →
               requested t ≡ₚ pairs.*1
               ∧ written t ≡ₚ omap (fetch_write get) pairs))
  ∧ (∀ outcomes (i : nat) url path data,
       (download_all_images get pairs w).1 = Ok outcomes →
       pairs !! i = Some (url, path) →
       respond get url = Ok (200, Ok data) →
       (∀ j p, pairs !! j = Some p → j ≠ i → p.2 ≠ path) →
       files w' !! path = Some data).
Proof.
  intros w'. subst w'.
  split; [|split; [|split]].
  - intros path Hno. unfold download_all_images, gather.
    apply gather_steps_files. intros t (p & -> & Hp)%elem_of_start Hpath.
    apply may_write_start. by apply Hno.
  - intros path. unfold download_all_images, gather. apply gather_steps_files.
  - destruct (download_all_images_raise get pairs w) as (_ & _ & _ & (t' & Ht' & Hio)).
    unfold download_all_images, gather in *.
    destruct (gather_steps_trace get (steps_total ((λ p, (p, Requesting)) <$> pairs))
                (resume get pairs) ((λ p, (p, Requesting)) <$> pairs) w)
      as (t & Ht & Hr & Hw & Hok); [done|].
    rewrite to_request_start in Hr, Hok. rewrite to_write_start in Hw, Hok.
    exists t. split; [done|]. split; [|done].
    rewrite Ht in Ht'. by apply app_inv_head in Ht' as ->.
  - intros outcomes i url path data Hout Hi Hget Huniq.
    apply download_all_images_content with (i := i) (url := url); try done.
    apply Forall_forall. intros p Hp. apply fetchable_failure.
    destruct (download_all_images_raise get pairs w) as (Hiff & _ & _ & _).
    destruct (failure get w p) as [e|] eqn:Hf; [|done].
    assert (Hex : existsb (download_fails get w) pairs = true).
    { apply existsb_exists. exists p. split; [by apply list_elem_of_In|].
      unfold download_fails. by rewrite Hf. }
    apply Hiff in Hex as [e' He']. congruence.
Qed.

(** The first failure ends the gather: a download that has not started is
    then never awaited.  Whether it still sends its request depends on
    the event loop alone. *)
Example download_all_images_first_failure :
  download_all_images offline_get
    [ ("https://cdn.example/m/aaaaaaaa1111_0.png", "out/aaaaaaaa.png");
      ("https://cdn.example/m/bbbbbbbb2222_1.png", "out/bbbbbbbb.png") ] out_world
  = (Raise (ClientError "cannot connect to host"),
     World ∅ [EvMakedirs "out"; EvGet "https://cdn.example/m/aaaaaaaa1111_0.png"])
  ∧ download_all_images (Http (respond offline_get) (λ _, [0; 0]%nat))
      [ ("https://cdn.example/m/aaaaaaaa1111_0.png", "out/aaaaaaaa.png");
        ("https://cdn.example/m/bbbbbbbb2222_1.png", "out/bbbbbbbb.png") ] out_world
    = (Raise (ClientError "cannot connect to host"),
       World ∅ [EvMakedirs "out"; EvGet "https://cdn.example/m/aaaaaaaa1111_0.png";
                EvGet "https://cdn.example/m/bbbbbbbb2222_1.png"]).
Proof. split; by vm_compute. Qed.

(** ** Media downloader: saving the media of a record *)

Lemma for_each_app {A B} (f : A → res B) (l1 l2 : list A) :
  for_each f (l1 ++ l2)
  = (ys1 ← for_each f l1; ys2 ← for_each f l2; Ok (ys1 ++ ys2)).
Proof.
  induction l1 as [|x l1 IH]; simpl.
  - by destruct (for_each f l2).
  - destruct (f x) as [y|e]; [|done]. simpl. rewrite IH.
    destruct (for_each f l1) as [ys1|e]; [|done]. simpl.
    by destruct (for_each f l2).
Qed.

(** A descriptor that cannot be read stops the loop with its exception,
    whatever follows it. *)
Lemma for_each_bad out_dir good urls bad rest e :
  Forall2 (λ img url, py_getitem img "url" = Ok (JStr url)) good urls →
  url_and_file out_dir bad = Raise e →
  for_each (url_and_file out_dir) (good ++ bad :: rest) = Raise e.
Proof.
  intros Hgood Hbad. rewrite for_each_app, (for_each_urls _ _ _ Hgood). simpl.
  by rewrite Hbad.
Qed.

Lemma save_generated_images_raise_early get r images out_dir w e :
  r !! "images" = Some images →
  py_iter images ≫= for_each (url_and_file out_dir) = Raise e →
  save_generated_images get (Some r) out_dir w
  = (Raise e, World (files w) (trace w ++ [EvMakedirs out_dir])).
Proof.
  intros Hr Hbad. rewrite (save_generated_images_run _ _ _ _ _ Hr).
  rewrite M_bind_run. unfold makedirs, emit. cbv beta iota.
  rewrite M_bind_run. unfold lift. by rewrite Hbad.
Qed.

(** X9.  A record whose media list cannot be read makes the save raise
    after the directory has been created and before anything is fetched:
    no URL is requested and no file is written, also when the descriptors
    before the bad one are fine.  A descriptor without a [url] key is a
    [KeyError]; a [url] that is no text is an [AttributeError]; media that
    are a number, a boolean or null are a [TypeError]. *)
Theorem save_generated_images_malformed get (r : dict) out_dir w :
  let w' := World (files w) (trace w ++ [EvMakedirs out_dir]) in
  (∀ good urls m rest,
     r !! "images" = Some (JArr (good ++ JObj m :: rest)) →
     Forall2 (λ img url, py_getitem img "url" = Ok (JStr url)) good urls →
     m !! "url" = None →
     save_generated_images get (Some r) out_dir w = (Raise (KeyError "url"), w'))
  ∧ (∀ good urls m v rest,
       r !! "images" = Some (JArr (good ++ JObj m :: rest)) →
       Forall2 (λ img url, py_getitem img "url" = Ok (JStr url)) good urls →
       m !! "url" = Some v → (∀ s, v ≠ JStr s) →
       save_generated_images get (Some r) out_dir w
       = (Raise (AttributeError "object has no attribute 'split'"), w'))
  ∧ (∀ images,
       r !! "images" = Some images →
       images = JNull ∨ (∃ b, images = JBool b) ∨ (∃ z, images = JInt z)
         ∨ (∃ f, images = JFloat f) →
       save_generated_images get (Some r) out_dir w
       = (Raise (TypeError "object is not iterable"), w')).
Proof.
  intros w'. split; [|split].
  - intros good urls m rest Hr Hgood Hm.
    apply save_generated_images_raise_early with (images := JArr (good ++ JObj m :: rest));
      [done|].
    simpl. apply for_each_bad with (urls := urls); [done|].
    unfold url_and_file. simpl. by rewrite Hm.
  - intros good urls m v rest Hr Hgood Hm Hv.
    apply save_generated_images_raise_early with (images := JArr (good ++ JObj m :: rest));
      [done|].
    simpl. apply for_each_bad with (urls := urls); [done|].
    unfold url_and_file. simpl. rewrite Hm. simpl.
    destruct v; try done. by destruct (Hv s).
  - intros images Hr Himg.
    apply save_generated_images_raise_early with (images := images); [done|].
    destruct Himg as [-> | [[b ->] | [[z ->] | [f ->]]]]; done.
Qed.

(** X10.  Saving a record whose descriptors each carry a text URL, when
    every download can run to its end - each fetch gets a response, and a
    file answered 200 can be opened once the output directory is created
    and its body read - does not raise; it creates the output directory,
    then requests each URL exactly once and writes exactly the bodies
    answered 200, each to the file name derived from its URL, in the order
    the event loop decides.  Every other file is left as it was. *)
Theorem save_generated_images_effects get (r : dict) out_dir imgs urls w :
  r !! "images" = Some (JArr imgs) →
  Forall2 (λ img url, py_getitem img "url" = Ok (JStr url)) imgs urls →
  let pairs := (λ url, (url, fname out_dir url)) <$> urls in
  Forall (fetchable get (World (files w) (trace w ++ [EvMakedirs out_dir]))) pairs →
  ∃ saved w' t,
    save_generated_images get (Some r) out_dir w = (Ok saved, w')
    ∧ trace w' = trace w ++ EvMakedirs out_dir :: t
    ∧ Forall (λ e, is_io e = true) t
    ∧ requested t ≡ₚ urls
    ∧ written t ≡ₚ omap (fetch_write get) pairs
    ∧ (∀ path, (∀ url, url ∈ urls → fname out_dir url = path →
                       fetch_outcome get (url, fname out_dir url) = None) →
               files w' !! path = files w !! path).
Proof.
  intros Hr Himgs pairs Hfetch.
  rewrite (save_generated_images_downloads get r _ pairs out_dir w Hr).
  2:{ exact (for_each_urls _ _ _ Himgs). }
  set (w1 := World (files w) (trace w ++ [EvMakedirs out_dir])) in *.
  destruct (download_all_images_ok get pairs w1 Hfetch) as (w' & Hrun & _).
  destruct (download_all_images_effects get pairs w1)
    as (Hframe & _ & (t & Ht & Hio & _ & _ & Hexact) & _).
  rewrite Hrun in Hframe, Ht, Hexact. simpl in Hframe, Ht, Hexact.
  destruct (Hexact _ eq_refl) as [Hreq Hwr].
  rewrite Hrun. eexists _, w', t. split; [reflexivity|].
  split; [by rewrite Ht, <- app_assoc|]. split; [done|].
  split; [|split; [done|]].
  - rewrite Hreq. subst pairs. rewrite <- list_fmap_compose. by rewrite list_fmap_id.
  - intros path Hno. rewrite Hframe; [done|].
    intros p Hp Hpath. subst pairs. apply list_elem_of_fmap in Hp as (url & -> & Hurl).
    by apply Hno.
Qed.

Lemma sample_result_fetchable :
  Forall (fetchable sample_get (World (files empty_world)
                                  (trace empty_world ++ [EvMakedirs "out"])))
    ((λ url, (url, fname "out" url)) <$>
       [ "https://cdn.example/m/aaaaaaaa1111_0.png";
         "https://cdn.example/m/bbbbbbbb2222_1.png" ]).
Proof.
  repeat constructor; eexists _, _; (split; [reflexivity|]); intros Hs; try done.
  split; [by vm_compute | by eexists].
Qed.

(** The sample record against the sample service: the first of its two
    URLs has no content, the second is saved under its derived name. *)
Lemma save_generated_images_effects_witness :
  ∃ saved w',
    save_generated_images sample_get (Some sample_result) "out" empty_world = (Ok saved, w')
    ∧ saved = None
    ∧ requested (trace w')
      ≡ₚ ["https://cdn.example/m/aaaaaaaa1111_0.png";
          "https://cdn.example/m/bbbbbbbb2222_1.png"]
    ∧ files w' !! "out/bbbbbbbb.png"
      = Some "PNG:https://cdn.example/m/bbbbbbbb2222_1.png"
    ∧ files w' !! "out/aaaaaaaa.png" = None.
Proof.
  destruct (save_generated_images_effects sample_get sample_result "out"
              [ JObj {[ "url" := JStr "https://cdn.example/m/aaaaaaaa1111_0.png" ]};
                JObj {[ "url" := JStr "https://cdn.example/m/bbbbbbbb2222_1.png" ]} ]
              [ "https://cdn.example/m/aaaaaaaa1111_0.png";
                "https://cdn.example/m/bbbbbbbb2222_1.png" ] empty_world)
    as (saved & w' & t & Hrun & Htrace & _ & Hreq & _ & _).
  - reflexivity.
  - repeat constructor.
  - exact sample_result_fetchable.
  - exists saved, w'. split; [exact Hrun|].
    assert (Hs : (save_generated_images sample_get (Some sample_result) "out"
                    empty_world).1 = Ok saved) by (by rewrite Hrun).
    vm_compute in Hs. injection Hs as Hs.
    assert (Hw : w' = (save_generated_images sample_get (Some sample_result) "out"
                         empty_world).2) by (by rewrite Hrun).
    split; [by symmetry|].
    split; [rewrite Htrace; exact Hreq|].
    rewrite Hw. split; vm_compute; reflexivity.
Defined.

(** ** Batch orchestrator: edge cases *)

(** Without an output directory the loop touches no file and fetches
    nothing: it only prints its error lines. *)
Lemma collect_no_dir get completed : ∀ results failed w,
  ∃ errors,
    collect get "" completed results failed w
    = (results ++ successes completed, (failed + length errors)%nat,
       World (files w) (trace w ++ (EvPrintError <$> errors))).
Proof.
  induction completed as [|outcome rest IH]; intros results failed w.
  { exists []. simpl. rewrite !app_nil_r, Nat.add_0_r. by destruct w. }
  simpl. destruct outcome as [data|e].
  - change (try_body get "" (Ok data) w) with (Ok data, w).
    cbv beta iota. destruct (IH (results ++ [data]) failed w) as [errors ->].
    exists errors. unfold successes. csimpl. by rewrite <- app_assoc.
  - change (try_body get "" (Raise e) w) with (@Raise dict e, w).
    cbv beta iota.
    destruct (IH results (S failed) (World (files w) (trace w ++ [EvPrintError e])))
      as [errors ->].
    exists (e :: errors). unfold successes. csimpl. rewrite <- app_assoc.
    repeat f_equal. lia.
Qed.

Lemma process_single_image_direct fal endpoint args mode poll fuel :
  mode ≠ "submit" →
  process_single_image fal endpoint args mode poll fuel
  = if String.eqb mode "subscribe"
    then (Some (subscribe_async fal endpoint args), [NetSubscribe endpoint args])
    else (Some (run_async fal endpoint args), [NetRun endpoint args]).
Proof.
  intros Hne. unfold process_single_image. destruct (String.eqb mode "subscribe"); [done|].
  by destruct (String.eqb_spec mode "submit").
Qed.

Lemma length_omap_id_le {A} (l : list (option A)) :
  (length (omap id l) ≤ length l)%nat.
Proof. induction l as [|[x|] l IH]; csimpl; lia. Qed.

Lemma length_omap_id_lt {A} (l : list (option A)) :
  None ∈ l → (length (omap id l) < length l)%nat.
Proof.
  induction l as [|[x|] l IH]; csimpl.
  - by intros ?%elem_of_nil.
  - intros [?|Hin]%elem_of_cons; [done|]. specialize (IH Hin). lia.
  - intros _. pose proof (length_omap_id_le l) as Hle. lia.
Qed.

(** X11.  A count of zero or a negative count is no error: no request is
    made, nothing is printed, fetched or written, and the result is the
    empty list. *)
Theorem generate_images_no_requests fal get fuel picks prompt count out_dir model ratio
    raw size w h guidance steps out_fmt safety safety_check seed sync mode w0 :
  is_Some (ENDPOINTS !! model) →
  count ≤ 0 →
  generate_images fal get fuel picks prompt count out_dir model ratio raw size
                  w h guidance steps out_fmt safety safety_check seed sync mode w0
  = (Some (Ok []), w0).
Proof.
  intros [endpoint Hm] Hcount. unfold generate_images. rewrite Hm.
  unfold batch_payloads. replace (Z.to_nat count) with 0%nat by lia. done.
Qed.

Lemma generate_images_no_requests_witness :
  generate_images sample_fals sample_get 10 [] "a prompt" (-2) "out" "ultra"
    None None None None None None None None None None (Some 40) None "submit" empty_world
  = (Some (Ok []), empty_world).
Proof.
  apply generate_images_no_requests; [|lia].
  rewrite ENDPOINTS_ultra. by eexists.
Defined.

(** X12.  With an empty output directory nothing is saved: the batch
    leaves every file as it was, requests no media and creates no
    directory; whatever it appends to the trace is an error or summary
    line. *)
Theorem generate_images_without_out_dir fal get fuel picks prompt count model ratio
    raw size w h guidance steps out_fmt safety safety_check seed sync mode w0 :
  let ran :=
    generate_images fal get fuel picks prompt count "" model ratio raw size
                    w h guidance steps out_fmt safety safety_check seed sync mode w0 in
  files ran.2 = files w0
  ∧ ∃ t, trace ran.2 = trace w0 ++ t ∧ reports t = t.
Proof.
  intros ran. subst ran. unfold generate_images.
  destruct (ENDPOINTS !! model) as [endpoint|].
  2:{ split; [done|]. exists []. by rewrite app_nil_r. }
  cbv zeta.
  destruct (collect_no_dir get
              (as_completed picks
                 (omap id (imap (λ i task_args,
                    (process_single_image (fal i) endpoint task_args mode
                       POLL_INTERVAL fuel).1)
                    (batch_payloads
                       (batch_base_args prompt model ratio raw size w h guidance steps
                          out_fmt safety safety_check sync) seed count)))
                 (length (omap id (imap (λ i task_args,
                    (process_single_image (fal i) endpoint task_args mode
                       POLL_INTERVAL fuel).1)
                    (batch_payloads
                       (batch_base_args prompt model ratio raw size w h guidance steps
                          out_fmt safety safety_check sync) seed count)))))
              [] 0%nat w0) as [errors ->].
  assert (Herr : reports (EvPrintError <$> errors) = EvPrintError <$> errors).
  { induction errors as [|e errors IH]; [done|]. csimpl. unfold reports in *. simpl.
    by rewrite IH. }
  destruct (_ <? _)%nat; [|destruct (_ =? _)%nat]; simpl.
  - split; [done|]. by eexists.
  - split; [done|]. by eexists.
  - split; [done|]. rewrite <- app_assoc. eexists. split; [done|].
    rewrite reports_app, Herr. done.
Qed.

(** Outside the poll mode a batch for a known model always returns. *)
Lemma generate_images_direct fal get fuel picks prompt count out_dir model
    ratio raw size w h guidance steps out_fmt safety safety_check seed sync mode w0 :
  mode ≠ "submit" →
  is_Some (ENDPOINTS !! model) →
  ∃ results w1,
    generate_images fal get fuel picks prompt count out_dir model ratio raw size
                    w h guidance steps out_fmt safety safety_check seed sync mode w0
    = (Some (Ok results), w1).
Proof.
  intros Hmode [endpoint Hm]. unfold generate_images. rewrite Hm. cbv zeta.
  set (base := batch_base_args prompt model ratio raw size w h guidance steps
                 out_fmt safety safety_check sync).
  set (outcome := λ i : nat,
         if String.eqb mode "subscribe"
         then subscribe_async (fal i) endpoint (task_args base seed i)
         else run_async (fal i) endpoint (task_args base seed i)).
  rewrite (batch_tasks_settled fal endpoint mode fuel base seed count outcome).
  2:{ intros i Hi. rewrite process_single_image_direct by done. subst outcome. simpl.
      by destruct (String.eqb mode "subscribe"). }
  rewrite omap_id_Some.
  destruct (collect _ _ _ _ _ _) as [[results failed] w1].
  rewrite !length_fmap, Nat.ltb_irrefl.
  destruct (failed =? 0)%nat; by eexists _, _.
Qed.

(** X14.  In poll mode one request that the service accepts and then
    reports as pending for ever keeps the whole batch from returning,
    whatever the other requests do and however long one waits: no result
    list is ever handed back. *)
Theorem generate_images_waits_for_pending fal get picks prompt count out_dir model
    ratio raw size w h guidance steps out_fmt safety safety_check seed sync w0
    endpoint (i : nat) request_id :
  ENDPOINTS !! model = Some endpoint →
  (i < Z.to_nat count)%nat →
  let base_args :=
    batch_base_args prompt model ratio raw size w h guidance steps
                    out_fmt safety safety_check sync in
  submit_async (fal i) endpoint (task_args base_args seed i) = Ok request_id →
  (∀ k, still_pending (fal i) endpoint request_id k) →
  ∀ fuel,
    (generate_images fal get fuel picks prompt count out_dir model ratio raw size
                     w h guidance steps out_fmt safety safety_check seed sync "submit"
                     w0).1 = None.
Proof.
  intros Hm Hi base_args Hsub Hpend fuel. unfold generate_images. rewrite Hm.
  cbv zeta. fold base_args.
  set (tasks := imap _ (batch_payloads base_args seed count)).
  assert (Hnone : None ∈ tasks).
  { apply list_elem_of_lookup. exists i. subst tasks.
    rewrite list_lookup_imap, batch_payloads_lookup by done. simpl.
    unfold process_single_image. simpl. unfold submit_request. rewrite Hsub.
    by rewrite (poll_loop_pending (fal i) endpoint request_id POLL_INTERVAL fuel 0). }
  apply length_omap_id_lt in Hnone.
  destruct (collect _ _ _ _ _ _) as [[results failed] w1].
  apply Nat.ltb_lt in Hnone. by rewrite Hnone.
Qed.

(** Of three requests the second stays in progress: the batch never
    returns. *)
Lemma generate_images_waits_for_pending_witness :
  (generate_images stuck_fals sample_get 25 [] "a prompt" 3 "out" "ultra"
     None None None None None None None None None None None None "submit"
     empty_world).1 = None.
Proof.
  apply (generate_images_waits_for_pending stuck_fals sample_get [] "a prompt" 3 "out"
           "ultra" None None None None None None None None None None None None
           empty_world "fal-ai/flux-pro/v1.1-ultra" 1 "req-3").
  - exact ENDPOINTS_ultra.
  - simpl. lia.
  - reflexivity.
  - intros k. eexists _, _. split; [reflexivity|]. split; reflexivity.
Defined.

(** A record is kept exactly when it was delivered and, with an output
    directory, the save of its media does not raise. *)
Lemma kept_Some_iff get out_dir w0 o data :
  kept get out_dir w0 o = Some data
  ↔ o = Ok data
    ∧ (out_dir = ""
       ∨ ∀ e, (save_generated_images get (Some data) out_dir w0).1 ≠ Raise e).
Proof.
  unfold kept. destruct o as [d|e]; [|by split; [|intros [? _]]].
  destruct (save_generated_images_spec get d out_dir w0) as (_ & _ & Hiff).
  destruct (String.eqb_spec out_dir "") as [->|Hne].
  - split; [intros [= ->]; split; [done | by left] | by intros [[= ->] _]].
  - destruct (save_fails get out_dir w0 d) eqn:Hf.
    + split; [done|]. intros [[= ->] [?|Hno]]; [done|].
      destruct (proj2 Hiff eq_refl) as [e He]. by destruct (Hno e).
    + split.
      * intros [= ->]. split; [done|]. right. intros e He.
        assert (Ht : false = true) by (apply Hiff; by exists e). discriminate Ht.
      * by intros [[= ->] _].
Qed.

Lemma kept_Some get out_dir w0 data :
  kept get out_dir w0 (Ok data) = Some data
  ↔ out_dir = "" ∨ ∀ e, (save_generated_images get (Some data) out_dir w0).1 ≠ Raise e.
Proof. rewrite kept_Some_iff. naive_solver. Qed.

(** X15.  When every request of a batch settles, the records the batch
    returns are, up to the order of completion, those of the requests that
    succeeded and whose media save did not raise: a record is returned
    exactly when it is the record of such a request.  A record that the
    service delivered but whose media could not be saved - a download
    failed at the transport level, or a file answered 200 could not be
    opened or read - is counted as a failure and left out. *)
Theorem generate_images_returns_saved_records fal get fuel picks prompt count out_dir
    model ratio raw size w h guidance steps out_fmt safety safety_check seed sync mode w0
    endpoint (outcome : nat → res dict) :
  ENDPOINTS !! model = Some endpoint →
  let base_args :=
    batch_base_args prompt model ratio raw size w h guidance steps
                    out_fmt safety safety_check sync in
  (∀ i, (i < Z.to_nat count)%nat →
     (process_single_image (fal i) endpoint (task_args base_args seed i) mode
        POLL_INTERVAL fuel).1 = Some (outcome i)) →
  ∃ results,
    (generate_images fal get fuel picks prompt count out_dir model ratio raw size
                     w h guidance steps out_fmt safety safety_check seed sync mode w0).1
    = Some (Ok results)
    ∧ results ≡ₚ omap (kept get out_dir w0) (outcome <$> seq 0 (Z.to_nat count))
    ∧ (∀ data, data ∈ results
               ↔ ∃ i, (i < Z.to_nat count)%nat
                      ∧ outcome i = Ok data
                      ∧ (out_dir = ""
                         ∨ ∀ e, (save_generated_images get (Some data) out_dir w0).1
                                ≠ Raise e)).
Proof.
  intros Hm base_args Hsettle. unfold generate_images. rewrite Hm. cbv zeta.
  fold base_args. rewrite (batch_tasks_settled _ _ _ _ _ _ _ outcome Hsettle).
  rewrite omap_id_Some.
  set (outcomes := outcome <$> seq 0 (Z.to_nat count)).
  set (completed := as_completed picks outcomes (length outcomes)).
  assert (Hperm : completed ≡ₚ outcomes) by apply as_completed_Permutation.
  destruct (collect_spec get out_dir w0 completed [] 0%nat w0 (same_dirs_refl _ _))
    as (errors & Hres & _).
  destruct (collect get out_dir completed [] 0%nat w0) as [[results failed] w1].
  simpl in Hres. subst results.
  exists (omap (kept get out_dir w0) completed).
  assert (Hperm' : omap (kept get out_dir w0) completed
                   ≡ₚ omap (kept get out_dir w0) outcomes).
  { by rewrite Hperm. }
  split; [|split; [done|]].
  - subst outcomes. rewrite !length_fmap, Nat.ltb_irrefl. by destruct (failed =? 0)%nat.
  - pose proof (kept_Some_iff get out_dir w0) as Hkept.
    intros data. rewrite Hperm', list_elem_of_omap. subst outcomes. split.
    + intros (o & Ho & Hk). apply list_elem_of_fmap in Ho as (i & -> & Hi).
      apply elem_of_seq in Hi. apply Hkept in Hk as [Ho Hs].
      exists i. split; [lia|done].
    + intros (i & Hi & Ho & Hs). exists (outcome i). split.
      * apply list_elem_of_fmap. exists i. split; [done|]. apply elem_of_seq. lia.
      * apply Hkept. done.
Qed.

Lemma sample_batch_kept_offline :
  omap (kept offline_get "out" empty_world) (sample_outcome <$> seq 0 (Z.to_nat 3)) = [].
Proof. by vm_compute. Qed.

(** Two of three requests deliver a record, but the media host cannot be
    reached: the batch returns no record at all. *)
Lemma generate_images_returns_saved_records_witness :
  (generate_images sample_fals offline_get 10 [2; 0; 0]%nat
     "a prompt" 3 "out" "ultra" None None None None None None None
     None None None (Some 40) None "subscribe" empty_world).1
  = Some (Ok []).
Proof.
  destruct (generate_images_returns_saved_records sample_fals offline_get 10 [2; 0; 0]%nat
              "a prompt" 3 "out" "ultra" None None None None None None None
              None None None (Some 40) None "subscribe" empty_world
              "fal-ai/flux-pro/v1.1-ultra" sample_outcome ENDPOINTS_ultra
              sample_batch_settles)
    as (results & Hrun & Hperm & _).
  rewrite sample_batch_kept_offline in Hperm. apply Permutation_nil_r in Hperm.
  rewrite Hrun, Hperm. reflexivity.
Defined.

(** ** Run finalizer: what is removed, and that a second run changes nothing *)

Lemma empty_among_delete fs tr tr' p rest :
  p ∉ rest →
  empty_among (World (delete p fs) tr) rest = empty_among (World fs tr') rest.
Proof.
  unfold empty_among. simpl. induction rest as [|q rest IH]; intros Hp; [done|].
  apply not_elem_of_cons in Hp as [Hne Hp].
  rewrite !filter_cons, IH by done. rewrite lookup_delete_ne by done. done.
Qed.

(** The trace of the sweep: one removal and one printed line for each
    empty file, in the order of the walk. *)
Lemma remove_empty_trace paths : ∀ w,
  NoDup paths →
  (∀ path, path ∈ paths → is_Some (files w !! path)) →
  trace (remove_empty paths w).2 = trace w ++ removals (empty_among w paths).
Proof.
  induction paths as [|p rest IH]; intros w Hnd Hex.
  { simpl. by rewrite app_nil_r. }
  apply NoDup_cons in Hnd as [Hp Hnd].
  destruct (Hex p) as [d0 Hd0]; [by left|].
  simpl remove_empty. rewrite M_bind_run. unfold getsize. rewrite Hd0. cbv beta iota.
  rewrite M_bind_run. unfold empty_among. rewrite filter_cons. fold (empty_among w rest).
  destruct (String.length d0 =? 0)%nat eqn:Hlen.
  - apply length_zero_empty in Hlen as ->.
    rewrite M_bind_run. unfold remove. rewrite Hd0. cbv beta iota.
    unfold emit. cbv beta iota. simpl files. simpl trace.
    rewrite IH; [|done|].
    2:{ intros path Hin. simpl. rewrite lookup_delete_ne; [apply Hex; by right|].
        intros ->. done. }
    simpl trace. destruct w as [fs tr]. simpl in *.
    rewrite (empty_among_delete fs _ tr p rest Hp).
    unfold removals. csimpl. by rewrite <- !app_assoc.
  - unfold mret, M_ret. cbv beta iota. rewrite IH; [|done|].
    2:{ intros path Hin. apply Hex. by right. }
    rewrite decide_False; [done|]. rewrite Hd0. intros [= ->]. done.
Qed.

(** The finalizer, in full: it never raises; it writes the metadata file,
    then removes and reports, once each, exactly the empty files below the
    output directory. *)
Lemma cleanup_full (json_dumps : list dict → string) results out_dir w :
  let metadata := path_join out_dir "metadata.json" in
  let stored := <[metadata := json_dumps results]> (files w) in
  ∃ removed fs',
    cleanup json_dumps results out_dir w
    = (Ok tt, World fs' (trace w ++ EvWrite metadata (json_dumps results)
                           :: removals removed))
    ∧ NoDup removed
    ∧ (∀ path, path ∈ removed
               ↔ out_dir ≠ "" ∧ under out_dir path = true ∧ stored !! path = Some "")
    ∧ (∀ path, fs' !! path = if decide (path ∈ removed) then None else stored !! path).
Proof.
  intros metadata stored.
  set (w1 := World stored (trace w ++ [EvWrite metadata (json_dumps results)])).
  assert (Hrun : cleanup json_dumps results out_dir w = remove_empty (walk w1 out_dir) w1).
  { unfold cleanup. rewrite M_bind_run. unfold write_file. cbv beta iota. done. }
  assert (Hex : ∀ path, path ∈ walk w1 out_dir → is_Some (files w1 !! path)).
  { intros path Hin. by apply walk_elem in Hin as (_ & _ & ?). }
  destruct (remove_empty_spec (walk w1 out_dir) w1 (walk_NoDup _ _) Hex)
    as (fs' & t & Hspec & _ & Hfs).
  pose proof (remove_empty_trace (walk w1 out_dir) w1 (walk_NoDup _ _) Hex) as Htr.
  rewrite Hspec in Htr. simpl in Htr.
  exists (empty_among w1 (walk w1 out_dir)), fs'.
  assert (Hin : ∀ path, path ∈ empty_among w1 (walk w1 out_dir)
                        ↔ out_dir ≠ "" ∧ under out_dir path = true
                          ∧ stored !! path = Some "").
  { intros path. unfold empty_among. rewrite list_elem_of_filter, walk_elem. simpl.
    split; [naive_solver|]. intros (? & ? & Hs). rewrite Hs. naive_solver. }
  split; [|split; [|split]].
  - rewrite Hrun, Hspec. f_equal. f_equal.
    apply app_inv_head in Htr. rewrite Htr. subst w1. simpl.
    by rewrite <- app_assoc.
  - apply NoDup_filter, walk_NoDup.
  - exact Hin.
  - intros path. rewrite Hfs. simpl.
    destruct (stored !! path) as [data|] eqn:Hd.
    + destruct (decide (path ∈ walk w1 out_dir ∧ data = "")) as [[Hw ->]|Hn].
      * rewrite decide_True; [done|]. apply Hin. apply walk_elem in Hw. naive_solver.
      * rewrite decide_False; [done|]. intros (Ho & Hu & Hs)%Hin. apply Hn.
        split; [|congruence]. apply walk_elem. simpl. rewrite Hd. naive_solver.
    + destruct (decide (path ∈ empty_among w1 (walk w1 out_dir))); done.
Qed.

(** X16.  What the finalizer removes and reports, where its metadata
    file can be opened (the output directory exists, and the path of the
    metadata file is no directory).  After the metadata file is written,
    the finalizer removes exactly the files below the output directory
    that are empty at that moment - the metadata file itself when the
    serialized list is the empty text - each once, and prints one line for
    each removal, right after it; nothing else is touched, and the run
    does not raise.  With an empty output directory nothing is walked:
    only the metadata file is written. *)
Theorem cleanup_reports_removals (json_dumps : list dict → string) results out_dir w :
  let metadata := path_join out_dir "metadata.json" in
  let stored := <[metadata := json_dumps results]> (files w) in
  let ran := cleanup json_dumps results out_dir w in
  can_open w metadata = true →
  ∃ removed,
    ran.1 = Ok tt
    ∧ trace ran.2
      = trace w ++ EvWrite metadata (json_dumps results) :: removals removed
    ∧ NoDup removed
    ∧ (∀ path, path ∈ removed
               ↔ out_dir ≠ "" ∧ under out_dir path = true ∧ stored !! path = Some "")
    ∧ (∀ path, files ran.2 !! path
               = if decide (path ∈ removed) then None else stored !! path).
Proof.
  intros metadata stored ran _. subst ran.
  destruct (cleanup_full json_dumps results out_dir w)
    as (removed & fs' & Hrun & Hnd & Hin & Hfs).
  exists removed. rewrite Hrun. done.
Qed.

Lemma sample_store_can_open :
  can_open (World (files sample_store) [EvMakedirs "out"]) (path_join "out" "metadata.json")
  = true.
Proof. by vm_compute. Qed.

(** The finalizer on the sample store, its directory being there: it
    does not raise, and its trace is the write of the metadata file and
    the removals. *)
Lemma cleanup_reports_removals_witness :
  ∃ removed : list string,
    (cleanup sample_dumps [] "out" (World (files sample_store) [EvMakedirs "out"])).1 = Ok tt
    ∧ trace (cleanup sample_dumps [] "out"
               (World (files sample_store) [EvMakedirs "out"])).2
      = [EvMakedirs "out"] ++ EvWrite (path_join "out" "metadata.json") (sample_dumps [])
          :: removals removed
    ∧ NoDup removed.
Proof.
  destruct (cleanup_reports_removals sample_dumps [] "out"
              (World (files sample_store) [EvMakedirs "out"]) sample_store_can_open)
    as (removed & Hrun & Htrace & Hnd & _).
  exists removed. split; [exact Hrun|]. split; [exact Htrace | exact Hnd].
Defined.

(** X17.  Finalizing twice is finalizing once: a second run of the
    finalizer with the same records leaves every file as the first run
    left it, and (the serialized list being a non-empty text) it removes
    nothing and prints nothing: it only rewrites the metadata file. *)
Theorem cleanup_idempotent (json_dumps : list dict → string) results out_dir w :
  let metadata := path_join out_dir "metadata.json" in
  let w' := (cleanup json_dumps results out_dir w).2 in
  files (cleanup json_dumps results out_dir w').2 = files w'
  ∧ (json_dumps results ≠ "" →
     cleanup json_dumps results out_dir w'
     = (Ok tt, World (files w') (trace w' ++ [EvWrite metadata (json_dumps results)]))).
Proof.
  intros metadata w'. subst w'.
  destruct (cleanup_full json_dumps results out_dir w)
    as (removed & fs' & Hrun & Hnd & Hin & Hfs).
  rewrite Hrun. simpl snd. fold metadata in Hrun, Hin, Hfs |- *.
  set (tr' := trace w ++ EvWrite metadata (json_dumps results) :: removals removed).
  destruct (cleanup_full json_dumps results out_dir (World fs' tr'))
    as (removed2 & fs'' & Hrun2 & Hnd2 & Hin2 & Hfs2).
  fold metadata in Hrun2, Hin2, Hfs2. simpl files in Hin2, Hfs2. simpl trace in Hrun2.
  rewrite Hrun2. simpl.
  assert (Hother : ∀ path, path ≠ metadata → path ∉ removed2).
  { intros path Hne (Ho & Hu & Hs)%Hin2. rewrite lookup_insert_ne in Hs by done.
    rewrite Hfs in Hs. destruct (decide (path ∈ removed)) as [|Hn]; [done|].
    apply Hn, Hin. done. }
  split.
  - apply map_eq. intros path. rewrite Hfs2.
    destruct (decide (path = metadata)) as [->|Hne].
    + rewrite lookup_insert_eq, Hfs, lookup_insert_eq.
      destruct (decide (metadata ∈ removed2)) as [H2|H2];
        destruct (decide (metadata ∈ removed)) as [H1|H1]; try done.
      * exfalso. apply H1, Hin. apply Hin2 in H2 as (? & ? & Hs).
        by rewrite lookup_insert_eq in Hs |- *.
      * exfalso. apply H2, Hin2. apply Hin in H1 as (? & ? & Hs).
        by rewrite lookup_insert_eq in Hs |- *.
    + rewrite decide_False by by apply Hother. by rewrite lookup_insert_ne.
  - intros Hdumps.
    assert (Hnil : removed2 = []).
    { destruct removed2 as [|p l]; [done|]. exfalso.
      destruct (decide (p = metadata)) as [->|Hne].
      - assert (Hp : metadata ∈ metadata :: l) by by left.
        apply Hin2 in Hp as (_ & _ & Hs). rewrite lookup_insert_eq in Hs. congruence.
      - apply (Hother p Hne). by left. }
    subst removed2. f_equal. f_equal.
    apply map_eq. intros path. rewrite Hfs2. simpl.
    destruct (decide (path = metadata)) as [->|Hne].
    + rewrite lookup_insert_eq, Hfs, lookup_insert_eq.
      rewrite decide_False; [done|].
      intros (_ & _ & Hs)%Hin. rewrite lookup_insert_eq in Hs. congruence.
    + by rewrite lookup_insert_ne.
Qed.

(** ** One run: what is sent, and what the metadata file holds *)

(** The call [process_generation] makes is the batch over the payload of
    the run: when every request settles it returns the kept records. *)
Lemma generate_from_args_run fal get fuel picks args prompt out_dir w0 endpoint
    (outcome : nat → res dict) :
  ENDPOINTS !! Args.model args = Some endpoint →
  (∀ i, (i < Z.to_nat (Args.n args))%nat →
     run_request_outcome fal fuel args prompt endpoint i = Some (outcome i)) →
  ∃ w1, generate_from_args fal get fuel picks args prompt out_dir w0
        = (Some (Ok (omap (kept get out_dir w0)
              (as_completed picks (outcome <$> seq 0 (Z.to_nat (Args.n args)))
                 (length (outcome <$> seq 0 (Z.to_nat (Args.n args))))))), w1).
Proof.
  intros Hm Hsettle. unfold generate_from_args, generate_images. rewrite Hm. cbv zeta.
  fold (run_base_args args prompt).
  rewrite (batch_tasks_settled _ _ _ _ _ _ _ outcome Hsettle).
  rewrite omap_id_Some.
  set (completed := as_completed picks _ _).
  destruct (collect_spec get out_dir w0 completed [] 0%nat w0 (same_dirs_refl _ _))
    as (errors & Hres & _).
  destruct (collect get out_dir completed [] 0%nat w0) as [[results failed] w1].
  simpl in Hres. subst results.
  rewrite !length_fmap, Nat.ltb_irrefl. destruct (failed =? 0)%nat; by eexists.
Qed.

(** X18.  When every request of a run settles, and the metadata file can
    be opened in the output directory, the run finishes, and the metadata
    file it leaves holds the serialized list of exactly the records that
    were delivered and whose media save did not raise, in the order in
    which their requests completed. *)
Theorem process_generation_metadata fal get fuel picks
    (json_dumps : list dict → string) args prompt out_dir w0 endpoint
    (outcome : nat → res dict) :
  ENDPOINTS !! Args.model args = Some endpoint →
  (∀ i, (i < Z.to_nat (Args.n args))%nat →
     run_request_outcome fal fuel args prompt endpoint i = Some (outcome i)) →
  can_open w0 (path_join out_dir "metadata.json") = true →
  ∃ completed w2,
    completed ≡ₚ outcome <$> seq 0 (Z.to_nat (Args.n args))
    ∧ process_generation fal get fuel picks json_dumps args prompt out_dir w0
      = (Some (Ok tt), w2)
    ∧ last (trace w2) = Some (EvPrintCompleted out_dir)
    ∧ (∀ data, kept get out_dir w0 (Ok data) = Some data
               ↔ out_dir = ""
                 ∨ ∀ e, (save_generated_images get (Some data) out_dir w0).1 ≠ Raise e)
    ∧ (json_dumps (omap (kept get out_dir w0) completed) ≠ "" →
       files w2 !! path_join out_dir "metadata.json"
       = Some (json_dumps (omap (kept get out_dir w0) completed))).
Proof.
  intros Hm Hsettle _.
  destruct (generate_from_args_run fal get fuel picks args prompt out_dir w0 endpoint
              outcome Hm Hsettle) as (w1 & Hgen).
  set (completed := as_completed picks _ _) in Hgen.
  destruct (process_generation_finalizes fal get fuel picks json_dumps args prompt
              out_dir w0 _ w1 Hgen) as (fs' & t & Hrun & _ & Hmeta).
  exists completed. eexists. split; [apply as_completed_Permutation|].
  split; [exact Hrun|]. split; [|split; [|exact Hmeta]].
  - simpl. rewrite app_comm_cons, app_assoc. apply last_snoc.
  - intros data. apply kept_Some.
Qed.

Lemma sample_run_settles i :
  (i < Z.to_nat (Args.n sample_ultra_args))%nat →
  run_request_outcome sample_fals 10 sample_ultra_args "a prompt"
    "fal-ai/flux-pro/v1.1-ultra" i = Some (sample_outcome i).
Proof.
  intros Hi. destruct i as [|[|[|i]]]; [reflexivity.. | simpl in Hi; lia].
Qed.

Lemma sample_dumps_not_empty results : sample_dumps results ≠ "".
Proof. by destruct results. Qed.

Lemma out_world_can_open : can_open out_world (path_join "out" "metadata.json") = true.
Proof. by vm_compute. Qed.

(** The sample run of three requests, the second failing: it finishes and
    leaves a metadata file. *)
Lemma process_generation_metadata_witness :
  ∃ w2,
    process_generation sample_fals sample_get 10 [2; 0; 0]%nat sample_dumps
      sample_ultra_args "a prompt" "out" out_world
    = (Some (Ok tt), w2)
    ∧ last (trace w2) = Some (EvPrintCompleted "out")
    ∧ is_Some (files w2 !! "out/metadata.json").
Proof.
  destruct (process_generation_metadata sample_fals sample_get 10 [2; 0; 0]%nat
              sample_dumps sample_ultra_args "a prompt" "out" out_world
              "fal-ai/flux-pro/v1.1-ultra" sample_outcome ENDPOINTS_ultra
              sample_run_settles out_world_can_open)
    as (completed & w2 & _ & Hrun & Hlast & _ & Hmeta).
  exists w2. split; [exact Hrun|]. split; [exact Hlast|].
  specialize (Hmeta (sample_dumps_not_empty _)).
  change (path_join "out" "metadata.json") with "out/metadata.json" in Hmeta.
  rewrite Hmeta. by eexists.
Defined.

(** ** One run: the payload the command line gives *)

Lemma run_base_args_base args prompt k :
  k ∈ base_keys →
  run_base_args args prompt !! k
  = build_base_args prompt
      (if truthy_str (Args.o args) then Args.o args else None)
      (if truthy_str (Args.s args) then Args.s args else None)
      None (Some (Args.sync args)) !! k.
Proof.
  intros Hk. unfold run_base_args, batch_base_args. cbv zeta.
  destruct (String.eqb (Args.model args) "ultra").
  - apply add_ultra_args_other. unfold base_keys, ultra_keys in *. set_solver.
  - apply add_pro_args_other. unfold base_keys, pro_keys in *. set_solver.
Qed.

(** X19.  What every request of a run carries, whatever the command line:
    the prompt, [num_images] 1 and the [sync_mode] flag - also when the
    flag is off - but never [enable_safety_checker]; the seed of request
    [i] is the given seed plus [i].  The options [--poll] and
    [--no-safety] are not read: changing them changes neither the payload
    nor anything else about the run. *)
Theorem run_payload_fixed_keys fal get fuel picks json_dumps args prompt out_dir w0 :
  (∀ i p, batch_payloads (run_base_args args prompt) (Args.seed args) (Args.n args) !! i
          = Some p →
     p !! "prompt" = Some (JStr prompt)
     ∧ p !! "num_images" = Some (JInt 1)
     ∧ p !! "sync_mode" = Some (JBool (Args.sync args))
     ∧ p !! "enable_safety_checker" = None
     ∧ p !! "seed" = (λ s, JInt (s + Z.of_nat i)) <$> Args.seed args)
  ∧ (∀ poll no_safety,
       run_base_args (with_poll_and_safety args poll no_safety) prompt
       = run_base_args args prompt
       ∧ process_generation fal get fuel picks json_dumps
           (with_poll_and_safety args poll no_safety) prompt out_dir w0
         = process_generation fal get fuel picks json_dumps args prompt out_dir w0).
Proof.
  split; [|by intros poll no_safety].
  intros i p Hi.
  assert (Hp : p = task_args (run_base_args args prompt) (Args.seed args) i).
  { unfold batch_payloads in Hi. rewrite list_lookup_fmap in Hi.
    destruct (seq 0 (Z.to_nat (Args.n args)) !! i) as [x|] eqn:Hx; [|done].
    apply lookup_seq in Hx as [-> _]. simpl in Hi. congruence. }
  destruct (build_base_args_lookup prompt
              (if truthy_str (Args.o args) then Args.o args else None)
              (if truthy_str (Args.s args) then Args.s args else None)
              None (Some (Args.sync args))) as (Hprompt & Hnum & _ & _ & Hcheck & Hsync).
  assert (Hkeep : ∀ k, k ∈ base_keys → k ≠ "seed" →
            p !! k = build_base_args prompt
                       (if truthy_str (Args.o args) then Args.o args else None)
                       (if truthy_str (Args.s args) then Args.s args else None)
                       None (Some (Args.sync args)) !! k).
  { intros k Hk Hne. rewrite Hp. unfold task_args.
    destruct (Args.seed args); [rewrite lookup_insert_ne by done|];
      by apply run_base_args_base. }
  split; [|split; [|split; [|split]]].
  - rewrite (Hkeep "prompt"); [exact Hprompt | unfold base_keys; set_solver | done].
  - rewrite (Hkeep "num_images"); [exact Hnum | unfold base_keys; set_solver | done].
  - rewrite (Hkeep "sync_mode"); [exact (proj1 Hsync) | unfold base_keys; set_solver | done].
  - rewrite (Hkeep "enable_safety_checker");
      [exact Hcheck | unfold base_keys; set_solver | done].
  - rewrite Hp. unfold task_args. destruct (Args.seed args) as [s|]; simpl.
    + by rewrite lookup_insert_eq.
    + apply batch_base_args_seedless.
Qed.

(** X20.  A standard-variant run that passed validation sends only
    numbers within the bounds: the guidance and the step count are
    forwarded exactly as given and lie in [1, 20] and [1, 50]; an
    [image_size] object is sent only for a width and a height that are
    both within [256, 14142].  A width and height that validation let
    through as zero or absent are not sent: the run falls back to the
    size preset. *)
Theorem validated_run_sends_in_range args prompt :
  String.eqb (Args.model args) "ultra" = false →
  validate_pro_args args = Ok tt →
  let p := run_base_args args prompt in
  p !! "guidance_scale" = JFloat <$> Args.g args
  ∧ (∀ g, Args.g args = Some g → guidance_in_range g = true)
  ∧ p !! "num_inference_steps" = JInt <$> Args.i args
  ∧ (∀ n, Args.i args = Some n → 1 ≤ n ≤ 50)
  ∧ ((∃ w h, Args.w args = Some w ∧ Args.height args = Some h
             ∧ 256 ≤ w ≤ 14142 ∧ 256 ≤ h ≤ 14142
             ∧ p !! "image_size"
               = Some (JObj {[ "width" := JInt w; "height" := JInt h ]}))
     ∨ (truthy_int (Args.w args) = false ∧ truthy_int (Args.height args) = false
        ∧ p !! "image_size"
          = if truthy_str (Args.size args) then JStr <$> Args.size args else None)).
Proof.
  intros Hpro Hvalid p. rewrite validate_pro_args_unfold in Hvalid.
  destruct (guidance_bad args) eqn:Hg; [done|].
  destruct (steps_bad args) eqn:Hs; [done|].
  destruct (pair_bad args) eqn:Hpair; [done|].
  destruct (dims_bad args) eqn:Hdims; [done|]. clear Hvalid.
  assert (Hgr : ∀ g, Args.g args = Some g → guidance_in_range g = true).
  { intros g Hgv. unfold guidance_bad in Hg. rewrite Hgv in Hg.
    by apply negb_false_iff in Hg. }
  assert (Hir : ∀ n, Args.i args = Some n → 1 ≤ n ≤ 50).
  { intros n Hn. unfold steps_bad in Hs. rewrite Hn in Hs.
    apply negb_false_iff, in_range_spec in Hs. unfold MIN_STEPS, MAX_STEPS in Hs. lia. }
  clear Hg Hs.
  unfold pair_bad in Hpair. apply negb_false_iff, eqb_prop in Hpair.
  unfold dims_bad in Hdims.
  subst p. unfold run_base_args, batch_base_args. cbv zeta. rewrite Hpro.
  destruct (truthy_int (Args.w args)) eqn:Hw;
    destruct (truthy_int (Args.height args)) eqn:Hh; try done; clear Hpair;
    cbn [negb andb] in Hdims |- *.
  - destruct (Args.w args) as [w|]; [|done].
    destruct (Args.height args) as [h|]; [|done].
    apply negb_false_iff, andb_true_iff in Hdims as [Hwr Hhr].
    apply in_range_spec in Hwr, Hhr. unfold MIN_DIM, MAX_DIM in *.
    match goal with
    | |- context [add_pro_args ?b ?sz ?w ?h ?g ?i] =>
        destruct (add_pro_args_lookup b sz w h g i) as (Hgl & Hil & Hsl)
    end.
    rewrite Hgl, Hil.
    rewrite !build_base_args_other by (unfold base_keys; set_solver).
    split; [by destruct (Args.g args)|]. split; [done|].
    split; [by destruct (Args.i args)|]. split; [done|].
    left. exists w, h. repeat split; try lia. exact Hsl.
  - match goal with
    | |- context [add_pro_args ?b ?sz ?w ?h ?g ?i] =>
        destruct (add_pro_args_lookup b sz w h g i) as (Hgl & Hil & Hsl)
    end.
    rewrite Hgl, Hil, Hsl.
    rewrite !build_base_args_other by (unfold base_keys; set_solver).
    split; [by destruct (Args.g args)|]. split; [done|].
    split; [by destruct (Args.i args)|]. split; [done|].
    right. split; [done|]. split; [done|].
    by destruct (truthy_str (Args.size args)) eqn:Hsz; rewrite ?Hsz.
Qed.

(** A width of 1024 and a height of 768 with guidance 3.5 and 28 steps:
    all four are sent. *)
Lemma validated_run_sends_in_range_witness :
  run_base_args sample_pro_args "a prompt" !! "guidance_scale" = Some (JFloat 3.5%float)
  ∧ run_base_args sample_pro_args "a prompt" !! "num_inference_steps" = Some (JInt 28).
Proof.
  destruct (validated_run_sends_in_range sample_pro_args "a prompt")
    as (Hg & _ & Hi & _); [reflexivity | reflexivity |].
  split; [exact Hg | exact Hi].
Defined.

(** ** The command line: validation by model *)

(** X21.  Every command line the parser lets through draws a warning
    about ignored options, whatever the user typed: the defaults of [-a]
    and [--size] count as given, so a high-resolution run is told that
    standard options are ignored and every other run that
    high-resolution options are. *)
Theorem validate_model_args_always_warns args :
  parser_accepts args →
  (validate_model_args args).1
  = [if String.eqb (Args.model args) "ultra" then OutWarnUltra else OutWarnPro].
Proof.
  intros (_ & _ & _ & _ & (a & Ha & Hain) & (size & Hsize & Hsin) & _).
  unfold validate_model_args. destruct (String.eqb (Args.model args) "ultra"); simpl.
  - rewrite Hsize.
    assert (Ht : truthy_str (Some size) = true).
    { unfold IMG_SIZES in Hsin. rewrite !elem_of_cons, elem_of_nil in Hsin.
      destruct Hsin as [-> | [-> | [-> | [-> | [-> | [-> | []]]]]]]; reflexivity. }
    by rewrite Ht.
  - rewrite Ha.
    assert (Ht : truthy_str (Some a) = true).
    { unfold ASPECT_RATIOS in Hain. rewrite !elem_of_cons, elem_of_nil in Hain.
      destruct Hain as [-> | [-> | [-> | [-> | [-> | [-> | [-> | [-> | [-> | []]]]]]]]]];
        reflexivity. }
    by rewrite Ht.
Qed.

Lemma sample_ultra_args_accepted : parser_accepts sample_ultra_args.
Proof.
  unfold parser_accepts, sample_ultra_args. simpl.
  split; [split; [done | by eexists]|].
  split; [unfold MODELS; set_solver|].
  split; [done|]. split; [done|].
  split; [exists "16:9"; split; [done | unfold ASPECT_RATIOS; set_solver]|].
  split; [exists "landscape_16_9"; split; [done | unfold IMG_SIZES; set_solver]|].
  unfold QUEUE_MODES. set_solver.
Qed.

Lemma validate_model_args_always_warns_witness :
  (validate_model_args sample_ultra_args).1 = [OutWarnUltra].
Proof.
  apply (validate_model_args_always_warns sample_ultra_args sample_ultra_args_accepted).
Defined.

(** X22.  The options of the other variant are neither checked nor sent.
    For the model "ultra", validation never raises and the payload is the
    same whatever the size, width, height, guidance and steps are - out of
    range or not; for any other model, the aspect ratio and the raw flag
    change neither the outcome of validation nor the payload. *)
Theorem other_variant_options_ignored args prompt :
  (String.eqb (Args.model args) "ultra" = true →
   ∀ size w height g i,
     (validate_model_args (with_pro_options args size w height g i)).2 = Ok tt
     ∧ run_base_args (with_pro_options args size w height g i) prompt
       = run_base_args args prompt)
  ∧ (String.eqb (Args.model args) "ultra" = false →
     ∀ a raw,
       (validate_model_args (with_ultra_options args a raw)).2 = validate_pro_args args
       ∧ run_base_args (with_ultra_options args a raw) prompt
         = run_base_args args prompt).
Proof.
  split.
  - intros Hu size w height g i. unfold validate_model_args, run_base_args. simpl.
    rewrite Hu. done.
  - intros Hu a raw. unfold validate_model_args, run_base_args. simpl.
    rewrite Hu. done.
Qed.

(** ** The top level: prompt files, output directories, exit codes *)

Lemma prompts_of_blank rt lines :
  Forall (λ line, rt_strip rt line = "") lines → prompts_of rt lines = [].
Proof.
  unfold prompts_of. induction 1 as [|line lines Hline _ IH]; [done|].
  csimpl. rewrite filter_cons, Hline. by rewrite decide_False by (by intros []).
Qed.

(** X23.  A prompt file without a prompt - every line is blank once
    stripped, or there is no line at all - is an error: the program raises
    a [ValueError] before it creates a directory, prints a line or makes a
    request.  A prompt file that cannot be opened passes the exception of
    [open] on, in the same way. *)
Theorem process_all_prompts_no_prompts rt args path s :
  truthy_str (Args.prompt args) = false →
  Args.file args = Some path →
  (∀ lines, rt_lines rt path = Ok lines →
            Forall (λ line, rt_strip rt line = "") lines →
            process_all_prompts rt args s
            = (Some (Raise (ValueError "No valid prompts found in the file")), s))
  ∧ (∀ e, rt_lines rt path = Raise e →
          process_all_prompts rt args s = (Some (Raise e), s)).
Proof.
  intros Hp Hf. unfold process_all_prompts. cbv zeta. rewrite Hf, Hp. split.
  - intros lines Hl Hblank. rewrite Hl, (prompts_of_blank _ _ Hblank).
    by destruct (Args.prompt args).
  - intros e He. rewrite He. by destruct (Args.prompt args).
Qed.

Lemma process_all_prompts_no_prompts_witness :
  process_all_prompts sample_runtime blank_file_args empty_session
  = (Some (Raise (ValueError "No valid prompts found in the file")), empty_session).
Proof.
  destruct (process_all_prompts_no_prompts sample_runtime blank_file_args "blank.txt"
              empty_session) as [Hblank _]; [reflexivity | reflexivity |].
  apply (Hblank [""; "   "]); [reflexivity|].
  repeat constructor.
Defined.

(** X24.  With [-p] the output directory is always
    [generated/<first eight characters of the prompt's digest>] below the
    working directory: both directories are created, the directory is
    announced, and the one run is made for it.  The options [-od] and [-f]
    are not read: they change nothing. *)
Theorem process_all_prompts_single rt args prompt s :
  Args.prompt args = Some prompt →
  prompt ≠ "" →
  let base := path_join (rt_cwd rt) "generated" in
  let out_dir := path_join base (slice_to 8 (rt_sha256 rt prompt)) in
  process_all_prompts rt args s
  = run_generation rt 0 args prompt out_dir
      (Session (World (files (store s))
                      (trace (store s) ++ [EvMakedirs base; EvMakedirs out_dir]))
               (console s ++ [OutSaving out_dir]))
  ∧ ∀ od file,
      process_all_prompts rt (with_od_and_file args od file) s
      = process_all_prompts rt args s.
Proof.
  intros Hp Hne base out_dir.
  assert (Ht : truthy_str (Some prompt) = true).
  { simpl. by destruct (String.eqb_spec prompt ""). }
  split.
  - unfold process_all_prompts. cbv zeta. rewrite Hp, Ht.
    unfold setup_output_dir, get_prompt_hash, in_store, say. cbv zeta. simpl.
    fold base. fold out_dir. by rewrite <- app_assoc.
  - intros od file. unfold process_all_prompts. cbv zeta. simpl. rewrite Hp, Ht.
    reflexivity.
Qed.

Lemma process_all_prompts_single_witness :
  process_all_prompts sample_runtime (with_od_and_file sample_ultra_args (Some "shots") None)
    empty_session
  = process_all_prompts sample_runtime sample_ultra_args empty_session.
Proof.
  apply (process_all_prompts_single sample_runtime sample_ultra_args "a prompt"
           empty_session); [reflexivity | done].
Defined.

(** Outside the poll mode a run for a known model always finishes, and
    leaves the metadata of its own results. *)
Lemma run_generation_direct rt k args prompt out_dir s :
  Args.q args ≠ "submit" →
  is_Some (ENDPOINTS !! Args.model args) →
  ∃ results w1 fs' t,
    generate_from_args (rt_fal rt k) (rt_get rt) (rt_fuel rt) (rt_picks rt k) args
      prompt out_dir (store s) = (Some (Ok results), w1)
    ∧ run_generation rt k args prompt out_dir s
      = (Some (Ok tt), Session (World fs' t) (console s))
    ∧ (rt_dumps rt results ≠ "" →
       fs' !! path_join out_dir "metadata.json" = Some (rt_dumps rt results)).
Proof.
  intros Hq Hm.
  assert (Hgen : ∃ results w1,
            generate_from_args (rt_fal rt k) (rt_get rt) (rt_fuel rt) (rt_picks rt k) args
              prompt out_dir (store s) = (Some (Ok results), w1)).
  { unfold generate_from_args. cbv zeta. by apply generate_images_direct. }
  destruct Hgen as (results & w1 & Hgen).
  destruct (process_generation_finalizes (rt_fal rt k) (rt_get rt) (rt_fuel rt)
              (rt_picks rt k) (rt_dumps rt) args prompt out_dir (store s) results w1 Hgen)
    as (fs' & t & Hrun & _ & Hmeta).
  exists results, w1, fs'. eexists. split; [exact Hgen|].
  split; [|exact Hmeta]. unfold run_generation. rewrite Hrun. reflexivity.
Qed.

(** The loop over the prompts of a file, all into one given directory. *)
Lemma process_prompts_shared_dir rt args dir total before : ∀ k last s,
  Args.q args ≠ "submit" →
  is_Some (ENDPOINTS !! Args.model args) →
  Args.od args = Some dir → dir ≠ "" →
  (∀ results, rt_dumps rt results ≠ "") →
  ∃ s' w results w1,
    process_prompts rt args total k (before ++ [last]) s = (Some (Ok tt), s')
    ∧ generate_from_args (rt_fal rt (k + length before)) (rt_get rt) (rt_fuel rt)
        (rt_picks rt (k + length before)) args last dir w = (Some (Ok results), w1)
    ∧ files (store s') !! path_join dir "metadata.json" = Some (rt_dumps rt results)
    ∧ console s'
      = console s ++ imap (λ i prompt, OutProcessing (S (k + i)) total prompt)
                          (before ++ [last]).
Proof.
  induction before as [|prompt before IH]; intros k last s Hq Hm Hod Hdir Hdumps.
  - simpl process_prompts. unfold setup_output_dir. cbv zeta. rewrite Hod.
    assert (Ht : truthy_str (Some dir) = true).
    { simpl. by destruct (String.eqb_spec dir ""). }
    rewrite Ht.
    destruct (run_generation_direct rt k args last dir
                (in_store (makedirs dir) (say (OutProcessing (S k) total last) s)) Hq Hm)
      as (results & w1 & fs' & t & Hgen & Hrun & Hmeta).
    rewrite Hrun. eexists _, _, results, w1. split; [reflexivity|].
    simpl length. rewrite Nat.add_0_r. split; [exact Hgen|].
    split; [apply Hmeta, Hdumps|]. simpl. by rewrite Nat.add_0_r.
  - simpl process_prompts. unfold setup_output_dir. cbv zeta. rewrite Hod.
    assert (Ht : truthy_str (Some dir) = true).
    { simpl. by destruct (String.eqb_spec dir ""). }
    rewrite Ht.
    destruct (run_generation_direct rt k args prompt dir
                (in_store (makedirs dir) (say (OutProcessing (S k) total prompt) s)) Hq Hm)
      as (results0 & w0 & fs0 & t0 & _ & Hrun & _).
    rewrite Hrun.
    destruct (IH (S k) last (Session (World fs0 t0)
                   (console (in_store (makedirs dir)
                      (say (OutProcessing (S k) total prompt) s)))) Hq Hm Hod Hdir Hdumps)
      as (s' & w & results & w1 & Hloop & Hgen & Hmeta & Hcon).
    exists s', w, results, w1. split; [exact Hloop|].
    simpl length. replace (k + S (length before))%nat with (S k + length before)%nat by lia.
    split; [exact Hgen|]. split; [exact Hmeta|].
    rewrite Hcon. simpl. rewrite <- app_assoc. simpl. rewrite Nat.add_0_r.
    do 2 f_equal. apply imap_ext. intros i x _. simpl. f_equal. lia.
Qed.

(** X25.  A prompt file with [-od]: outside the poll mode every prompt is
    processed, in the order of the file, and all runs share the given
    directory.  Each run writes its metadata file there, so when the
    program ends the metadata file holds the records of the last prompt
    only; the program announces the number of prompts, each prompt with
    its number, and that all were processed. *)
Theorem process_all_prompts_shared_dir rt args path lines dir before last s :
  truthy_str (Args.prompt args) = false →
  Args.file args = Some path →
  rt_lines rt path = Ok lines →
  prompts_of rt lines = before ++ [last] →
  Args.od args = Some dir → dir ≠ "" →
  Args.q args ≠ "submit" →
  is_Some (ENDPOINTS !! Args.model args) →
  (∀ results, rt_dumps rt results ≠ "") →
  ∃ s' w results w1,
    process_all_prompts rt args s = (Some (Ok tt), s')
    ∧ generate_from_args (rt_fal rt (length before)) (rt_get rt) (rt_fuel rt)
        (rt_picks rt (length before)) args last dir w = (Some (Ok results), w1)
    ∧ files (store s') !! path_join dir "metadata.json" = Some (rt_dumps rt results)
    ∧ console s'
      = console s ++ OutFound (S (length before))
          :: imap (λ i prompt, OutProcessing (S i) (S (length before)) prompt)
                  (before ++ [last])
          ++ [OutAllProcessed].
Proof.
  intros Hp Hf Hl Hprompts Hod Hdir Hq Hm Hdumps.
  unfold process_all_prompts. cbv zeta. rewrite Hf, Hl, Hp, Hprompts.
  assert (Hlen : length (before ++ [last]) = S (length before)).
  { rewrite length_app. simpl. lia. }
  destruct (process_prompts_shared_dir rt args dir (length (before ++ [last])) before 0 last
              (say (OutFound (length (before ++ [last]))) s) Hq Hm Hod Hdir Hdumps)
    as (s' & w & results & w1 & Hloop & Hgen & Hmeta & Hcon).
  exists (say OutAllProcessed s'), w, results, w1.
  split.
  { destruct (before ++ [last]) as [|p l] eqn:Hbl; [by destruct before|].
    cbv iota. rewrite Hloop. by destruct (Args.prompt args). }
  split; [exact Hgen|]. split; [exact Hmeta|].
  unfold say at 1. cbn [console]. rewrite Hcon. unfold say. cbn [console].
  rewrite Hlen, <- !app_assoc. reflexivity.
Qed.

Lemma sample_prompts :
  prompts_of sample_runtime ["a red fox"; "   "; "  a blue bird "]
  = ["a red fox"] ++ ["a blue bird"].
Proof. by vm_compute. Qed.

(** The sample file of two prompts into the directory "shots". *)
Lemma process_all_prompts_shared_dir_witness :
  ∃ s',
    process_all_prompts sample_runtime sample_file_args empty_session = (Some (Ok tt), s')
    ∧ is_Some (files (store s') !! "shots/metadata.json")
    ∧ console s'
      = [OutFound 2; OutProcessing 1 2 "a red fox"; OutProcessing 2 2 "a blue bird";
         OutAllProcessed].
Proof.
  destruct (process_all_prompts_shared_dir sample_runtime sample_file_args "prompts.txt"
              ["a red fox"; "   "; "  a blue bird "] "shots" ["a red fox"] "a blue bird"
              empty_session)
    as (s' & w & results & w1 & Hrun & _ & Hmeta & Hcon).
  - reflexivity.
  - reflexivity.
  - reflexivity.
  - exact sample_prompts.
  - reflexivity.
  - done.
  - done.
  - by eexists.
  - apply sample_dumps_not_empty.
  - exists s'. split; [exact Hrun|].
    change (path_join "shots" "metadata.json") with "shots/metadata.json" in Hmeta.
    split; [rewrite Hmeta; by eexists | exact Hcon].
Defined.

(** X26.  How the program ends.  Without a key in the environment - or
    with an empty one - it prints the instructions and exits with status
    1 before it looks at the command line: nothing is parsed, validated,
    created or requested.  With a key, a command line the parser exits on
    ends the program with the status of the parser (2 for a command line
    it rejects, 0 for [-h]), and one that fails validation makes it print
    the warning, if any, and the error, and exit with status 1; in both
    cases before anything is created or requested.  An exception of the
    runs is printed and gives status 1.  So an early exit has status 1
    unless it is the parser's, and the file store can only have changed
    when the key was set, the command line was parsed and validation
    passed. *)
Theorem main_endings rt cmd s :
  (truthy_str (rt_key rt) = false →
   main rt cmd s = (Exit 1, say OutKeyMissing s))
  ∧ (truthy_str (rt_key rt) = true →
     (∀ status, cmd = ParserExit status →
        main rt cmd s = (Exit status, say OutParser s))
     ∧ (∀ args e, cmd = Namespace args → (validate_model_args args).2 = Raise e →
          main rt cmd s
          = (Exit 1, Session (store s)
                       (console s ++ (validate_model_args args).1 ++ [OutError e])))
     ∧ (∀ args e s2, cmd = Namespace args → (validate_model_args args).2 = Ok tt →
          process_all_prompts rt args
            (Session (store s) (console s ++ (validate_model_args args).1))
          = (Some (Raise e), s2) →
          main rt cmd s = (Exit 1, say (OutError e) s2)))
  ∧ (∀ status, (main rt cmd s).1 = Exit status → status = 1 ∨ cmd = ParserExit status)
  ∧ (store (main rt cmd s).2 ≠ store s →
     truthy_str (rt_key rt) = true
     ∧ ∃ args, cmd = Namespace args ∧ (validate_model_args args).2 = Ok tt)
  ∧ ((main rt cmd s).1 = Finished →
     ∃ args s1 s2, cmd = Namespace args
                   ∧ process_all_prompts rt args s1 = (Some (Ok tt), s2)
                   ∧ (main rt cmd s).2 = s2).
Proof.
  split.
  { intros Hkey. unfold main, check_api_key. by rewrite Hkey. }
  split.
  { intros Hkey.
    assert (Hchk : check_api_key rt = ([], rt_key rt)).
    { unfold check_api_key. by rewrite Hkey. }
    assert (Hsome : ∃ key, rt_key rt = Some key).
    { destruct (rt_key rt) as [key|]; [by exists key | done]. }
    destruct Hsome as [key Hk]. rewrite Hk in Hchk.
    split; [intros status ->; unfold main; by rewrite Hchk|]. split.
    - intros args e -> Hval. unfold main. rewrite Hchk.
      destruct (validate_model_args args) as [warnings valid]. simpl in Hval.
      subst valid. simpl. by rewrite app_assoc.
    - intros args e s2 -> Hval Hrun. unfold main. rewrite Hchk.
      destruct (validate_model_args args) as [warnings valid]. simpl in Hval, Hrun.
      subst valid. simpl. by rewrite Hrun. }
  unfold main, check_api_key.
  destruct (truthy_str (rt_key rt)) eqn:Hkey.
  2:{ split; [intros ? [= <-]; by left|]. split; [done|]. done. }
  assert (Hsome : ∃ key, rt_key rt = Some key).
  { destruct (rt_key rt) as [key|]; [by exists key | done]. }
  destruct Hsome as [key Hk]. rewrite Hk.
  destruct cmd as [args|status].
  2:{ split; [intros ? [= <-]; by right|]. split; [done|]. done. }
  destruct (validate_model_args args) as [warnings [[]|e]] eqn:Hv; simpl.
  - destruct (process_all_prompts rt args _) as [[[[]|e]|] s2] eqn:Hrun; simpl.
    + split; [done|].
      split; [intros _; split; [done|]; exists args; by rewrite Hv|].
      intros _. exists args. by eexists _, _.
    + split; [intros ? [= <-]; by left|].
      split; [intros _; split; [done|]; exists args; by rewrite Hv|]. done.
    + split; [done|].
      split; [intros _; split; [done|]; exists args; by rewrite Hv|]. done.
  - split; [intros ? [= <-]; by left|]. split; [done|]. done.
Qed.

(** A command line the parser rejects, and one with a guidance above its
    bound. *)
Example main_sample_endings :
  main sample_runtime (ParserExit 2) empty_session = (Exit 2, say OutParser empty_session)
  ∧ main sample_runtime (Namespace bad_guidance_args) empty_session
    = (Exit 1, say (OutError (ValueError msg_guidance)) (say OutWarnPro empty_session)).
Proof. split; by vm_compute. Qed.

(** ** Media downloader: where a file name lands *)

Lemma lower_ascii_dot c : Ascii.eqb (lower_ascii c) "." = Ascii.eqb c ".".
Proof. by destruct c as [[] [] [] [] [] [] [] []]. Qed.

Lemma contains_dot_lower s : contains "." (lower s) = contains "." s.
Proof. induction s as [|a s IH]; simpl; [done|]. by rewrite lower_ascii_dot, IH. Qed.

Lemma length_slice_to n s : (String.length (slice_to n s) ≤ n)%nat.
Proof.
  revert s. induction n as [|n IH]; intros [|c s]; simpl; try lia.
  specialize (IH s). lia.
Qed.

Lemma length_app_string s t :
  String.length (s +:+ t) = (String.length s + String.length t)%nat.
Proof.
  induction s as [|c s IH]; [done|].
  change (S (String.length (s +:+ t)) = S (String.length s + String.length t)).
  by rewrite IH.
Qed.

(** A relative, non-empty name joined to a directory lies below it. *)
Lemma under_path_join top name :
  top ≠ "" → name ≠ "" → starts_with "/" name = false →
  under top (path_join top name) = true.
Proof.
  intros Htop Hname Hrel. unfold under, path_join. rewrite Hrel. simpl starts_with.
  cbv iota.
  destruct (String.eqb top "" || ends_with "/" top).
  - rewrite append_empty_r, prefix_app, length_app_string. simpl.
    apply Nat.ltb_lt. destruct name; [done|]. simpl. lia.
  - rewrite <- (append_assoc top "/" name), <- (append_assoc top "/" "").
    rewrite append_empty_r, prefix_app, !length_app_string. simpl.
    apply Nat.ltb_lt. destruct name; [done|]. simpl. lia.
Qed.

(** X27.  The file name derived from a media URL.  Its identifier has at
    most eight characters and holds neither a slash nor an underscore; its
    extension holds no dot and no upper-case letter.  Whatever the URL,
    the file lies below the output directory (never outside it), so the
    sweep of the finalizer reaches every saved file. *)
Theorem fname_below_out_dir out_dir url :
  (String.length (flux_id url) ≤ 8)%nat
  ∧ contains "/" (flux_id url) = false
  ∧ contains "_" (flux_id url) = false
  ∧ contains "." (ext url) = false
  ∧ lower (ext url) = ext url
  ∧ (out_dir ≠ "" → under out_dir (fname out_dir url) = true).
Proof.
  split; [apply length_slice_to|].
  split; [rewrite flux_id_spec; apply spec_id_no_slash|].
  split.
  { unfold flux_id. rewrite first_piece_split. apply contains_slice_to.
    apply before_first_spec. }
  split.
  { rewrite ext_spec, contains_dot_lower. apply after_last_spec. }
  split; [unfold ext; apply lower_idempotent|].
  intros Hdir. unfold fname. apply under_path_join; [done | |].
  - by destruct (flux_id url).
  - apply file_name_not_absolute. rewrite flux_id_spec. apply spec_id_no_slash.
Qed.
